(** * Plandex CLI: context ingestion and project path resolution

    A shallow embedding of two Go files of the Plandex command line client:

    - [cli/lib/context_load.go], function [MustLoadContext]: the token
      accounting that every ingestion worker performs under
      [totalTokensMutex], and the context part a worker builds;
    - the [fs] package: [GetPaths], [GetParentProjectIdsWithPaths],
      [GetChildProjectIdsWithPaths], [GetBaseDirForFilePaths] and
      [findPlandex].

    Go's [int] is the 64-bit two's complement integer of the amd64 and arm64
    targets, written as [Z] with the wrap-around explicit.  The standard
    library functions the code calls ([strings.Split], [strings.Join],
    [filepath.Join], [filepath.Dir], [filepath.Base], [filepath.Rel],
    [filepath.Walk]) are modelled for Unix paths (separator [/]). *)

From Stdlib Require Import ZArith Lia Ascii String.
From Stdlib Require Import DecimalString.
From stdpp Require Import gmap strings list sorting.

Local Open Scope Z_scope.

(** ** Go's [int] *)

Module GoInt.

Definition min_int : Z := - 2 ^ 63.
Definition max_int : Z := 2 ^ 63 - 1.

Definition is_int (z : Z) : Prop := min_int <= z <= max_int.

(** The value a 64-bit signed register holds for the mathematical integer
    [z]. *)
Definition wrap (z : Z) : Z := (z + 2 ^ 63) mod 2 ^ 64 - 2 ^ 63.

(** [x + y] and [x - y] on [int]. *)
Definition add (x y : Z) : Z := wrap (x + y).
Definition sub (x y : Z) : Z := wrap (x - y).

(** [x > y] on [int]. *)
Definition gt (x y : Z) : bool := y <? x.

End GoInt.

(** ** The Go standard library functions the code calls, for Unix paths *)

Module strings.

(** [strings.Split(s, sep)] for a one-character separator: the pieces
    between the separators, at least one piece, empty pieces kept. *)
Fixpoint SplitChar (sep : ascii) (s : string) : list string :=
  match s with
  | EmptyString => [EmptyString]
  | String c rest =>
      if Ascii.eqb c sep then EmptyString :: SplitChar sep rest
      else match SplitChar sep rest with
           | [] => [String c EmptyString]
           | piece :: pieces => String c piece :: pieces
           end
  end.

(** [strings.Join(elems, sep)]. *)
Fixpoint Join (elems : list string) (sep : string) : string :=
  match elems with
  | [] => EmptyString
  | [e] => e
  | e :: rest => e +:+ sep +:+ Join rest sep
  end.

(** The line feed character as a string. *)
Definition newline : string := String (ascii_of_nat 10) EmptyString.

(** [strings.HasPrefix(s, prefix)]. *)
Definition HasPrefix (s prefix : string) : bool := String.prefix prefix s.

End strings.

Module filepath.

Definition Separator : ascii := "/"%char.
Definition segments (path : string) : list string := strings.SplitChar Separator path.

Definition rooted (path : string) : bool := strings.HasPrefix path "/".

(** The element loop of [Clean]: [out] is the stack of elements kept so far,
    innermost first.  Empty elements and [.] are dropped; [..] removes the
    element before it when there is one to remove, is dropped at the root,
    and is kept in front of a relative path. *)
Fixpoint cleanLoop (isRooted : bool) (elems out : list string) : list string :=
  match elems with
  | [] => rev out
  | e :: rest =>
      if String.eqb e "" then cleanLoop isRooted rest out
      else if String.eqb e "." then cleanLoop isRooted rest out
      else if String.eqb e ".." then
        match out with
        | top :: below =>
            if String.eqb top ".." then cleanLoop isRooted rest (e :: out)
            else cleanLoop isRooted rest below
        | [] =>
            if isRooted then cleanLoop isRooted rest out
            else cleanLoop isRooted rest (e :: out)
        end
      else cleanLoop isRooted rest (e :: out)
  end.

Definition assemble (isRooted : bool) (elems : list string) : string :=
  match isRooted, elems with
  | true, _ => "/" +:+ strings.Join elems "/"
  | false, [] => "."
  | false, _ => strings.Join elems "/"
  end.

(** [filepath.Clean]. *)
Definition Clean (path : string) : string :=
  assemble (rooted path) (cleanLoop (rooted path) (segments path) []).

(** The leading empty elements that [Join] skips. *)
Fixpoint dropEmpty (elem : list string) : list string :=
  match elem with
  | [] => []
  | e :: rest => if String.eqb e "" then dropEmpty rest else elem
  end.

(** [filepath.Join]: the elements from the first non-empty one on, joined
    with the separator and cleaned; the empty string when every element is
    empty. *)
Definition Join (elem : list string) : string :=
  match dropEmpty elem with
  | [] => EmptyString
  | kept => Clean (strings.Join kept "/")
  end.

Fixpoint hasSeparator (path : string) : bool :=
  match path with
  | EmptyString => false
  | String c rest => Ascii.eqb c Separator || hasSeparator rest
  end.

(** [path[:i+1]] for the index [i] of the last separator; empty when there
    is none. *)
Fixpoint upToLastSeparator (path : string) : string :=
  match path with
  | EmptyString => EmptyString
  | String c rest =>
      if hasSeparator rest then String c (upToLastSeparator rest)
      else if Ascii.eqb c Separator then String c EmptyString
      else EmptyString
  end.

(** [filepath.Dir]: everything up to the last separator, cleaned. *)
Definition Dir (path : string) : string := Clean (upToLastSeparator path).

(** Trailing separators removed, as the first loop of [Base] does. *)
Fixpoint stripTrailing (elems : list string) : list string :=
  match elems with
  | [] => []
  | e :: rest =>
      match stripTrailing rest with
      | [] => if String.eqb e "" then [] else [e]
      | rest' => e :: rest'
      end
  end.

(** [filepath.Base]: the last element of the path. *)
Definition Base (path : string) : string :=
  if String.eqb path "" then "."
  else match stripTrailing (segments path) with
       | [] => "/"
       | elems => List.last elems ""
       end.

(** The elements two element lists do not share at their front. *)
Fixpoint dropCommon (base targ : list string) : list string * list string :=
  match base, targ with
  | b :: base', t :: targ' =>
      if String.eqb b t then dropCommon base' targ' else (base, targ)
  | _, _ => (base, targ)
  end.

Definition elements (cleaned : string) : list string :=
  List.filter (fun e => negb (String.eqb e "")) (segments cleaned).

(** [filepath.Rel(basepath, targpath)]; [None] is the error
    [Rel: can't make targpath relative to basepath]. *)
Definition Rel (basepath targpath : string) : option string :=
  let base := Clean basepath in
  let targ := Clean targpath in
  if String.eqb targ base then Some "."
  else
    let base := if String.eqb base "." then "" else base in
    if negb (Bool.eqb (rooted base) (rooted targ)) then None
    else
      let '(b, t) := dropCommon (elements base) (elements targ) in
      match b with
      | [] => Some (strings.Join t "/")
      | b0 :: _ =>
          if String.eqb b0 ".." then None
          else Some (strings.Join (List.map (fun _ => "..") b ++ t) "/")
      end.

(** Measures of element lists: the length of the elements with one
    separator each, over all elements and over the non-empty ones, and the
    first element in full with the non-empty ones after it. *)
Fixpoint weight (elems : list string) : nat :=
  match elems with
  | [] => 0
  | e :: rest => S (String.length e) + weight rest
  end.

Fixpoint weightKept (elems : list string) : nat :=
  match elems with
  | [] => 0
  | e :: rest =>
      (if String.eqb e "" then 0 else S (String.length e)) + weightKept rest
  end.

Definition headWeight (elems : list string) : nat :=
  match elems with
  | [] => 0
  | e :: rest => S (String.length e) + weightKept rest
  end.

End filepath.

(** ** [cli/lib/context_load.go]: [MustLoadContext] *)

Module ContextLoad.

Import GoInt.

(** [shared.ModelContextPart.Type]: the five kinds of context part. *)
Inductive ContextType :=
| ContextNoteType
| ContextPipedDataType
| ContextFileType
| ContextDirectoryTreeType
| ContextURLType.

#[export] Instance ContextType_eq_dec : EqDecision ContextType.
Proof. solve_decision. Defined.

(** The two counters of the plan state that the function reads and writes. *)
Record PlanState := {
  ContextTokens : Z;
  ContextUpdatableTokens : Z
}.

(** The three local variables guarded by [totalTokensMutex]. *)
Record Tally := {
  totalTokens : Z;
  totalUpdatableTokens : Z;
  tokensAdded : Z
}.

(** Lines 43-45: the counters as initialised from the plan state. *)
Definition initTally (planState : PlanState) : Tally :=
  {| totalTokens := ContextTokens planState;
     totalUpdatableTokens := ContextUpdatableTokens planState;
     tokensAdded := 0 |}.

(** What the critical section of a worker leaves behind: the mutex released
    (deferred [Unlock]) or the process ended by [os.Exit(1)] with the mutex
    still held, so that no other worker can touch the counters. *)
Inductive Locked :=
| Released (t : Tally)
| ExitBudget (t : Tally).

Definition checkBudget (maxTokens : Z) (t : Tally) : Locked :=
  if gt (totalTokens t) maxTokens then ExitBudget t else Released t.

(** The critical sections of the five worker closures, in source order. *)

(** Note worker, lines 68-81. *)
Definition noteSection (maxTokens numTokens : Z) (t : Tally) : Locked :=
  let t1 := {| totalTokens := add (totalTokens t) numTokens;
               totalUpdatableTokens := totalUpdatableTokens t;
               tokensAdded := add (tokensAdded t) numTokens |} in
  checkBudget maxTokens t1.

(** Piped data worker, lines 150-162. *)
Definition pipedSection (maxTokens numTokens : Z) (t : Tally) : Locked :=
  let t1 := {| totalTokens := add (totalTokens t) numTokens;
               totalUpdatableTokens := totalUpdatableTokens t;
               tokensAdded := add (tokensAdded t) numTokens |} in
  checkBudget maxTokens t1.

(** Directory tree worker (names only), lines 239-252. *)
Definition treeSection (maxTokens numTokens : Z) (t : Tally) : Locked :=
  let t1 := {| totalTokens := add (totalTokens t) numTokens;
               totalUpdatableTokens := add (totalUpdatableTokens t) numTokens;
               tokensAdded := add (tokensAdded t) numTokens |} in
  checkBudget maxTokens t1.

(** File worker, lines 317-330. *)
Definition fileSection (maxTokens numTokens : Z) (t : Tally) : Locked :=
  let t1 := {| totalTokens := add (totalTokens t) numTokens;
               totalUpdatableTokens := add (totalUpdatableTokens t) numTokens;
               tokensAdded := add (tokensAdded t) numTokens |} in
  checkBudget maxTokens t1.

(** URL worker, lines 379-391. *)
Definition urlSection (maxTokens numTokens : Z) (t : Tally) : Locked :=
  let t1 := {| totalTokens := add (totalTokens t) numTokens;
               totalUpdatableTokens := add (totalUpdatableTokens t) numTokens;
               tokensAdded := add (tokensAdded t) numTokens |} in
  checkBudget maxTokens t1.

(** A unit of work whose token count is known: the kind of its worker and
    the value [shared.GetNumTokens] returned for its body. *)
Record WorkUnit := {
  kind : ContextType;
  numTokens : Z
}.

Definition criticalSection (maxTokens : Z) (u : WorkUnit) (t : Tally) : Locked :=
  match kind u with
  | ContextNoteType => noteSection maxTokens (numTokens u) t
  | ContextPipedDataType => pipedSection maxTokens (numTokens u) t
  | ContextDirectoryTreeType => treeSection maxTokens (numTokens u) t
  | ContextFileType => fileSection maxTokens (numTokens u) t
  | ContextURLType => urlSection maxTokens (numTokens u) t
  end.

(** The mutex serialises the critical sections.  A schedule is the order in
    which the workers acquire it; the sections run one after the other until
    one of them exits the process. *)
Fixpoint run (maxTokens : Z) (t : Tally) (schedule : list WorkUnit) : Locked :=
  match schedule with
  | [] => Released t
  | u :: rest =>
      match criticalSection maxTokens u t with
      | Released t' => run maxTokens t' rest
      | ExitBudget t' => ExitBudget t'
      end
  end.

(** The units whose count has been added when [run] stops: all of them, or
    those up to and including the one whose section exits. *)
Fixpoint counted (maxTokens : Z) (t : Tally) (schedule : list WorkUnit) : list WorkUnit :=
  match schedule with
  | [] => []
  | u :: rest =>
      u :: match criticalSection maxTokens u t with
           | Released t' => counted maxTokens t' rest
           | ExitBudget _ => []
           end
  end.

Definition tallyOf (l : Locked) : Tally :=
  match l with Released t | ExitBudget t => t end.

(** How a call of [MustLoadContext] ends, as far as the counters go.  The
    exits for other failures (a failed token count, a failed request for a
    file name at lines 86-92 and 167-173, a failed write of the context or
    of the plan state at lines 466-472, a failed commit at lines 545-551,
    and the like) are not outcomes of this model: it describes the calls in
    which none of them occurs, and says nothing about the others. *)
Inductive Outcome :=
| Returned (added total : Z) (planState : PlanState)
| ExitedOverBudget (t : Tally)
| ExitedNoContext.

(** Every worker that leaves its critical section appends one context part,
    so after [wg.Wait()] the slice [contextParts] is empty exactly when no
    worker was dispatched (line 450).  Lines 461-462 store the two totals in
    the plan state, line 555 returns [tokensAdded, totalTokens]. *)
Definition MustLoadContext (maxTokens : Z) (planState : PlanState)
    (schedule : list WorkUnit) : Outcome :=
  match run maxTokens (initTally planState) schedule with
  | ExitBudget t => ExitedOverBudget t
  | Released t =>
      match schedule with
      | [] => ExitedNoContext
      | _ :: _ =>
          Returned (tokensAdded t) (totalTokens t)
            {| ContextTokens := totalTokens t;
               ContextUpdatableTokens := totalUpdatableTokens t |}
      end
  end.

(** The context part of a worker, [shared.ModelContextPart]. *)
Record ModelContextPart := {
  Type_ : ContextType;
  Name : string;
  FilePath : string;
  Url : string;
  Body : string;
  Sha : string;
  NumTokens : Z;
  AddedAt : string;
  UpdatedAt : string
}.

(** Lines 256-263 of the directory tree worker: the local variable [name]
    after the two [if] statements. *)
Definition treeDisplayName (inputFilePath : string) : string :=
  let name := filepath.Base inputFilePath in
  let name := if String.eqb name "." then "cwd" else name in
  let name := if String.eqb name ".." then "parent" else name in
  name.

(** Lines 226-231 and 265-274 of the directory tree worker: the part it
    appends, for the flattened paths [ParseInputPaths] returned, the digest
    function, the token count of the body and the time stamp.  The struct
    literal takes [Name] from [inputFilePath]. *)
Definition treeContextPart (sha256hex : string -> string)
    (inputFilePath : string) (flattenedPaths : list string)
    (numTokens : Z) (ts : string) : ModelContextPart :=
  let body := strings.Join flattenedPaths strings.newline in
  {| Type_ := ContextDirectoryTreeType;
     Name := inputFilePath;
     FilePath := inputFilePath;
     Url := "";
     Body := body;
     Sha := sha256hex body;
     NumTokens := numTokens;
     AddedAt := ts;
     UpdatedAt := ts |}.

(** The rest of [MustLoadContext]. *)

(** Lines 196-208: the loop that sorts the resources into URLs and file
    paths, with the two slices it appends to. *)
Fixpoint classifyLoop (IsValidURL : string -> bool)
    (resources inputUrls inputFilePaths : list string) : list string * list string :=
  match resources with
  | [] => (inputUrls, inputFilePaths)
  | resource :: rest =>
      if IsValidURL resource
      then classifyLoop IsValidURL rest (inputUrls ++ [resource]) inputFilePaths
      else classifyLoop IsValidURL rest inputUrls (inputFilePaths ++ [resource])
  end.

Definition classifyResources (IsValidURL : string -> bool)
    (resources : list string) : list string * list string :=
  classifyLoop IsValidURL resources [] [].



(** [strconv.Itoa] of a length. *)
Definition Itoa (n : nat) : string := NilZero.string_of_uint (Nat.to_uint n).

(** Lines 474-503: the slice [added] of what was loaded. *)
Definition addedList (Note : string) (hasPipeData NamesOnly : bool)
    (inputFilePaths inputUrls : list string) : list string :=
  let added := [] in
  let added := if negb (String.eqb Note "") then added ++ ["a note"%string] else added in
  let added := if hasPipeData then added ++ ["piped data"%string] else added in
  let added :=
    if (0 <? length inputFilePaths)%nat then
      let label :=
        if NamesOnly
        then (if (1 <? length inputFilePaths)%nat
              then "directory trees" else "directory tree")%string
        else (if (1 <? length inputFilePaths)%nat then "files" else "file")%string in
      added ++ [Itoa (length inputFilePaths) +:+ " " +:+ label]
    else added in
  let added :=
    if (0 <? length inputUrls)%nat then
      let label := (if (1 <? length inputUrls)%nat then "urls" else "url")%string in
      added ++ [Itoa (length inputUrls) +:+ " " +:+ label]
    else added in
  added.

(** Lines 509-515: the loop over [added] when it has more than two
    elements; [i] is the index of the first element of [added] and [n] the
    length of the whole slice. *)
Fixpoint listLoop (added : list string) (i n : nat) (msg : string) : string :=
  match added with
  | [] => msg
  | add :: rest =>
      if (i =? n - 1)%nat then listLoop rest (S i) n (msg +:+ ", and " +:+ add)
      else listLoop rest (S i) n (msg +:+ ", " +:+ add)
  end.

(** Lines 505-516: the message before the token counts are appended. *)
Definition loadedMessage (added : list string) : string :=
  let msg := "Loaded "%string in
  if (length added <=? 2)%nat then msg +:+ strings.Join added " and "
  else listLoop added 0 (length added) msg.

(** Specification-side vocabulary. *)

(** The kinds the specification calls updatable. *)
Definition updatableKind (k : ContextType) : bool :=
  match k with
  | ContextFileType | ContextDirectoryTreeType | ContextURLType => true
  | ContextNoteType | ContextPipedDataType => false
  end.

Fixpoint sumTokens (us : list WorkUnit) : Z :=
  match us with
  | [] => 0
  | u :: rest => numTokens u + sumTokens rest
  end.

(** The counts of the updatable units of a list, added up. *)
Fixpoint sumUpdatable (us : list WorkUnit) : Z :=
  match us with
  | [] => 0
  | u :: rest =>
      (if updatableKind (kind u) then numTokens u else 0) + sumUpdatable rest
  end.

(** The counters after a unit's increments, before the budget check. *)
Definition bump (u : WorkUnit) (t : Tally) : Tally :=
  {| totalTokens := add (totalTokens t) (numTokens u);
     totalUpdatableTokens :=
       if updatableKind (kind u)
       then add (totalUpdatableTokens t) (numTokens u)
       else totalUpdatableTokens t;
     tokensAdded := add (tokensAdded t) (numTokens u) |}.

(** All the increments of a list of units, without the checks. *)
Definition bumpAll (us : list WorkUnit) (t : Tally) : Tally :=
  foldl (fun t u => bump u t) t us.

(** Token counts are lengths, hence non-negative, and the sums stay within
    [int]. *)
Definition fits (t : Tally) (us : list WorkUnit) : Prop :=
  Forall (fun u => 0 <= numTokens u) us /\
  min_int <= totalTokens t /\
  totalTokens t + sumTokens us <= max_int.

(** The invariant of the plan state counters. *)
Definition countersOrdered (total updatable : Z) : Prop :=
  0 <= updatable <= total.

(** The claim that the total at the end of a call does not depend on the
    order in which the workers take the lock. *)
Definition totalOrderIndependent (maxTokens : Z) (t : Tally) (us : list WorkUnit) : Prop :=
  forall us', us ≡ₚ us' ->
    totalTokens (tallyOf (run maxTokens t us')) =
    totalTokens (tallyOf (run maxTokens t us)).

(** Every element with [, ] in front of it. *)
Fixpoint commaList (elems : list string) : string :=
  match elems with
  | [] => EmptyString
  | e :: rest => ", " +:+ e +:+ commaList rest
  end.

End ContextLoad.

(** ** The [fs] package *)

Module Fs.

Local Open Scope string_scope.

(** Go errors, as far as the code tells them apart: the sentinel
    [filepath.SkipDir], an error of the operating system ([os.IsPermission]
    reads [permission]), and an error made by [fmt.Errorf]. *)
Inductive error :=
| SkipDir
| PathError (permission : bool) (msg : string)
| Errorf (msg : string).

#[export] Instance error_eq_dec : EqDecision error.
Proof. solve_decision. Defined.

(** [err.Error()]. *)
Definition Error (e : error) : string :=
  match e with
  | SkipDir => "skip this directory"
  | PathError _ msg => msg
  | Errorf msg => msg
  end.

(** [os.IsPermission(err)]. *)
Definition IsPermission (e : error) : bool :=
  match e with
  | PathError p _ => p
  | _ => false
  end.

(** The result of a call that can return, return an error, or panic. *)
Inductive Res (A : Type) :=
| Ok (a : A)
| Err (e : error)
| Panic (msg : string).
Arguments Ok {A} a.
Arguments Err {A} e.
Arguments Panic {A} msg.

(** [os.FileInfo], the two methods the code calls. *)
Record FileInfo := {
  Name : string;
  IsDir : bool
}.

(** What [filepath.Walk] finds at an entry: a file, a directory with its
    entries in the order [readDirNames] returns them, a directory whose
    entries cannot be read, or an entry on which [os.Lstat] fails. *)
#[warnings="-register-all"]
Inductive Node :=
| File (name : string)
| Dir (name : string) (entries : list Node)
| DirUnreadable (name : string) (e : error)
| NoStat (name : string) (e : error).

Definition nodeName (n : Node) : string :=
  match n with
  | File name | Dir name _ | DirUnreadable name _ | NoStat name _ => name
  end.

Definition nodeIsDir (n : Node) : bool :=
  match n with
  | Dir _ _ | DirUnreadable _ _ => true
  | File _ | NoStat _ _ => false
  end.

(** What a [filepath.WalkFunc] does: it returns [nil] or an error and leaves
    the variables of its closure in a new state, or it panics. *)
Inductive Cb (St : Type) :=
| CbRet (st : St) (ret : option error)
| CbPanic (msg : string).
Arguments CbRet {St} st ret.
Arguments CbPanic {St} msg.

(** The panic of a method call on a nil [os.FileInfo]. *)
Definition nilDereference : string :=
  "runtime error: invalid memory address or nil pointer dereference".

Section Walk.

Context {St : Type}.
Variable walkFn : string -> option FileInfo -> option error -> St -> Cb St.

(** [filepath.walk]: the function is called on the entry itself; for a
    directory it is told the error of reading the entries, and the entries
    are visited only when there is none and the function returned [nil].
    For an entry on which [os.Lstat] fails the function is called with a
    nil [info].  [SkipDir] from a directory entry (or from an entry that
    cannot be examined) is swallowed by the loop over the entries; from a
    file it ends the loop. *)
Fixpoint walk (path : string) (n : Node) (st : St) : Cb St :=
  match n with
  | File name => walkFn path (Some {| Name := name; IsDir := false |}) None st
  | NoStat name e => walkFn path None (Some e) st
  | DirUnreadable name e =>
      walkFn path (Some {| Name := name; IsDir := true |}) (Some e) st
  | Dir name entries =>
      match walkFn path (Some {| Name := name; IsDir := true |}) None st with
      | CbPanic msg => CbPanic msg
      | CbRet st1 (Some err1) => CbRet st1 (Some err1)
      | CbRet st1 None =>
          (fix loop (entries : list Node) (st : St) : Cb St :=
             match entries with
             | [] => CbRet st None
             | c :: rest =>
                 match walk (filepath.Join [path; nodeName c]) c st with
                 | CbPanic msg => CbPanic msg
                 | CbRet st' None => loop rest st'
                 | CbRet st' (Some err) =>
                     match c with
                     | File _ => CbRet st' (Some err)
                     | _ =>
                         if decide (err = SkipDir) then loop rest st'
                         else CbRet st' (Some err)
                     end
                 end
             end) entries st1
      end
  end.

(** [filepath.Walk(root, fn)]: [SkipDir] from the root is not an error. *)
Definition Walk (root : string) (n : Node) (st : St) : Cb St :=
  match walk root n st with
  | CbRet st' (Some err) =>
      if decide (err = SkipDir) then CbRet st' None else CbRet st' (Some err)
  | r => r
  end.

End Walk.

(** The matcher of [github.com/sabhiram/go-gitignore]: the compiled
    patterns of the ignore file in order, each one a predicate on paths
    with its negation flag. *)
Record IgnorePattern := {
  Pattern : string -> bool;
  Negate : bool
}.

Definition GitIgnore := list IgnorePattern.

(** [GitIgnore.MatchesPath]: the last pattern that matches decides. *)
Definition MatchesPath (gi : GitIgnore) (f : string) : bool :=
  fold_left
    (fun matchesPath ip =>
       if Pattern ip f then negb (Negate ip) else matchesPath)
    gi false.

(** [os.Stat], as far as its error is looked at. *)
Inductive StatResult :=
| StatOk
| StatNotExist
| StatFailed (e : error).

(** What the package reads from its environment. *)
Record World := {
  development : bool;
  Stat : string -> StatResult;
  ReadFile : string -> error + string;
  CompileIgnoreFile : string -> error + GitIgnore;
  IsGitRepo : string -> bool;
  GitLsFiles : string -> error + string;
  GitLsOthers : string -> error + string;
  Tree : string -> Node;
  UnmarshalId : string -> option string
}.

(** [findPlandex], lines 438-450: the marker directory of [baseDir], or the
    empty string when [os.Stat] says that it does not exist. *)
Definition findPlandex (w : World) (baseDir : string) : string :=
  let dir :=
    if development w then filepath.Join [baseDir; ".plandex-dev"]
    else filepath.Join [baseDir; ".plandex"] in
  match Stat w dir with
  | StatNotExist => ""
  | _ => dir
  end.

(** [GetPlandexIgnore], lines 288-304. *)
Definition GetPlandexIgnore (w : World) (dir : string) : error + option GitIgnore :=
  let ignorePath := filepath.Join [dir; ".plandexignore"] in
  match Stat w ignorePath with
  | StatOk =>
      match CompileIgnoreFile w ignorePath with
      | inl err => inl (Errorf ("error reading .plandexignore file: " +:+ Error err))
      | inr ignored => inr (Some ignored)
      end
  | StatFailed err => inl (Errorf ("error checking for .plandexignore file: " +:+ Error err))
  | StatNotExist => inr None
  end.

(** The three maps of [GetPaths]. *)
Record PathSets := {
  paths : gmap string bool;
  ignoredPaths : gmap string bool;
  dirs : gmap string bool
}.

Definition noPaths : PathSets :=
  {| paths := ∅; ignoredPaths := ∅; dirs := ∅ |}.

(** [ignored != nil && ignored.MatchesPath(rel)]. *)
Definition isIgnored (ignored : option GitIgnore) (rel : string) : bool :=
  match ignored with
  | Some gi => MatchesPath gi rel
  | None => false
  end.

Definition relError : error := Errorf "error getting relative path".

(** The loop of the two listing producers, lines 170-185 and 206-221, run
    with [mu] held. *)
Fixpoint addListed (baseDir currentDir : string) (ignored : option GitIgnore)
    (files : list string) (s : PathSets) : error + PathSets :=
  match files with
  | [] => inr s
  | file :: rest =>
      let absFile := filepath.Join [baseDir; file] in
      match filepath.Rel currentDir absFile with
      | None => inl relError
      | Some relFile =>
          if isIgnored ignored relFile then
            addListed baseDir currentDir ignored rest
              {| paths := paths s;
                 ignoredPaths := <[relFile := true]> (ignoredPaths s);
                 dirs := dirs s |}
          else
            addListed baseDir currentDir ignored rest
              {| paths := <[relFile := true]> (paths s);
                 ignoredPaths := ignoredPaths s;
                 dirs := dirs s |}
      end
  end.

(** A listing producer, lines 155-188 and 192-224: [out] is what the git
    command printed, or its error. *)
Definition listProducer (what : string) (baseDir currentDir : string)
    (ignored : option GitIgnore) (out : error + string) (s : PathSets) : error + PathSets :=
  match out with
  | inl err => inl (Errorf (what +:+ Error err))
  | inr out =>
      addListed baseDir currentDir ignored
        (strings.SplitChar (ascii_of_nat 10) out) s
  end.

(** The function given to [filepath.Walk] in [GetPaths], lines 230-263. *)
Definition pathsWalkFn (currentDir : string) (ignored : option GitIgnore)
    (isGitRepo : bool) (path : string) (info : option FileInfo)
    (err : option error) (s : PathSets) : Cb PathSets :=
  match err with
  | Some err => CbRet s (Some err)
  | None =>
      match info with
      | None => CbPanic nilDereference
      | Some info =>
          if IsDir info then
            match filepath.Rel currentDir path with
            | None => CbRet s (Some relError)
            | Some relPath =>
                if isIgnored ignored relPath then
                  CbRet {| paths := paths s;
                           ignoredPaths := <[relPath := true]> (ignoredPaths s);
                           dirs := dirs s |} (Some SkipDir)
                else
                  CbRet {| paths := paths s;
                           ignoredPaths := ignoredPaths s;
                           dirs := <[relPath := true]> (dirs s) |} None
            end
          else if negb isGitRepo then
            match filepath.Rel currentDir path with
            | None => CbRet s (Some relError)
            | Some relPath =>
                if isIgnored ignored relPath then
                  CbRet {| paths := paths s;
                           ignoredPaths := <[relPath := true]> (ignoredPaths s);
                           dirs := dirs s |} None
                else
                  CbRet {| paths := <[relPath := true]> (paths s);
                           ignoredPaths := ignoredPaths s;
                           dirs := dirs s |} None
            end
          else CbRet s None
      end
  end.

(** The walk producer, lines 229-271. *)
Definition walkProducer (baseDir currentDir : string) (ignored : option GitIgnore)
    (isGitRepo : bool) (tree : Node) (s : PathSets) : Res PathSets :=
  match Walk (pathsWalkFn currentDir ignored isGitRepo) baseDir tree s with
  | CbPanic msg => Panic msg
  | CbRet _ (Some err) => Err (Errorf ("error walking directory: " +:+ Error err))
  | CbRet s' None => Ok s'
  end.

(** The producers of [GetPaths], lines 150-278.  The two listing producers
    exclude each other with [mu]; the walk writes [dirs], and writes [paths]
    only when it is the only producer.  Each key is set to [true], so the
    maps at the end do not depend on how the producers interleave; they are
    run here one after the other.  An error of any producer is the error of
    the call. *)
Definition producers (baseDir currentDir : string) (ignored : option GitIgnore)
    (isGitRepo : bool) (lsFiles lsOthers : error + string) (tree : Node) : Res PathSets :=
  let listed :=
    if isGitRepo then
      match listProducer "error getting files in git repo: "
              baseDir currentDir ignored lsFiles noPaths with
      | inl err => inl err
      | inr s =>
          listProducer "error getting untracked files in git repo: "
            baseDir currentDir ignored lsOthers s
      end
    else inr noPaths in
  match listed with
  | inl err => Err err
  | inr s => walkProducer baseDir currentDir ignored isGitRepo tree s
  end.

(** Lines 280-282: [for dir := range dirs { paths[dir] = true }]. *)
Definition mergeDirs (dirs paths : gmap string bool) : gmap string bool :=
  map_fold (fun dir _ acc => <[dir := true]> acc) paths dirs.

(** [GetPaths], lines 132-286. *)
Definition GetPaths (w : World) (baseDir currentDir : string)
    : Res (gmap string bool * option GitIgnore) :=
  match GetPlandexIgnore w currentDir with
  | inl err => Err err
  | inr ignored =>
      match producers baseDir currentDir ignored (IsGitRepo w baseDir)
              (GitLsFiles w baseDir) (GitLsOthers w baseDir) (Tree w baseDir) with
      | Ok s => Ok (mergeDirs (dirs s) (paths s), ignored)
      | Err err => Err err
      | Panic msg => Panic msg
      end
  end.

(** The loop of [GetParentProjectIdsWithPaths], lines 310-330.  [fuel]
    bounds the number of iterations; [None] means that it ran out. *)
Fixpoint parentLoop (w : World) (fuel : nat) (currentDir : string)
    (parentProjectIds : list (string * string))
    : option (Res (list (string * string))) :=
  match fuel with
  | O => None
  | S fuel =>
      if String.eqb currentDir "/" then Some (Ok parentProjectIds)
      else
        let plandexDir := findPlandex w currentDir in
        let projectSettingsPath := filepath.Join [plandexDir; "project.json"] in
        match Stat w projectSettingsPath with
        | StatOk =>
            match ReadFile w projectSettingsPath with
            | inl err =>
                Some (Err (Errorf ("error reading projectId file: " +:+ Error err)))
            | inr bytes =>
                match UnmarshalId w bytes with
                | None => Some (Panic "error unmarshalling project.json")
                | Some projectId =>
                    parentLoop w fuel (filepath.Dir currentDir)
                      (parentProjectIds ++ [(currentDir, projectId)])
                end
            end
        | _ => parentLoop w fuel (filepath.Dir currentDir) parentProjectIds
        end
  end.

(** [GetParentProjectIdsWithPaths], lines 306-333, for the working
    directory [Cwd].  Every iteration but the last shortens an absolute
    path, so its length bounds their number. *)
Definition GetParentProjectIdsWithPaths (w : World) (Cwd : string)
    : option (Res (list (string * string))) :=
  parentLoop w (S (String.length Cwd)) (filepath.Dir Cwd) [].

(** The variables of the closure in [GetChildProjectIdsWithPaths]: the
    pairs found, and how often the context has been asked whether it is
    done. *)
Record ChildSearch := {
  childProjectIds : list (string * string);
  polls : nat
}.

Definition contextTimeout : error := Errorf "context timeout".

(** The function given to [filepath.Walk] in
    [GetChildProjectIdsWithPaths], lines 338-385.  [ctxDone k] tells
    whether [ctx.Done()] is closed when it is asked for the [k]-th time. *)
Definition childWalkFn (w : World) (Cwd : string) (ctxDone : nat -> bool)
    (path : string) (info : option FileInfo) (err : option error)
    (st : ChildSearch) : Cb ChildSearch :=
  match err with
  | Some err =>
      if IsPermission err then
        match info with
        | None => CbPanic nilDereference
        | Some info =>
            if IsDir info then CbRet st (Some SkipDir) else CbRet st None
        end
      else CbRet st (Some err)
  | None =>
      match info with
      | None => CbPanic nilDereference
      | Some info =>
          if strings.HasPrefix (Name info) "." then
            if IsDir info then CbRet st (Some SkipDir) else CbRet st None
          else
            let st1 := {| childProjectIds := childProjectIds st;
                          polls := S (polls st) |} in
            if ctxDone (polls st) then CbRet st1 (Some contextTimeout)
            else if IsDir info && negb (String.eqb path Cwd) then
              let plandexDir := findPlandex w path in
              let projectSettingsPath := filepath.Join [plandexDir; "project.json"] in
              match Stat w projectSettingsPath with
              | StatOk =>
                  match ReadFile w projectSettingsPath with
                  | inl err =>
                      CbRet st1
                        (Some (Errorf ("error reading projectId file: " +:+ Error err)))
                  | inr bytes =>
                      match UnmarshalId w bytes with
                      | None => CbPanic "error unmarshalling project.json"
                      | Some projectId =>
                          CbRet {| childProjectIds :=
                                     childProjectIds st1 ++ [(path, projectId)];
                                   polls := polls st1 |} None
                      end
                  end
              | _ => CbRet st1 None
              end
            else CbRet st1 None
      end
  end.

(** [GetChildProjectIdsWithPaths], lines 335-396. *)
Definition GetChildProjectIdsWithPaths (w : World) (Cwd : string)
    (ctxDone : nat -> bool) : Res (list (string * string)) :=
  match Walk (childWalkFn w Cwd ctxDone) Cwd (Tree w Cwd)
          {| childProjectIds := []; polls := 0 |} with
  | CbPanic msg => Panic msg
  | CbRet st (Some err) =>
      if String.eqb (Error err) "context timeout" then Ok (childProjectIds st)
      else Err (Errorf ("error walking the path " +:+ Cwd +:+ ": " +:+ Error err))
  | CbRet st None => Ok (childProjectIds st)
  end.

(** The inner loop of [GetBaseDirForFilePaths], lines 419-427: the number
    of leading [..] elements and the directory reached by going up once
    for each. *)
Fixpoint climb (pathSplit : list string) (n : nat) (currentDir : string) : nat * string :=
  match pathSplit with
  | [] => (n, currentDir)
  | p :: rest =>
      if String.eqb p ".." then climb rest (S n) (filepath.Dir currentDir)
      else (n, currentDir)
  end.

(** The outer loop, lines 414-433. *)
Fixpoint baseDirLoop (ProjectRoot : string) (paths : list string)
    (dirsUp : nat) (baseDir : string) : string :=
  match paths with
  | [] => baseDir
  | path :: rest =>
      let '(n, currentDir) :=
        climb (strings.SplitChar filepath.Separator path) 0 ProjectRoot in
      if (dirsUp <? n)%nat then baseDirLoop ProjectRoot rest n currentDir
      else baseDirLoop ProjectRoot rest dirsUp baseDir
  end.

(** [GetBaseDirForFilePaths], lines 410-436, for the package variable
    [ProjectRoot]. *)
Definition GetBaseDirForFilePaths (ProjectRoot : string) (paths : list string) : string :=
  baseDirLoop ProjectRoot paths 0 ProjectRoot.

(** The package variables that [init] and [FindOrCreatePlandex] set. *)
Record Package := {
  Cwd : string;
  PlandexDir : string;
  ProjectRoot : string
}.

(** The end of [init], lines 66-69, for the working directory [cwd]. *)
Definition initPackage (w : World) (cwd : string) : Package :=
  let plandexDir := findPlandex w cwd in
  {| Cwd := cwd;
     PlandexDir := plandexDir;
     ProjectRoot := if negb (String.eqb plandexDir "") then cwd else "" |}.

(** [FindOrCreatePlandex], lines 72-95.  [Mkdir] is [os.Mkdir]: its error,
    or the world with the directory made.  The result is what the function
    returns, the world and the package variables after the call. *)
Definition FindOrCreatePlandex (Mkdir : World -> string -> error + World)
    (w : World) (pkg : Package)
    : (string * bool * option error) * World * Package :=
  let plandexDir := findPlandex w (Cwd pkg) in
  if negb (String.eqb plandexDir "") then
    ((plandexDir, false, None), w,
     {| Cwd := Cwd pkg; PlandexDir := plandexDir; ProjectRoot := Cwd pkg |})
  else
    let dir :=
      if development w then filepath.Join [Cwd pkg; ".plandex-dev"]
      else filepath.Join [Cwd pkg; ".plandex"] in
    match Mkdir w dir with
    | inl err =>
        (("", false, Some err), w,
         {| Cwd := Cwd pkg; PlandexDir := plandexDir; ProjectRoot := ProjectRoot pkg |})
    | inr w' =>
        ((dir, true, None), w',
         {| Cwd := Cwd pkg; PlandexDir := dir; ProjectRoot := Cwd pkg |})
    end.

(** [ProjectRootIsGitRepo], lines 97-103. *)
Definition ProjectRootIsGitRepo (w : World) (pkg : Package) : bool :=
  if String.eqb (ProjectRoot pkg) "" then false
  else IsGitRepo w (ProjectRoot pkg).

(** [GetProjectPaths], lines 124-130. *)
Definition GetProjectPaths (w : World) (pkg : Package) (baseDir : string)
    : Res (gmap string bool * option GitIgnore) :=
  if String.eqb (ProjectRoot pkg) "" then Err (Errorf "no project root found")
  else GetPaths w baseDir (ProjectRoot pkg).

(** [shared.Context], the field that [GetBaseDirForContexts] reads. *)
Record Context := {
  FilePath : string
}.

(** The loop of [GetBaseDirForContexts], lines 401-405. *)
Fixpoint contextPaths (contexts : list Context) (paths : list string) : list string :=
  match contexts with
  | [] => paths
  | context :: rest =>
      if negb (String.eqb (FilePath context) "")
      then contextPaths rest (List.app paths [FilePath context])
      else contextPaths rest paths
  end.

(** [GetBaseDirForContexts], lines 398-408. *)
Definition GetBaseDirForContexts (ProjectRoot : string) (contexts : list Context) : string :=
  GetBaseDirForFilePaths ProjectRoot (contextPaths contexts []).

(** Specification-side vocabulary. *)

(** The loop of [walk] over the entries of a directory, on its own. *)
Fixpoint walkEntries {St : Type}
    (walkFn : string -> option FileInfo -> option error -> St -> Cb St)
    (path : string) (entries : list Node) (st : St) : Cb St :=
  match entries with
  | [] => CbRet st None
  | c :: rest =>
      match walk walkFn (filepath.Join [path; nodeName c]) c st with
      | CbPanic msg => CbPanic msg
      | CbRet st' None => walkEntries walkFn path rest st'
      | CbRet st' (Some err) =>
          match c with
          | File _ => CbRet st' (Some err)
          | _ =>
              if decide (err = SkipDir) then walkEntries walkFn path rest st'
              else CbRet st' (Some err)
          end
      end
  end.

(** The number of [..] elements at the front of a split path. *)
Fixpoint countUps (pathSplit : list string) : nat :=
  match pathSplit with
  | [] => 0
  | p :: rest => if String.eqb p ".." then S (countUps rest) else 0
  end.

(** The number of consecutive leading [..] segments of a path. *)
Definition leadingUps (path : string) : nat :=
  countUps (strings.SplitChar filepath.Separator path).

(** The tree without what lies below its ignored directories. *)
Fixpoint prune (currentDir : string) (ignored : option GitIgnore)
    (path : string) (n : Node) : Node :=
  match n with
  | Dir name entries =>
      match filepath.Rel currentDir path with
      | Some relPath =>
          if isIgnored ignored relPath then Dir name []
          else Dir name
                 (List.map
                    (fun c => prune currentDir ignored
                                (filepath.Join [path; nodeName c]) c)
                    entries)
      | None => n
      end
  | _ => n
  end.

(** The tree without its files, the root apart. *)
Fixpoint dropFiles (n : Node) : Node :=
  match n with
  | Dir name entries =>
      Dir name
        ((fix keep (entries : list Node) : list Node :=
            match entries with
            | [] => []
            | File _ :: rest => keep rest
            | c :: rest => dropFiles c :: keep rest
            end) entries)
  | _ => n
  end.

(** The entries of a directory without the files among them. *)
Fixpoint dropFileEntries (entries : list Node) : list Node :=
  match entries with
  | [] => []
  | File _ :: rest => dropFileEntries rest
  | c :: rest => dropFiles c :: dropFileEntries rest
  end.

(** The relative paths of the entries that lie below an ignored directory
    of the tree; [inside] tells whether [n] itself lies below one. *)
Fixpoint underIgnored (currentDir : string) (gi : GitIgnore) (inside : bool)
    (path : string) (n : Node) : list string :=
  match n with
  | Dir _ entries =>
      let inside' :=
        inside ||
        match filepath.Rel currentDir path with
        | Some relPath => MatchesPath gi relPath
        | None => false
        end in
      flat_map
        (fun c =>
           let p := filepath.Join [path; nodeName c] in
           List.app
             (if inside' then
                match filepath.Rel currentDir p with
                | Some rel => [rel]
                | None => []
                end
              else [])
             (underIgnored currentDir gi inside' p c))
        entries
  | _ => []
  end.

(** No key of the map is ignored. *)
Definition unignored (ignored : option GitIgnore) (m : gmap string bool) : Prop :=
  forall k, is_Some (m !! k) -> isIgnored ignored k = false.

(** The claim that nothing below an ignored directory is among the paths
    [GetPaths] returns. *)
Definition ignoredDescendantsAbsent (w : World) (baseDir currentDir : string) : Prop :=
  forall gi ps ig c,
    GetPlandexIgnore w currentDir = inr (Some gi) ->
    GetPaths w baseDir currentDir = Ok (ps, ig) ->
    c ∈ underIgnored currentDir gi false baseDir (Tree w baseDir) ->
    ps !! c = None.

(** The world with another tree at every root. *)
Definition withTree (w : World) (tree : string -> Node) : World :=
  {| development := development w;
     Stat := Stat w;
     ReadFile := ReadFile w;
     CompileIgnoreFile := CompileIgnoreFile w;
     IsGitRepo := IsGitRepo w;
     GitLsFiles := GitLsFiles w;
     GitLsOthers := GitLsOthers w;
     Tree := tree;
     UnmarshalId := UnmarshalId w |}.

(** Whether a listing producer puts the relative path [k] into [paths]
    for one of the listed files. *)
Definition accepts (baseDir currentDir : string) (ignored : option GitIgnore)
    (files : list string) (k : string) : bool :=
  existsb
    (fun file =>
       match filepath.Rel currentDir (filepath.Join [baseDir; file]) with
       | Some relFile => String.eqb relFile k && negb (isIgnored ignored relFile)
       | None => false
       end)
    files.

(** The lines a git command printed. *)
Definition listed (out : error + string) : list string :=
  match out with
  | inl _ => []
  | inr out => strings.SplitChar (ascii_of_nat 10) out
  end.

(** Example data. *)

(** What go-gitignore compiles from a line without wildcards: the line
    matches every path that holds the elements of the line in a row. *)
Fixpoint startsWith (pat elems : list string) : bool :=
  match pat, elems with
  | [], _ => true
  | _ :: _, [] => false
  | p :: pat', e :: elems' => String.eqb p e && startsWith pat' elems'
  end.

Fixpoint containsRun (pat elems : list string) : bool :=
  startsWith pat elems ||
  match elems with
  | [] => false
  | _ :: elems' => containsRun pat elems'
  end.

Definition literalPattern (line : string) (negate : bool) : IgnorePattern :=
  {| Pattern := fun f => containsRun (filepath.segments line) (filepath.segments f);
     Negate := negate |}.

(** How the operating system reads a path of a process whose working
    directory is [wd]. *)
Definition resolve (wd path : string) : string :=
  if filepath.rooted path then filepath.Clean path else filepath.Join [wd; path].

(** A file system given by the absolute paths of its regular files with
    their contents; a path names a directory when a file lies below it. *)
Definition statIn (files : list (string * string)) (wd path : string) : StatResult :=
  let p := resolve wd path in
  if existsb (fun f => String.eqb (fst f) p || strings.HasPrefix (fst f) (p +:+ "/")) files
  then StatOk else StatNotExist.

Definition readIn (files : list (string * string)) (wd path : string) : error + string :=
  let p := resolve wd path in
  match List.find (fun f => String.eqb (fst f) p) files with
  | Some f => inr (snd f)
  | None => inl (PathError false ("open " +:+ path +:+ ": no such file or directory"))
  end.

(** The matcher of the ignore file [build], [!build/keep.txt]. *)
Definition gitIgnore : GitIgnore :=
  [literalPattern "build" false; literalPattern "build/keep.txt" true].

(** A git work tree [/p] with the ignore file [build] and
    [!build/keep.txt] (second line negated), the tracked files
    [build/keep.txt] and [main.go], and no untracked file. *)
Definition gitWorld : World :=
  {| development := false;
     Stat := statIn [("/p/.plandexignore", ""); ("/p/build/keep.txt", "");
                     ("/p/main.go", "")] "/p";
     ReadFile := readIn [] "/p";
     CompileIgnoreFile := fun _ => inr gitIgnore;
     IsGitRepo := fun _ => true;
     GitLsFiles := fun _ => inr ("build/keep.txt" +:+ strings.newline +:+
                                 "main.go" +:+ strings.newline);
     GitLsOthers := fun _ => inr "";
     Tree := fun _ => Dir "p" [Dir "build" [File "keep.txt"]; File "main.go"];
     UnmarshalId := fun _ => None |}.

(** The paths [GetPaths] returns for it. *)
Definition gitPaths : gmap string bool :=
  <["." := true]> (<["main.go" := true]> (<["build/keep.txt" := true]> ∅)).

(** The same directory without version control. *)
Definition plainWorld : World :=
  {| development := false;
     Stat := Stat gitWorld;
     ReadFile := ReadFile gitWorld;
     CompileIgnoreFile := CompileIgnoreFile gitWorld;
     IsGitRepo := fun _ => false;
     GitLsFiles := fun _ => inl (Errorf "exit status 128");
     GitLsOthers := fun _ => inl (Errorf "exit status 128");
     Tree := Tree gitWorld;
     UnmarshalId := fun _ => None |}.

(** A process in [/a/b]: no directory above it holds a marker directory,
    and [/a/b] holds a [project.json] of another tool, a JSON object
    without an [id], which unmarshals to the empty identifier. *)
Definition strayWorld : World :=
  {| development := false;
     Stat := statIn [("/a/b/project.json", "{}")] "/a/b";
     ReadFile := readIn [("/a/b/project.json", "{}")] "/a/b";
     CompileIgnoreFile := fun _ => inr [];
     IsGitRepo := fun _ => false;
     GitLsFiles := fun _ => inr "";
     GitLsOthers := fun _ => inr "";
     Tree := fun _ => Dir "b" [File "project.json"];
     UnmarshalId := fun bytes => if String.eqb bytes "{}" then Some "" else None |}.

Definition permissionDenied (op path : string) : error :=
  PathError true (op +:+ " " +:+ path +:+ ": permission denied").

(** A process in [/proj] whose directory [locked] can be listed but not
    searched (mode [r--]): [os.Lstat] fails on its entry [x]. *)
Definition lockedWorld : World :=
  {| development := false;
     Stat := fun _ => StatNotExist;
     ReadFile := fun path => inl (PathError false "no such file or directory");
     CompileIgnoreFile := fun _ => inr [];
     IsGitRepo := fun _ => false;
     GitLsFiles := fun _ => inr "";
     GitLsOthers := fun _ => inr "";
     Tree := fun _ =>
       Dir "proj"
         [Dir "locked" [NoStat "x" (permissionDenied "lstat" "/proj/locked/x")];
          Dir "open" []];
     UnmarshalId := fun _ => None |}.

(** The same with a directory [locked] that cannot even be listed. *)
Definition unreadableWorld : World :=
  {| development := false;
     Stat := fun path =>
       if String.eqb path "/proj/open/.plandex/project.json" then StatOk
       else if String.eqb path "/proj/open/.plandex" then StatOk
       else StatNotExist;
     ReadFile := fun path => inr "{}";
     CompileIgnoreFile := fun _ => inr [];
     IsGitRepo := fun _ => false;
     GitLsFiles := fun _ => inr "";
     GitLsOthers := fun _ => inr "";
     Tree := fun _ =>
       Dir "proj"
         [DirUnreadable "locked" (permissionDenied "open" "/proj/locked");
          Dir "open" []];
     UnmarshalId := fun _ => Some "id-open" |}.

(** More specification-side vocabulary. *)

(** The path of the marker directory that [findPlandex] tests. *)
Definition markerPath (w : World) (baseDir : string) : string :=
  if development w then filepath.Join [baseDir; ".plandex-dev"]
  else filepath.Join [baseDir; ".plandex"].

(** The settings file of the project in a directory: [project.json] in
    the marker directory. *)
Definition projectFile (w : World) (dir : string) : string :=
  filepath.Join [markerPath w dir; "project.json"].

(** The directory is a project with the identifier [id]: [os.Stat] does not
    report its marker directory missing, and the settings file in the
    marker directory exists, can be read and holds [id]. *)
Definition holdsProject (w : World) (dir id : string) : Prop :=
  Stat w (markerPath w dir) <> StatNotExist /\
  Stat w (projectFile w dir) = StatOk /\
  exists bytes,
    ReadFile w (projectFile w dir) = inr bytes /\ UnmarshalId w bytes = Some id.

(** [p] lies above [dir] and is not the root directory: it is reached from
    [dir] by taking the parent directory one or more times. *)
Definition properAncestor (dir p : string) : Prop :=
  exists k, p = Nat.iter (S k) filepath.Dir dir /\ p <> "/".




(** The tree holds an entry that cannot be examined: [os.Lstat] on it, or
    the reading of the directory, fails with an error other than the
    [SkipDir] value. *)
Fixpoint faulty (n : Node) : bool :=
  match n with
  | File _ => false
  | Dir _ entries => List.existsb faulty entries
  | DirUnreadable _ e | NoStat _ e => negb (bool_decide (e = SkipDir))
  end.

(** The walk has stopped with an error. *)
Definition aborted {St : Type} (r : Cb St) : Prop :=
  match r with
  | CbRet _ (Some err) => err <> SkipDir
  | _ => False
  end.

(** The entries [filepath.Walk] passes through in a tree whose root has
    the path [path]: every file and every readable directory with its path,
    marked [true] for a directory. *)
Fixpoint entriesOf (path : string) (n : Node) : list (string * bool) :=
  match n with
  | File _ => [(path, false)]
  | Dir _ entries =>
      (path, true) ::
      List.flat_map (fun c => entriesOf (filepath.Join [path; nodeName c]) c) entries
  | DirUnreadable _ _ | NoStat _ _ => []
  end.

(** The entries the walk of [GetPaths] reaches: those of the tree without
    what lies below its ignored directories. *)
Definition walked (currentDir : string) (ignored : option GitIgnore)
    (path : string) (n : Node) : list (string * bool) :=
  entriesOf path (prune currentDir ignored path n).

Definition walkedBelow (currentDir : string) (ignored : option GitIgnore)
    (path : string) (entries : list Node) : list (string * bool) :=
  List.flat_map
    (fun c => walked currentDir ignored (filepath.Join [path; nodeName c]) c)
    entries.

(** The maps hold the entry: a directory that is not ignored is a key of
    [dirs], and without version control a file that is not ignored is a key
    of [paths]. *)
Definition recorded (currentDir : string) (ignored : option GitIgnore)
    (isGitRepo : bool) (s : PathSets) (e : string * bool) : Prop :=
  forall k, filepath.Rel currentDir (fst e) = Some k ->
    isIgnored ignored k = false ->
    if snd e then dirs s !! k = Some true
    else isGitRepo = false -> paths s !! k = Some true.

(** Every key of [dirs] and [paths] in [s'] was there in [s0] or is the
    relative path of one of the entries [es] that is not ignored: of a
    directory for [dirs], and for [paths] of a file, without version
    control. *)
Definition fromEntries (currentDir : string) (ignored : option GitIgnore)
    (isGitRepo : bool) (es : list (string * bool)) (s0 s' : PathSets) : Prop :=
  (forall k, is_Some (dirs s' !! k) ->
     is_Some (dirs s0 !! k) \/
     exists p, (p, true) ∈ es /\ filepath.Rel currentDir p = Some k /\
               isIgnored ignored k = false)
  /\ (forall k, is_Some (paths s' !! k) ->
        is_Some (paths s0 !! k) \/
        (isGitRepo = false /\
         exists p, (p, false) ∈ es /\ filepath.Rel currentDir p = Some k /\
                   isIgnored ignored k = false)).

(** Every value of the map is [true]. *)
Definition allTrue (m : gmap string bool) : Prop :=
  forall k v, m !! k = Some v -> v = true.

(** Every pair found so far is a project other than the working directory,
    with its identifier. *)
Definition projectsFound (w : World) (Cwd : string) (st : ChildSearch) : Prop :=
  Forall (fun pr => fst pr <> Cwd /\ holdsProject w (fst pr) (snd pr))
    (childProjectIds st).

(** [os.Mkdir] for a file system given by its files, as [statIn] reads it:
    the directory is made, as a directory that holds an empty file, unless
    the path exists. *)
Definition mkdirIn (wd : string) (w : World) (dir : string) : error + World :=
  match Stat w dir with
  | StatNotExist =>
      inr {| development := development w;
             Stat := fun path =>
               if String.eqb (resolve wd path) (resolve wd dir) then StatOk
               else Stat w path;
             ReadFile := ReadFile w;
             CompileIgnoreFile := CompileIgnoreFile w;
             IsGitRepo := IsGitRepo w;
             GitLsFiles := GitLsFiles w;
             GitLsOthers := GitLsOthers w;
             Tree := Tree w;
             UnmarshalId := UnmarshalId w |}
  | _ => inl (PathError false ("mkdir " +:+ dir +:+ ": file exists"))
  end.

(** A process in [/home/u/work/app]: the parent [/home/u/work] and the
    subdirectory [api] are projects, [/home/u] and [/home] are not. *)
Definition lineageWorld : World :=
  {| development := false;
     Stat := statIn [("/home/u/work/.plandex/project.json", "work");
                     ("/home/u/work/app/api/.plandex/project.json", "api");
                     ("/home/u/work/app/main.go", "")] "/home/u/work/app";
     ReadFile := readIn [("/home/u/work/.plandex/project.json", "work");
                         ("/home/u/work/app/api/.plandex/project.json", "api")]
                   "/home/u/work/app";
     CompileIgnoreFile := fun _ => inr [];
     IsGitRepo := fun _ => false;
     GitLsFiles := fun _ => inr "";
     GitLsOthers := fun _ => inr "";
     Tree := fun _ =>
       Dir "app" [Dir ".git" [File "config"]; Dir "api" [Dir ".plandex" [File "project.json"]];
                  File "main.go"];
     UnmarshalId := fun bytes => Some ("id-" +:+ bytes) |}.

End Fs.

(** * Properties *)

(** ** Arithmetic on [int] *)

Section GoIntFacts.

Import GoInt.

Lemma wrap_is_int z : is_int (wrap z).
Proof.
  unfold is_int, wrap, min_int, max_int.
  pose proof (Z.mod_pos_bound (z + 2 ^ 63) (2 ^ 64)). lia.
Qed.

Lemma wrap_small z : is_int z -> wrap z = z.
Proof.
  unfold is_int, wrap, min_int, max_int. intros Hz.
  rewrite Z.mod_small; lia.
Qed.

Lemma wrap_wrap_add_l a b : wrap (wrap a + b) = wrap (a + b).
Proof.
  unfold wrap.
  replace ((a + 2 ^ 63) mod 2 ^ 64 - 2 ^ 63 + b + 2 ^ 63)
    with ((a + 2 ^ 63) mod 2 ^ 64 + b) by lia.
  rewrite Zplus_mod_idemp_l. do 2 f_equal. lia.
Qed.

Lemma wrap_wrap_sub_l a b : wrap (wrap a - b) = wrap (a - b).
Proof. apply (wrap_wrap_add_l a (- b)). Qed.

Lemma add_small x y : is_int (x + y) -> add x y = x + y.
Proof. apply wrap_small. Qed.

Lemma add_add_swap a n m : add (add a n) m = add (add a m) n.
Proof.
  unfold add. rewrite !wrap_wrap_add_l. f_equal. lia.
Qed.

End GoIntFacts.

(** ** Token accounting *)

Section Accounting.

Import GoInt ContextLoad.

Variable maxTokens : Z.

(** Each of the five critical sections adds the count and then checks the
    budget on the counters it has just written. *)
Lemma criticalSection_bump u t :
  criticalSection maxTokens u t = checkBudget maxTokens (bump u t).
Proof.
  unfold criticalSection, bump.
  destruct (kind u); reflexivity.
Qed.

Lemma checkBudget_cases t :
  (checkBudget maxTokens t = ExitBudget t /\ maxTokens < totalTokens t) \/
  (checkBudget maxTokens t = Released t /\ totalTokens t <= maxTokens).
Proof.
  unfold checkBudget, gt.
  destruct (Z.ltb_spec maxTokens (totalTokens t)); [left | right]; auto.
Qed.

Lemma tallyOf_checkBudget t : tallyOf (checkBudget maxTokens t) = t.
Proof. unfold checkBudget. destruct (gt _ _); reflexivity. Qed.

Lemma sumTokens_nonneg us :
  Forall (fun u => 0 <= numTokens u) us -> 0 <= sumTokens us.
Proof.
  induction 1 as [|u us Hu _ IH]; simpl; lia.
Qed.

Lemma fits_cons t u us :
  fits t (u :: us) ->
  0 <= numTokens u /\
  totalTokens (bump u t) = totalTokens t + numTokens u /\
  fits (bump u t) us.
Proof.
  intros (Hnn & Hlo & Hhi).
  apply Forall_cons in Hnn as [Hu Hus].
  pose proof (sumTokens_nonneg us Hus) as Hs.
  simpl in Hhi.
  assert (Ht : totalTokens (bump u t) = totalTokens t + numTokens u).
  { simpl. apply add_small. unfold is_int. lia. }
  repeat split; auto.
  all: rewrite Ht; lia.
Qed.

Lemma run_total t us :
  fits t us ->
  totalTokens (tallyOf (run maxTokens t us)) =
  totalTokens t + sumTokens (counted maxTokens t us).
Proof.
  revert t. induction us as [|u us IH]; intros t Hfits.
  - simpl. lia.
  - apply fits_cons in Hfits as (Hu & Ht & Hrest).
    simpl. rewrite criticalSection_bump.
    destruct (checkBudget_cases (bump u t)) as [[-> _] | [-> _]];
      cbn [tallyOf sumTokens].
    + lia.
    + rewrite (IH _ Hrest). lia.
Qed.

Lemma counted_prefix t us : exists rest, us = counted maxTokens t us ++ rest.
Proof.
  revert t. induction us as [|u us IH]; intros t.
  - exists []. reflexivity.
  - simpl. destruct (criticalSection maxTokens u t) as [t' | t'].
    + destruct (IH t') as [rest Hrest]. exists rest. simpl. congruence.
    + exists us. reflexivity.
Qed.

Lemma counted_released t us t' :
  run maxTokens t us = Released t' -> counted maxTokens t us = us.
Proof.
  revert t. induction us as [|u us IH]; intros t; simpl; [reflexivity |].
  destruct (criticalSection maxTokens u t) as [t1 | t1]; [| discriminate].
  intros H. f_equal. eauto.
Qed.

Lemma bump_swap u v t : bump u (bump v t) = bump v (bump u t).
Proof.
  unfold bump; simpl.
  f_equal; try apply add_add_swap.
  destruct (updatableKind (kind u)), (updatableKind (kind v));
    auto using add_add_swap.
Qed.

Lemma bumpAll_perm us us' : us ≡ₚ us' -> forall t, bumpAll us t = bumpAll us' t.
Proof.
  induction 1 as [| x l l' _ IH | x y l | l l' l'' _ IH1 _ IH2]; intros t; simpl.
  - reflexivity.
  - apply IH.
  - unfold bumpAll. simpl. rewrite bump_swap. reflexivity.
  - rewrite IH1. apply IH2.
Qed.

Lemma sumTokens_perm us us' : us ≡ₚ us' -> sumTokens us = sumTokens us'.
Proof.
  induction 1; simpl; lia.
Qed.

Lemma fits_perm t us us' : us ≡ₚ us' -> fits t us -> fits t us'.
Proof.
  intros Hp (Hnn & Hlo & Hhi). repeat split; auto.
  - rewrite <- Hp. exact Hnn.
  - rewrite <- (sumTokens_perm _ _ Hp). exact Hhi.
Qed.

(** With non-negative counts the totals grow along a schedule, so the
    schedule runs to its end exactly when the last total is within the
    budget. *)
Lemma run_released_iff t us :
  fits t us ->
  (run maxTokens t us = Released (bumpAll us t) /\
   (us = [] \/ totalTokens t + sumTokens us <= maxTokens)) \/
  ((exists t', run maxTokens t us = ExitBudget t') /\
   us <> [] /\ maxTokens < totalTokens t + sumTokens us).
Proof.
  revert t. induction us as [|u us IH]; intros t Hfits.
  - left. split; [reflexivity | left; reflexivity].
  - apply fits_cons in Hfits as (Hu & Ht & Hrest).
    pose proof Hrest as (Hnn & _ & _).
    pose proof (sumTokens_nonneg us Hnn) as Hs.
    simpl. rewrite criticalSection_bump.
    destruct (checkBudget_cases (bump u t)) as [[-> Hgt] | [-> Hle]].
    + right. split; [eauto |]. split; [discriminate | lia].
    + destruct (IH _ Hrest) as [[Hrun Hcase] | [Hrun [Hne Hgt]]].
      * left. split; [exact Hrun |]. right.
        destruct Hcase as [-> | Hle']; simpl; lia.
      * right. split; [exact Hrun |]. split; [discriminate | lia].
Qed.

Lemma run_perm_released t us us' t' :
  fits t us -> us ≡ₚ us' ->
  run maxTokens t us = Released t' -> run maxTokens t us' = Released t'.
Proof.
  intros Hfits Hp Hrun.
  destruct (run_released_iff t us Hfits) as [[Hrel Hcase] | [[t1 Hex] _]];
    [| congruence].
  assert (t' = bumpAll us t) as -> by congruence.
  destruct (run_released_iff t us' (fits_perm _ _ _ Hp Hfits))
    as [[Hrel' _] | [_ [Hne Hgt]]].
  - rewrite Hrel'. f_equal. symmetry. apply bumpAll_perm, Hp.
  - exfalso. rewrite <- (sumTokens_perm _ _ Hp) in Hgt.
    destruct Hcase as [-> | Hle]; [| lia].
    apply Permutation_nil_l in Hp. congruence.
Qed.

Lemma run_perm_exit t us us' t1 :
  fits t us -> us ≡ₚ us' ->
  run maxTokens t us = ExitBudget t1 -> exists t2, run maxTokens t us' = ExitBudget t2.
Proof.
  intros Hfits Hp Hrun.
  destruct (run_released_iff t us' (fits_perm _ _ _ Hp Hfits))
    as [[Hrel' _] | [Hex _]]; [| exact Hex].
  symmetry in Hp.
  pose proof (run_perm_released t us' us _ (fits_perm _ _ _ (symmetry Hp) Hfits) Hp Hrel').
  congruence.
Qed.

Lemma run_updatable t us :
  fits t us ->
  countersOrdered (totalTokens t) (totalUpdatableTokens t) ->
  totalUpdatableTokens (tallyOf (run maxTokens t us)) =
    totalUpdatableTokens t + sumUpdatable (counted maxTokens t us) /\
  totalTokens t <= totalTokens (tallyOf (run maxTokens t us)) /\
  totalUpdatableTokens t <= totalUpdatableTokens (tallyOf (run maxTokens t us)) /\
  countersOrdered (totalTokens (tallyOf (run maxTokens t us)))
    (totalUpdatableTokens (tallyOf (run maxTokens t us))).
Proof.
  revert t. induction us as [|u us IH]; intros t Hfits Hord.
  - simpl. unfold countersOrdered in *. lia.
  - pose proof Hfits as (_ & Hlo & Hhi).
    apply fits_cons in Hfits as (Hu & Ht & Hrest).
    pose proof Hrest as (Hnn & _ & Hhi').
    pose proof (sumTokens_nonneg us Hnn) as Hs.
    unfold countersOrdered in Hord.
    assert (Hup : totalUpdatableTokens (bump u t) =
                  totalUpdatableTokens t +
                  (if updatableKind (kind u) then numTokens u else 0)).
    { cbn [bump totalUpdatableTokens].
      destruct (updatableKind (kind u)); [| lia].
      apply add_small. unfold is_int, min_int. rewrite Ht in Hhi'. lia. }
    assert (Hord' : countersOrdered (totalTokens (bump u t))
                      (totalUpdatableTokens (bump u t))).
    { unfold countersOrdered. rewrite Hup, Ht.
      destruct (updatableKind (kind u)); lia. }
    assert (Hinc : 0 <= (if updatableKind (kind u) then numTokens u else 0)).
    { destruct (updatableKind (kind u)); lia. }
    cbn [run counted]. rewrite criticalSection_bump.
    destruct (checkBudget_cases (bump u t)) as [[-> _] | [-> _]];
      cbn [tallyOf sumUpdatable].
    + rewrite Hup, Ht. unfold countersOrdered in *. lia.
    + destruct (IH _ Hrest Hord') as (E1 & E2 & E3 & E4).
      rewrite Hup in E1, E3. rewrite Ht in E2.
      split; [rewrite E1; lia |]. split; [lia |]. split; [lia | exact E4].
Qed.

(** The two counters that every section increments together stay the same
    distance apart, in the arithmetic of [int]. *)
Lemma run_added init t us :
  wrap (totalTokens t - init) = tokensAdded t ->
  wrap (totalTokens (tallyOf (run maxTokens t us)) - init) =
  tokensAdded (tallyOf (run maxTokens t us)).
Proof.
  revert t. induction us as [|u us IH]; intros t Hinv; [exact Hinv |].
  assert (Hinv' : wrap (totalTokens (bump u t) - init) = tokensAdded (bump u t)).
  { cbn [bump totalTokens tokensAdded]. unfold add.
    rewrite wrap_wrap_sub_l, <- Hinv, wrap_wrap_add_l. f_equal. lia. }
  cbn [run]. rewrite criticalSection_bump.
  destruct (checkBudget_cases (bump u t)) as [[-> _] | [-> _]].
  - exact Hinv'.
  - apply IH, Hinv'.
Qed.

End Accounting.

Section IngestionClaims.

Import GoInt ContextLoad.

(** C1.  With [maxTokens = T], both counters of the plan state at 0 and a
    single unit of [T + 1] tokens, the call exits over budget and the
    counters at that moment hold [T + 1]: the count of the unit, added
    before the check and not taken back.  In general the critical section
    of a worker first adds its count and then exits the process exactly
    when the new total is greater than [maxTokens]. *)
Theorem abort_boundary (T : Z) (k : ContextType) :
  is_int (T + 1) ->
  MustLoadContext T {| ContextTokens := 0; ContextUpdatableTokens := 0 |}
    [{| kind := k; numTokens := T + 1 |}]
  = ExitedOverBudget
      {| totalTokens := T + 1;
         totalUpdatableTokens := if updatableKind k then T + 1 else 0;
         tokensAdded := T + 1 |}
  /\ forall (maxTokens : Z) (u : WorkUnit) (t : Tally),
       totalTokens (bump u t) = add (totalTokens t) (numTokens u) /\
       ((criticalSection maxTokens u t = ExitBudget (bump u t) /\
         maxTokens < totalTokens (bump u t)) \/
        (criticalSection maxTokens u t = Released (bump u t) /\
         totalTokens (bump u t) <= maxTokens)).
Proof.
  intros HT. split.
  - unfold MustLoadContext, initTally.
    cbn [run ContextTokens ContextUpdatableTokens].
    rewrite criticalSection_bump.
    assert (Hb : bump {| kind := k; numTokens := T + 1 |}
                   {| totalTokens := 0; totalUpdatableTokens := 0; tokensAdded := 0 |}
                 = {| totalTokens := T + 1;
                      totalUpdatableTokens := if updatableKind k then T + 1 else 0;
                      tokensAdded := T + 1 |}).
    { unfold bump. cbn [kind numTokens totalTokens totalUpdatableTokens tokensAdded].
      rewrite (add_small 0 (T + 1)) by exact HT.
      destruct (updatableKind k); reflexivity. }
    rewrite Hb.
    unfold checkBudget, gt. cbn [totalTokens].
    destruct (Z.ltb_spec T (T + 1)); [reflexivity | lia].
  - intros maxTokens u t. split; [reflexivity |].
    rewrite criticalSection_bump. apply checkBudget_cases.
Qed.

Lemma abort_boundary_witness :
  is_int (1000 + 1) /\
  MustLoadContext 1000 {| ContextTokens := 0; ContextUpdatableTokens := 0 |}
    [{| kind := ContextFileType; numTokens := 1000 + 1 |}]
  = ExitedOverBudget
      {| totalTokens := 1000 + 1;
         totalUpdatableTokens := 1000 + 1;
         tokensAdded := 1000 + 1 |}.
Proof.
  assert (H : is_int (1000 + 1)) by (unfold is_int, min_int, max_int; lia).
  split; [exact H |].
  exact (proj1 (abort_boundary 1000 ContextFileType H)).
Defined.

(** C2, as the code has it.  When the counts are non-negative and their
    sum with the initial total fits in [int], the running total at the end
    of a call is the [ContextTokens] read at the start plus the counts of
    the units counted, which are the units of the schedule up to and
    including the one that exits, if one does.  A call that runs to its end
    has counted every unit and ends with the same counters in every order
    of the workers, and a call that exits over budget in one order exits in
    every order. *)
Theorem total_is_initial_plus_counted (maxTokens : Z) (planState : PlanState)
    (schedule : list WorkUnit) :
  fits (initTally planState) schedule ->
  totalTokens (tallyOf (run maxTokens (initTally planState) schedule)) =
    ContextTokens planState +
    sumTokens (counted maxTokens (initTally planState) schedule)
  /\ (exists rest,
        schedule = counted maxTokens (initTally planState) schedule ++ rest)
  /\ (forall t, run maxTokens (initTally planState) schedule = Released t ->
        counted maxTokens (initTally planState) schedule = schedule /\
        forall schedule', schedule ≡ₚ schedule' ->
          run maxTokens (initTally planState) schedule' = Released t)
  /\ (forall t, run maxTokens (initTally planState) schedule = ExitBudget t ->
        forall schedule', schedule ≡ₚ schedule' ->
          exists t', run maxTokens (initTally planState) schedule' = ExitBudget t').
Proof.
  intros Hfits. split; [| split; [| split]].
  - apply (run_total maxTokens _ _ Hfits).
  - apply counted_prefix.
  - intros t Hrun. split.
    + eapply counted_released, Hrun.
    + intros schedule' Hp. eapply run_perm_released; eauto.
  - intros t Hrun schedule' Hp. eapply run_perm_exit; eauto.
Qed.

Lemma total_is_initial_plus_counted_witness :
  fits (initTally {| ContextTokens := 2; ContextUpdatableTokens := 0 |})
    [{| kind := ContextFileType; numTokens := 5 |};
     {| kind := ContextNoteType; numTokens := 6 |};
     {| kind := ContextURLType; numTokens := 1 |}] /\
  totalTokens (tallyOf (run 10 (initTally {| ContextTokens := 2; ContextUpdatableTokens := 0 |})
      [{| kind := ContextFileType; numTokens := 5 |};
       {| kind := ContextNoteType; numTokens := 6 |};
       {| kind := ContextURLType; numTokens := 1 |}]))
  = 2 + sumTokens
      [{| kind := ContextFileType; numTokens := 5 |};
       {| kind := ContextNoteType; numTokens := 6 |}].
Proof.
  assert (H : fits (initTally {| ContextTokens := 2; ContextUpdatableTokens := 0 |})
    [{| kind := ContextFileType; numTokens := 5 |};
     {| kind := ContextNoteType; numTokens := 6 |};
     {| kind := ContextURLType; numTokens := 1 |}]).
  { unfold fits, min_int, max_int. cbn.
    split; [repeat constructor; cbn; lia | lia]. }
  split; [exact H |].
  exact (proj1 (total_is_initial_plus_counted 10 _ _ H)).
Defined.

(** C2, as the claim words it, fails: with a budget of 10 and units of 5, 6
    and 1 tokens the call exits with a total of 11 when the workers take
    the lock in the order 5, 6 and with a total of 12 in the order 5, 1,
    6. *)
Lemma total_depends_on_order :
  fits (initTally {| ContextTokens := 0; ContextUpdatableTokens := 0 |})
    [{| kind := ContextFileType; numTokens := 5 |};
     {| kind := ContextFileType; numTokens := 6 |};
     {| kind := ContextFileType; numTokens := 1 |}]
  /\ ~ totalOrderIndependent 10
       (initTally {| ContextTokens := 0; ContextUpdatableTokens := 0 |})
       [{| kind := ContextFileType; numTokens := 5 |};
        {| kind := ContextFileType; numTokens := 6 |};
        {| kind := ContextFileType; numTokens := 1 |}].
Proof.
  split.
  - unfold fits, min_int, max_int. cbn.
    split; [repeat constructor; cbn; lia | lia].
  - intros H.
    specialize (H [{| kind := ContextFileType; numTokens := 5 |};
                   {| kind := ContextFileType; numTokens := 1 |};
                   {| kind := ContextFileType; numTokens := 6 |}]).
    assert (Hp : [{| kind := ContextFileType; numTokens := 5 |};
                  {| kind := ContextFileType; numTokens := 6 |};
                  {| kind := ContextFileType; numTokens := 1 |}]
                 ≡ₚ [{| kind := ContextFileType; numTokens := 5 |};
                     {| kind := ContextFileType; numTokens := 1 |};
                     {| kind := ContextFileType; numTokens := 6 |}]).
    { apply perm_skip, perm_swap. }
    specialize (H Hp). vm_compute in H. discriminate H.
Qed.

(** C3.  The critical section of a unit adds its count to
    [totalUpdatableTokens] when the unit is a file, a directory tree or a
    URL, and leaves that counter alone for a note or piped data.  When the
    counts are non-negative and fit in [int], neither counter decreases
    during a call, and [contextTokens >= contextUpdatableTokens >= 0], if
    it holds of the plan state at the start, holds of the counters at the
    end and of the plan state that a call which returns has written. *)
Theorem updatable_subtotal_invariant (maxTokens : Z) (planState : PlanState)
    (schedule : list WorkUnit) :
  countersOrdered (ContextTokens planState) (ContextUpdatableTokens planState) ->
  fits (initTally planState) schedule ->
  (forall (u : WorkUnit) (t : Tally),
     totalUpdatableTokens (tallyOf (criticalSection maxTokens u t)) =
     match kind u with
     | ContextFileType | ContextDirectoryTreeType | ContextURLType =>
         add (totalUpdatableTokens t) (numTokens u)
     | ContextNoteType | ContextPipedDataType => totalUpdatableTokens t
     end)
  /\ totalUpdatableTokens (tallyOf (run maxTokens (initTally planState) schedule)) =
       ContextUpdatableTokens planState +
       sumUpdatable (counted maxTokens (initTally planState) schedule)
  /\ ContextTokens planState <=
       totalTokens (tallyOf (run maxTokens (initTally planState) schedule))
  /\ ContextUpdatableTokens planState <=
       totalUpdatableTokens (tallyOf (run maxTokens (initTally planState) schedule))
  /\ countersOrdered
       (totalTokens (tallyOf (run maxTokens (initTally planState) schedule)))
       (totalUpdatableTokens (tallyOf (run maxTokens (initTally planState) schedule)))
  /\ (forall added total planState',
        MustLoadContext maxTokens planState schedule = Returned added total planState' ->
        countersOrdered (ContextTokens planState') (ContextUpdatableTokens planState')).
Proof.
  intros Hord Hfits.
  destruct (run_updatable maxTokens (initTally planState) schedule Hfits Hord)
    as (E1 & E2 & E3 & E4).
  split; [| split; [exact E1 | split; [exact E2 | split; [exact E3 | split; [exact E4 |]]]]].
  - intros u t. rewrite criticalSection_bump, tallyOf_checkBudget.
    unfold bump. cbn [totalUpdatableTokens]. destruct (kind u); reflexivity.
  - intros added total planState'. unfold MustLoadContext.
    destruct (run maxTokens (initTally planState) schedule) as [t | t];
      [| discriminate].
    destruct schedule; [discriminate |].
    intros [= _ _ <-]. exact E4.
Qed.

Lemma updatable_subtotal_invariant_witness :
  countersOrdered 7 3 /\
  fits (initTally {| ContextTokens := 7; ContextUpdatableTokens := 3 |})
    [{| kind := ContextNoteType; numTokens := 4 |};
     {| kind := ContextURLType; numTokens := 5 |}] /\
  totalUpdatableTokens (tallyOf (run 100
      (initTally {| ContextTokens := 7; ContextUpdatableTokens := 3 |})
      [{| kind := ContextNoteType; numTokens := 4 |};
       {| kind := ContextURLType; numTokens := 5 |}]))
  = 3 + sumUpdatable (counted 100
      (initTally {| ContextTokens := 7; ContextUpdatableTokens := 3 |})
      [{| kind := ContextNoteType; numTokens := 4 |};
       {| kind := ContextURLType; numTokens := 5 |}]).
Proof.
  assert (H1 : countersOrdered 7 3) by (unfold countersOrdered; lia).
  assert (H2 : fits (initTally {| ContextTokens := 7; ContextUpdatableTokens := 3 |})
    [{| kind := ContextNoteType; numTokens := 4 |};
     {| kind := ContextURLType; numTokens := 5 |}]).
  { unfold fits, min_int, max_int. cbn.
    split; [repeat constructor; cbn; lia | lia]. }
  split; [exact H1 |]. split; [exact H2 |].
  exact (proj1 (proj2 (updatable_subtotal_invariant 100
    {| ContextTokens := 7; ContextUpdatableTokens := 3 |} _ H1 H2))).
Defined.

(** C10.  When the call returns, the [tokensAdded] it returns is the
    [totalTokens] it returns minus the [ContextTokens] read at the start,
    in the arithmetic of [int]; and as integers when the initial total is
    not negative and the counts are non-negative and fit in [int]. *)
Theorem added_is_total_minus_initial (maxTokens : Z) (planState : PlanState)
    (schedule : list WorkUnit) (added total : Z) (planState' : PlanState) :
  MustLoadContext maxTokens planState schedule = Returned added total planState' ->
  added = sub total (ContextTokens planState)
  /\ (0 <= ContextTokens planState ->
      fits (initTally planState) schedule ->
      added = total - ContextTokens planState).
Proof.
  unfold MustLoadContext.
  pose proof (run_added maxTokens (ContextTokens planState)
                (initTally planState) schedule) as Hinv.
  destruct (run maxTokens (initTally planState) schedule) as [t | t] eqn:Hrun;
    [| discriminate].
  destruct schedule as [|u us] eqn:Hs; [discriminate |].
  rewrite <- Hs in *. intros [= <- <- _].
  cbn [tallyOf] in Hinv.
  assert (Hsub : tokensAdded t = sub (totalTokens t) (ContextTokens planState)).
  { symmetry. apply Hinv. cbn [initTally totalTokens tokensAdded].
    replace (ContextTokens planState - ContextTokens planState) with 0 by lia.
    reflexivity. }
  split; [exact Hsub |].
  intros Hinit Hfits. rewrite Hsub.
  pose proof (run_total maxTokens _ _ Hfits) as Htot.
  rewrite Hrun in Htot. cbn [tallyOf initTally totalTokens] in Htot.
  pose proof Hfits as (Hnn & _ & Hhi).
  pose proof (counted_prefix maxTokens (initTally planState) schedule) as [rest Hrest].
  rewrite (counted_released _ _ _ _ Hrun) in Htot.
  pose proof (sumTokens_nonneg _ Hnn) as Hsum.
  cbn [initTally totalTokens] in Hhi.
  unfold sub. apply wrap_small. unfold is_int, min_int. lia.
Qed.

Lemma added_is_total_minus_initial_witness :
  MustLoadContext 100 {| ContextTokens := 5; ContextUpdatableTokens := 0 |}
    [{| kind := ContextFileType; numTokens := 10 |};
     {| kind := ContextNoteType; numTokens := 5 |}]
  = Returned 15 20 {| ContextTokens := 20; ContextUpdatableTokens := 10 |} /\
  15 = sub 20 5.
Proof.
  assert (H : MustLoadContext 100 {| ContextTokens := 5; ContextUpdatableTokens := 0 |}
    [{| kind := ContextFileType; numTokens := 10 |};
     {| kind := ContextNoteType; numTokens := 5 |}]
    = Returned 15 20 {| ContextTokens := 20; ContextUpdatableTokens := 10 |})
    by reflexivity.
  split; [exact H |].
  exact (proj1 (added_is_total_minus_initial 100 _ _ 15 20 _ H)).
Defined.

(** C4.  The directory tree worker computes the display names [cwd] for
    [.] and [parent] for [..] in its local variable [name], but the part it
    appends takes its name from the input path: for the inputs [.] and [..]
    the part is named [.] and [..].  Its body is the flattened path list
    joined with line feeds. *)
Theorem tree_part_named_after_input (sha256hex : string -> string)
    (flattenedPaths : list string) (n : Z) (ts : string) :
  (forall inputFilePath : string,
     Name (treeContextPart sha256hex inputFilePath flattenedPaths n ts) = inputFilePath /\
     Type_ (treeContextPart sha256hex inputFilePath flattenedPaths n ts)
       = ContextDirectoryTreeType /\
     Body (treeContextPart sha256hex inputFilePath flattenedPaths n ts)
       = strings.Join flattenedPaths strings.newline)
  /\ treeDisplayName "." = "cwd"%string
  /\ Name (treeContextPart sha256hex "." flattenedPaths n ts) = "."%string
  /\ treeDisplayName ".." = "parent"%string
  /\ Name (treeContextPart sha256hex ".." flattenedPaths n ts) = ".."%string.
Proof.
  repeat split; reflexivity.
Qed.

End IngestionClaims.

(** ** Walking a tree *)

Section WalkFacts.

Import Fs.

(** Induction on a tree, with the hypothesis for every entry of a
    directory. *)
Lemma Node_forall_ind (P : Node -> Prop) :
  (forall name, P (File name)) ->
  (forall name entries, Forall P entries -> P (Dir name entries)) ->
  (forall name e, P (DirUnreadable name e)) ->
  (forall name e, P (NoStat name e)) ->
  forall n, P n.
Proof.
  intros HF HD HU HN.
  fix IH 1. intros [name | name entries | name e | name e].
  - apply HF.
  - apply HD. induction entries as [|c rest IHrest]; constructor.
    + apply IH.
    + exact IHrest.
  - apply HU.
  - apply HN.
Qed.

Context {St : Type}.
Variable walkFn : string -> option FileInfo -> option error -> St -> Cb St.

Lemma walk_Dir path name entries st :
  walk walkFn path (Dir name entries) st =
  match walkFn path (Some {| Name := name; IsDir := true |}) None st with
  | CbPanic msg => CbPanic msg
  | CbRet st1 (Some err1) => CbRet st1 (Some err1)
  | CbRet st1 None => walkEntries walkFn path entries st1
  end.
Proof.
  cbn [walk].
  destruct (walkFn path _ None st) as [st1 [err1|] | msg]; try reflexivity.
  revert st1. induction entries as [|c rest IH]; intros st1; [reflexivity |].
  cbn [walkEntries].
  destruct (walk walkFn _ c st1) as [st' [err|] | msg]; try reflexivity.
  - destruct c; try reflexivity; destruct (decide (err = SkipDir)); auto.
  - apply IH.
Qed.

(** A property of the closure variables that every call of the function
    keeps is kept by the walk. *)
Lemma walk_preserves (I : St -> Prop) :
  (forall path info err st st' ret,
     I st -> walkFn path info err st = CbRet st' ret -> I st') ->
  forall n path st st' ret,
    I st -> walk walkFn path n st = CbRet st' ret -> I st'.
Proof.
  intros Hfn. induction n as [name | name entries IHes | name e | name e]
    using Node_forall_ind; intros path st st' ret Hst.
  - cbn [walk]. apply Hfn, Hst.
  - rewrite walk_Dir.
    destruct (walkFn path _ None st) as [st1 [err1|] | msg] eqn:Hcall;
      try discriminate.
    + intros [= <- <-]. eapply Hfn; eauto.
    + assert (Hst1 : I st1) by (eapply Hfn; eauto).
      clear Hcall Hst. revert st1 Hst1.
      induction IHes as [|c rest Hc _ IHrest]; intros st1 Hst1; cbn [walkEntries].
      * intros [= <- <-]. exact Hst1.
      * destruct (walk walkFn _ c st1) as [st2 [err|] | msg] eqn:Hw;
          try discriminate.
        -- assert (Hst2 : I st2) by (eapply Hc; eauto).
           destruct c; try (intros [= <- <-]; exact Hst2);
             destruct (decide (err = SkipDir));
             try (intros [= <- <-]; exact Hst2); apply IHrest, Hst2.
        -- apply IHrest. eapply Hc; eauto.
  - cbn [walk]. apply Hfn, Hst.
  - cbn [walk]. apply Hfn, Hst.
Qed.

Lemma Walk_preserves (I : St -> Prop) :
  (forall path info err st st' ret,
     I st -> walkFn path info err st = CbRet st' ret -> I st') ->
  forall n root st st' ret,
    I st -> Walk walkFn root n st = CbRet st' ret -> I st'.
Proof.
  intros Hfn n root st st' ret Hst. unfold Walk.
  destruct (walk walkFn root n st) as [st1 [err|] | msg] eqn:Hw; try discriminate.
  - destruct (decide (err = SkipDir)); intros [= <- <-];
      eapply walk_preserves; eauto.
  - intros [= <- <-]. eapply walk_preserves; eauto.
Qed.

End WalkFacts.

(** ** Path enumeration *)

Section PathFacts.

Import Fs.

Variables (baseDir currentDir : string) (ignored : option GitIgnore).

Lemma unignored_empty : unignored ignored ∅.
Proof. intros k [v Hv]. rewrite lookup_empty in Hv. discriminate. Qed.

Lemma unignored_insert k m :
  isIgnored ignored k = false -> unignored ignored m -> unignored ignored (<[k := true]> m).
Proof.
  intros Hk Hm j Hj. destruct (decide (k = j)) as [<- | Hne]; [exact Hk |].
  apply Hm. rewrite lookup_insert_ne in Hj; auto.
Qed.

Lemma mergeDirs_lookup (d p : gmap string bool) k :
  mergeDirs d p !! k =
  match d !! k with Some _ => Some true | None => p !! k end.
Proof.
  unfold mergeDirs. revert k.
  apply (map_fold_weak_ind
           (fun r (m : gmap string bool) =>
              forall k, r !! k = match m !! k with Some _ => Some true | None => p !! k end)).
  - intros k. rewrite lookup_empty. reflexivity.
  - intros i x m r Hi IH k. destruct (decide (i = k)) as [<- | Hne].
    + rewrite !lookup_insert_eq. reflexivity.
    + rewrite !lookup_insert_ne by exact Hne. apply IH.
Qed.

(** The listing producers. *)

Lemma addListed_spec files : forall s s',
  addListed baseDir currentDir ignored files s = inr s' ->
  dirs s' = dirs s /\
  (unignored ignored (paths s) -> unignored ignored (paths s')) /\
  (forall k, is_Some (paths s' !! k) ->
     is_Some (paths s !! k) \/
     exists file, file ∈ files /\
       filepath.Rel currentDir (filepath.Join [baseDir; file]) = Some k).
Proof.
  induction files as [|file rest IH]; intros s s'; cbn [addListed].
  - intros [= <-]. auto.
  - destruct (filepath.Rel currentDir (filepath.Join [baseDir; file]))
      as [relFile|] eqn:Hrel; [| discriminate].
    destruct (isIgnored ignored relFile) eqn:Hig; intros Hrun;
      apply IH in Hrun as (Hd & Hu & Hk); cbn [paths dirs] in *.
    + split; [exact Hd |]. split; [exact Hu |].
      intros k Hin. destruct (Hk k Hin) as [? | (f & Hf & Hr)]; [left; auto |].
      right. exists f. split; [right; exact Hf | exact Hr].
    + split; [exact Hd |]. split.
      * intros Hs. apply Hu, unignored_insert; auto.
      * intros k Hin. destruct (Hk k Hin) as [Hold | (f & Hf & Hr)].
        -- destruct (decide (relFile = k)) as [<- | Hne].
           ++ right. exists file. split; [left | exact Hrel].
           ++ left. rewrite lookup_insert_ne in Hold; auto.
        -- right. exists f. split; [right; exact Hf | exact Hr].
Qed.

Lemma listProducer_spec what out s s' :
  listProducer what baseDir currentDir ignored out s = inr s' ->
  dirs s' = dirs s /\
  (unignored ignored (paths s) -> unignored ignored (paths s')) /\
  (forall k, is_Some (paths s' !! k) ->
     is_Some (paths s !! k) \/
     exists file, file ∈ listed out /\
       filepath.Rel currentDir (filepath.Join [baseDir; file]) = Some k).
Proof.
  unfold listProducer, listed. destruct out as [err | out]; [discriminate |].
  apply addListed_spec.
Qed.

Lemma addListed_lookup files : forall s s',
  addListed baseDir currentDir ignored files s = inr s' ->
  forall k, paths s' !! k =
    if accepts baseDir currentDir ignored files k then Some true else paths s !! k.
Proof.
  induction files as [|file rest IH]; intros s s'; cbn [addListed accepts existsb].
  - intros [= <-] k. reflexivity.
  - destruct (filepath.Rel currentDir (filepath.Join [baseDir; file]))
      as [relFile|] eqn:Hrel; [| discriminate].
    destruct (isIgnored ignored relFile) eqn:Hig; intros Hrun k;
      rewrite (IH _ _ Hrun k); cbn [paths negb];
      fold (accepts baseDir currentDir ignored rest k).
    + rewrite andb_false_r. reflexivity.
    + rewrite andb_true_r.
      destruct (accepts baseDir currentDir ignored rest k);
        [rewrite orb_true_r; reflexivity | rewrite orb_false_r].
      destruct (String.eqb_spec relFile k) as [-> | Hne].
      * apply lookup_insert_eq.
      * apply lookup_insert_ne, Hne.
Qed.

(** X12.  The two listing producers may take the lock [mu] in either
    order: the maps [paths] and [dirs] they leave are the same. *)
Lemma listing_order_irrelevant what1 what2 out1 out2 s0 s1 s2 t1 t2 :
  listProducer what1 baseDir currentDir ignored out1 s0 = inr s1 ->
  listProducer what2 baseDir currentDir ignored out2 s1 = inr s2 ->
  listProducer what2 baseDir currentDir ignored out2 s0 = inr t1 ->
  listProducer what1 baseDir currentDir ignored out1 t1 = inr t2 ->
  paths s2 = paths t2 /\ dirs s2 = dirs t2.
Proof.
  intros H1 H2 K2 K1.
  pose proof (listProducer_spec _ _ _ _ H1) as (D1 & _).
  pose proof (listProducer_spec _ _ _ _ H2) as (D2 & _).
  pose proof (listProducer_spec _ _ _ _ K2) as (E2 & _).
  pose proof (listProducer_spec _ _ _ _ K1) as (E1 & _).
  split; [| congruence].
  unfold listProducer in *.
  destruct out1 as [e1 | out1]; [discriminate |].
  destruct out2 as [e2 | out2]; [discriminate |].
  apply map_eq. intros k.
  rewrite (addListed_lookup _ _ _ H2 k), (addListed_lookup _ _ _ H1 k).
  rewrite (addListed_lookup _ _ _ K1 k), (addListed_lookup _ _ _ K2 k).
  destruct (accepts _ _ _ _ k), (accepts _ _ _ _ k); reflexivity.
Qed.

(** The function of the walk. *)

Lemma pathsWalkFn_unignored isGitRepo path info err s s' ret :
  unignored ignored (paths s) /\ unignored ignored (dirs s) ->
  pathsWalkFn currentDir ignored isGitRepo path info err s = CbRet s' ret ->
  unignored ignored (paths s') /\ unignored ignored (dirs s').
Proof.
  intros [Hp Hd]. unfold pathsWalkFn.
  destruct err as [err|]; [intros [= <- <-]; auto |].
  destruct info as [info|]; [| discriminate].
  destruct (IsDir info).
  - destruct (filepath.Rel currentDir path) as [rel|]; [| intros [= <- <-]; auto].
    destruct (isIgnored ignored rel) eqn:Hig; intros [= <- <-]; cbn [paths dirs];
      auto using unignored_insert.
  - destruct (negb isGitRepo); [| intros [= <- <-]; auto].
    destruct (filepath.Rel currentDir path) as [rel|]; [| intros [= <- <-]; auto].
    destruct (isIgnored ignored rel) eqn:Hig; intros [= <- <-]; cbn [paths dirs];
      auto using unignored_insert.
Qed.

(** Under version control the function never writes [paths]. *)
Lemma pathsWalkFn_git_paths path info err s s' ret :
  pathsWalkFn currentDir ignored true path info err s = CbRet s' ret ->
  paths s' = paths s.
Proof.
  unfold pathsWalkFn.
  destruct err as [err|]; [intros [= <- <-]; auto |].
  destruct info as [info|]; [| discriminate].
  destruct (IsDir info); cbn [negb]; [| intros [= <- <-]; auto].
  destruct (filepath.Rel currentDir path) as [rel|]; [| intros [= <- <-]; auto].
  destruct (isIgnored ignored rel); intros [= <- <-]; reflexivity.
Qed.

(** On a file it does nothing under version control, and without version
    control it records the relative path when that is not ignored. *)
Lemma pathsWalkFn_file isGitRepo path name s :
  pathsWalkFn currentDir ignored isGitRepo path
    (Some {| Name := name; IsDir := false |}) None s =
  if isGitRepo then CbRet s None
  else match filepath.Rel currentDir path with
       | None => CbRet s (Some relError)
       | Some relPath =>
           if isIgnored ignored relPath then
             CbRet {| paths := paths s;
                      ignoredPaths := <[relPath := true]> (ignoredPaths s);
                      dirs := dirs s |} None
           else
             CbRet {| paths := <[relPath := true]> (paths s);
                      ignoredPaths := ignoredPaths s;
                      dirs := dirs s |} None
       end.
Proof. destruct isGitRepo; reflexivity. Qed.

Lemma walkProducer_unignored isGitRepo tree s s' :
  unignored ignored (paths s) -> unignored ignored (dirs s) ->
  walkProducer baseDir currentDir ignored isGitRepo tree s = Ok s' ->
  unignored ignored (paths s') /\ unignored ignored (dirs s').
Proof.
  intros Hp Hd. unfold walkProducer.
  destruct (Walk _ baseDir tree s) as [s1 [err|] | msg] eqn:Hw; try discriminate.
  intros [= <-].
  apply (Walk_preserves (pathsWalkFn currentDir ignored isGitRepo)
           (fun s => unignored ignored (paths s) /\ unignored ignored (dirs s))
           (fun path info err s s' ret H E =>
              pathsWalkFn_unignored isGitRepo path info err s s' ret H E)
           tree baseDir s s1 None (conj Hp Hd) Hw).
Qed.

Lemma walkProducer_git_paths tree s s' :
  walkProducer baseDir currentDir ignored true tree s = Ok s' ->
  paths s' = paths s.
Proof.
  unfold walkProducer.
  destruct (Walk _ baseDir tree s) as [s1 [err|] | msg] eqn:Hw; try discriminate.
  intros [= <-].
  apply (Walk_preserves (pathsWalkFn currentDir ignored true)
           (fun s1 => paths s1 = paths s)
           (fun path info err s0 s0' ret H E =>
              eq_trans (pathsWalkFn_git_paths path info err s0 s0' ret E) H)
           tree baseDir s s1 None eq_refl Hw).
Qed.

(** The walk does not look below an ignored directory. *)

Lemma nodeName_prune path c :
  nodeName (prune currentDir ignored path c) = nodeName c.
Proof.
  destruct c; try reflexivity. cbn [prune].
  destruct (filepath.Rel currentDir path) as [rel|]; [| reflexivity].
  destruct (isIgnored ignored rel); reflexivity.
Qed.

Lemma prune_class {A} path c (a b : A) :
  match prune currentDir ignored path c with File _ => a | _ => b end =
  match c with File _ => a | _ => b end.
Proof.
  destruct c; try reflexivity. cbn [prune].
  destruct (filepath.Rel currentDir path) as [rel|]; [| reflexivity].
  destruct (isIgnored ignored rel); reflexivity.
Qed.

Lemma walk_prune isGitRepo n : forall path s,
  walk (pathsWalkFn currentDir ignored isGitRepo) path
    (prune currentDir ignored path n) s =
  walk (pathsWalkFn currentDir ignored isGitRepo) path n s.
Proof.
  induction n as [name | name entries IHes | name e | name e]
    using Node_forall_ind; intros path s; try reflexivity.
  cbn [prune].
  destruct (filepath.Rel currentDir path) as [rel|] eqn:Hrel; [| reflexivity].
  destruct (isIgnored ignored rel) eqn:Hig.
  - rewrite !walk_Dir. unfold pathsWalkFn. cbn [IsDir]. rewrite Hrel, Hig.
    reflexivity.
  - rewrite !walk_Dir.
    destruct (pathsWalkFn currentDir ignored isGitRepo path _ None s)
      as [s1 [err1|] | msg]; try reflexivity.
    clear s. revert s1.
    induction IHes as [|c rest Hc _ IHrest]; intros s1; [reflexivity |].
    cbn [List.map walkEntries]. rewrite nodeName_prune, Hc.
    destruct (walk _ _ c s1) as [s2 [err|] | msg]; try reflexivity.
    + rewrite prune_class.
      destruct c; try reflexivity;
        (destruct (decide (err = SkipDir)); [apply IHrest | reflexivity]).
    + apply IHrest.
Qed.

Lemma walkProducer_prune isGitRepo tree s :
  walkProducer baseDir currentDir ignored isGitRepo
    (prune currentDir ignored baseDir tree) s =
  walkProducer baseDir currentDir ignored isGitRepo tree s.
Proof. unfold walkProducer, Walk. rewrite walk_prune. reflexivity. Qed.

(** Under version control the walk does not look at files. *)

Lemma dropFiles_Dir name entries :
  dropFiles (Dir name entries) = Dir name (dropFileEntries entries).
Proof.
  reflexivity.
Qed.

Lemma nodeName_dropFiles c : nodeName (dropFiles c) = nodeName c.
Proof. destruct c; reflexivity. Qed.

Lemma walk_dropFiles n : forall path s,
  walk (pathsWalkFn currentDir ignored true) path (dropFiles n) s =
  walk (pathsWalkFn currentDir ignored true) path n s.
Proof.
  induction n as [name | name entries IHes | name e | name e]
    using Node_forall_ind; intros path s; try reflexivity.
  rewrite dropFiles_Dir, !walk_Dir.
  destruct (pathsWalkFn currentDir ignored true path _ None s)
    as [s1 [err1|] | msg]; try reflexivity.
  clear s. revert s1.
  induction IHes as [|c rest Hc _ IHrest]; intros s1; [reflexivity |].
  destruct c as [fname | dname des | uname ue | sname se].
  - cbn [dropFileEntries walkEntries walk]. rewrite pathsWalkFn_file.
    apply IHrest.
  - cbn [dropFileEntries walkEntries].
    rewrite nodeName_dropFiles, Hc. rewrite dropFiles_Dir.
    destruct (walk _ _ (Dir dname des) s1) as [s2 [err|] | msg]; try reflexivity.
    + destruct (decide (err = SkipDir)); [apply IHrest | reflexivity].
    + apply IHrest.
  - cbn [dropFileEntries walkEntries dropFiles nodeName].
    destruct (walk _ _ (DirUnreadable uname ue) s1) as [s2 [err|] | msg];
      try reflexivity.
    + destruct (decide (err = SkipDir)); [apply IHrest | reflexivity].
    + apply IHrest.
  - cbn [dropFileEntries walkEntries dropFiles nodeName].
    destruct (walk _ _ (NoStat sname se) s1) as [s2 [err|] | msg];
      try reflexivity.
    + destruct (decide (err = SkipDir)); [apply IHrest | reflexivity].
    + apply IHrest.
Qed.

Lemma walkProducer_dropFiles tree s :
  walkProducer baseDir currentDir ignored true (dropFiles tree) s =
  walkProducer baseDir currentDir ignored true tree s.
Proof. unfold walkProducer, Walk. rewrite walk_dropFiles. reflexivity. Qed.

End PathFacts.

(** ** What the walk records *)

Section WalkRecords.

Import Fs.

Variables (currentDir : string) (ignored : option GitIgnore) (isGitRepo : bool).

Lemma walkEntries_preserves {St : Type}
    (walkFn : string -> option FileInfo -> option error -> St -> Cb St)
    (I : St -> Prop) :
  (forall path info err st st' ret,
     I st -> walkFn path info err st = CbRet st' ret -> I st') ->
  forall entries path st st' ret,
    I st -> walkEntries walkFn path entries st = CbRet st' ret -> I st'.
Proof.
  intros Hfn. induction entries as [|c rest IH]; intros path st st' ret Hst;
    cbn [walkEntries].
  - intros [= <- <-]. exact Hst.
  - destruct (walk walkFn _ c st) as [st2 [err|] | m] eqn:Hw; try discriminate.
    + assert (Hst2 : I st2) by (eapply (walk_preserves walkFn I Hfn); eauto).
      destruct c; try (intros [= <- <-]; exact Hst2);
        (destruct (decide (err = SkipDir));
           [apply IH, Hst2 | intros [= <- <-]; exact Hst2]).
    + apply IH. eapply (walk_preserves walkFn I Hfn); eauto.
Qed.

Lemma pathsWalkFn_file_no_skip path name s s' err :
  walk (pathsWalkFn currentDir ignored isGitRepo) path (File name) s
    = CbRet s' (Some err) ->
  err <> SkipDir.
Proof.
  cbn [walk]. unfold pathsWalkFn. cbn [IsDir].
  destruct (negb isGitRepo); [| discriminate].
  destruct (filepath.Rel currentDir path) as [rel|].
  - destruct (isIgnored ignored rel); discriminate.
  - intros [= <- <-]. discriminate.
Qed.

Lemma pathsWalkFn_keeps k path info err s s' ret :
  pathsWalkFn currentDir ignored isGitRepo path info err s = CbRet s' ret ->
  (dirs s !! k = Some true -> dirs s' !! k = Some true) /\
  (paths s !! k = Some true -> paths s' !! k = Some true).
Proof.
  unfold pathsWalkFn.
  destruct err as [err|]; [intros [= <- <-]; auto |].
  destruct info as [info|]; [| discriminate].
  destruct (IsDir info).
  - destruct (filepath.Rel currentDir path) as [rel|]; [| intros [= <- <-]; auto].
    destruct (isIgnored ignored rel); intros [= <- <-]; cbn [dirs paths];
      split; auto.
    intros Hk. destruct (decide (rel = k)) as [-> | Hne];
      [apply lookup_insert_eq | rewrite lookup_insert_ne by exact Hne; exact Hk].
  - destruct (negb isGitRepo); [| intros [= <- <-]; auto].
    destruct (filepath.Rel currentDir path) as [rel|]; [| intros [= <- <-]; auto].
    destruct (isIgnored ignored rel); intros [= <- <-]; cbn [dirs paths];
      split; auto.
    intros Hk. destruct (decide (rel = k)) as [-> | Hne];
      [apply lookup_insert_eq | rewrite lookup_insert_ne by exact Hne; exact Hk].
Qed.

Lemma recorded_keeps e path info err s s' ret :
  recorded currentDir ignored isGitRepo s e ->
  pathsWalkFn currentDir ignored isGitRepo path info err s = CbRet s' ret ->
  recorded currentDir ignored isGitRepo s' e.
Proof.
  intros Hr Hcall k Hrel Hig. specialize (Hr k Hrel Hig).
  destruct (pathsWalkFn_keeps k _ _ _ _ _ _ Hcall) as [Hd Hp].
  destruct (snd e); auto.
Qed.

Lemma walked_Dir path name entries rel :
  filepath.Rel currentDir path = Some rel -> isIgnored ignored rel = false ->
  walked currentDir ignored path (Dir name entries) =
  (path, true) :: walkedBelow currentDir ignored path entries.
Proof.
  intros Hrel Hig. unfold walked, walkedBelow. cbn [prune]. rewrite Hrel, Hig.
  cbn [entriesOf]. f_equal.
  induction entries as [|c rest IH]; [reflexivity |].
  cbn [List.map flat_map]. rewrite nodeName_prune, IH. reflexivity.
Qed.

Lemma walked_Dir_ignored path name entries rel :
  filepath.Rel currentDir path = Some rel -> isIgnored ignored rel = true ->
  walked currentDir ignored path (Dir name entries) = [(path, true)].
Proof.
  intros Hrel Hig. unfold walked. cbn [prune]. rewrite Hrel, Hig. reflexivity.
Qed.

(** A walk that ends without error has recorded every entry it reaches. *)
Lemma walkEntries_records path entries :
  Forall (fun c => forall path s s' ret,
            walk (pathsWalkFn currentDir ignored isGitRepo) path c s = CbRet s' ret ->
            ret = None \/ ret = Some SkipDir ->
            forall e, e ∈ walked currentDir ignored path c ->
            recorded currentDir ignored isGitRepo s' e) entries ->
  forall s s' ret,
    walkEntries (pathsWalkFn currentDir ignored isGitRepo) path entries s
      = CbRet s' ret ->
    ret = None \/ ret = Some SkipDir ->
    forall e, e ∈ walkedBelow currentDir ignored path entries ->
    recorded currentDir ignored isGitRepo s' e.
Proof.
  induction 1 as [|c rest Hc _ IHrest]; intros s s' ret Hw Hret e He.
  - apply elem_of_nil in He. contradiction.
  - unfold walkedBelow in He. cbn [flat_map] in He. apply elem_of_app in He.
    fold (walkedBelow currentDir ignored path rest) in He.
    cbn [walkEntries] in Hw.
    destruct (walk _ (filepath.Join [path; nodeName c]) c s)
      as [s2 [err|] | m] eqn:Hwc; [| | discriminate].
    + assert (Hgo : err = SkipDir ->
                walkEntries (pathsWalkFn currentDir ignored isGitRepo) path rest s2
                  = CbRet s' ret ->
                recorded currentDir ignored isGitRepo s' e).
      { intros -> Hrest. destruct He as [He | He].
        - eapply (walkEntries_preserves _
                    (fun s => recorded currentDir ignored isGitRepo s e));
            [intros; eapply recorded_keeps; eauto | | exact Hrest].
          eapply Hc; eauto.
        - eapply IHrest; eauto. }
      assert (Hstop : err <> SkipDir -> CbRet s2 (Some err) = CbRet s' ret ->
                recorded currentDir ignored isGitRepo s' e).
      { intros Hne [= <- <-]. destruct Hret as [Hret | Hret];
          [discriminate | injection Hret as ->; contradiction]. }
      destruct c as [fname | dname des | uname ue | sname se].
      * apply Hstop; [| exact Hw].
        exact (pathsWalkFn_file_no_skip _ _ _ _ _ Hwc).
      * destruct (decide (err = SkipDir)); auto.
      * destruct (decide (err = SkipDir)); auto.
      * destruct (decide (err = SkipDir)); auto.
    + destruct He as [He | He].
      * eapply (walkEntries_preserves _
                  (fun s => recorded currentDir ignored isGitRepo s e));
          [intros; eapply recorded_keeps; eauto | | exact Hw].
        eapply Hc; eauto.
      * eapply IHrest; eauto.
Qed.

Lemma walk_records n : forall path s s' ret,
  walk (pathsWalkFn currentDir ignored isGitRepo) path n s = CbRet s' ret ->
  ret = None \/ ret = Some SkipDir ->
  forall e, e ∈ walked currentDir ignored path n ->
  recorded currentDir ignored isGitRepo s' e.
Proof.
  induction n as [name | name entries IHes | name e0 | name e0]
    using Node_forall_ind; intros path s s' ret Hw Hret e He.
  - apply list_elem_of_singleton in He. subst e.
    intros k Hrel Hig. cbn [fst snd] in *. intros Hgit.
    cbn [walk] in Hw. rewrite pathsWalkFn_file, Hgit, Hrel, Hig in Hw.
    injection Hw as <- _. cbn [paths]. apply lookup_insert_eq.
  - revert Hw. rewrite walk_Dir. unfold pathsWalkFn at 1. cbn [IsDir].
    destruct (filepath.Rel currentDir path) as [rel|] eqn:Hrel.
    + destruct (isIgnored ignored rel) eqn:Hig.
      * intros [= <- <-].
        rewrite (walked_Dir_ignored _ _ _ _ Hrel Hig) in He.
        apply list_elem_of_singleton in He. subst e.
        intros k Hrel' Hig'. cbn [fst] in Hrel'. congruence.
      * intros Hw. rewrite (walked_Dir _ _ _ _ Hrel Hig) in He.
        apply elem_of_cons in He. destruct He as [-> | He].
        -- eapply (walkEntries_preserves _
                     (fun s => recorded currentDir ignored isGitRepo s (path, true)));
             [intros; eapply recorded_keeps; eauto | | exact Hw].
           intros k Hrel' _. cbn [fst snd dirs] in *.
           assert (k = rel) as -> by congruence. apply lookup_insert_eq.
        -- eapply walkEntries_records; eauto.
    + intros [= <- <-]. destruct Hret as [Hret | Hret]; discriminate Hret.
  - apply elem_of_nil in He. contradiction.
  - apply elem_of_nil in He. contradiction.
Qed.

(** What a walk has added comes from the entries it reaches. *)

Lemma fromEntries_same es s s' :
  dirs s' = dirs s -> paths s' = paths s ->
  fromEntries currentDir ignored isGitRepo es s s'.
Proof. intros Hd Hp. split; intros k Hk; left; congruence. Qed.

Lemma fromEntries_app es1 es2 s0 s1 s2 :
  fromEntries currentDir ignored isGitRepo es1 s0 s1 ->
  fromEntries currentDir ignored isGitRepo es2 s1 s2 ->
  fromEntries currentDir ignored isGitRepo (es1 ++ es2) s0 s2.
Proof.
  intros [Hd1 Hp1] [Hd2 Hp2]. split; intros k Hk.
  - destruct (Hd2 k Hk) as [Hk1 | (p & Hin & Hr)].
    + destruct (Hd1 k Hk1) as [Hk0 | (p & Hin & Hr)]; [left; exact Hk0 |].
      right. exists p. split; [apply elem_of_app; left; exact Hin | exact Hr].
    + right. exists p. split; [apply elem_of_app; right; exact Hin | exact Hr].
  - destruct (Hp2 k Hk) as [Hk1 | (Hg & p & Hin & Hr)].
    + destruct (Hp1 k Hk1) as [Hk0 | (Hg & p & Hin & Hr)]; [left; exact Hk0 |].
      right. split; [exact Hg |].
      exists p. split; [apply elem_of_app; left; exact Hin | exact Hr].
    + right. split; [exact Hg |].
      exists p. split; [apply elem_of_app; right; exact Hin | exact Hr].
Qed.

Lemma fromEntries_nil_r es s0 s1 :
  fromEntries currentDir ignored isGitRepo es s0 s1 ->
  forall more, fromEntries currentDir ignored isGitRepo (es ++ more) s0 s1.
Proof.
  intros H more. eapply fromEntries_app; [exact H |].
  apply fromEntries_same; reflexivity.
Qed.

Lemma walkEntries_origin path entries :
  Forall (fun c => forall path s s' ret,
            walk (pathsWalkFn currentDir ignored isGitRepo) path c s = CbRet s' ret ->
            fromEntries currentDir ignored isGitRepo
              (walked currentDir ignored path c) s s') entries ->
  forall s s' ret,
    walkEntries (pathsWalkFn currentDir ignored isGitRepo) path entries s
      = CbRet s' ret ->
    fromEntries currentDir ignored isGitRepo
      (walkedBelow currentDir ignored path entries) s s'.
Proof.
  induction 1 as [|c rest Hc _ IHrest]; intros s s' ret; cbn [walkEntries].
  - intros [= <- <-]. apply fromEntries_same; reflexivity.
  - unfold walkedBelow. cbn [flat_map].
    fold (walkedBelow currentDir ignored path rest).
    destruct (walk _ (filepath.Join [path; nodeName c]) c s)
      as [s2 [err|] | m] eqn:Hwc; [| | discriminate].
    + pose proof (Hc _ _ _ _ Hwc) as H2.
      destruct c as [fname | dname des | uname ue | sname se];
        try (intros [= <- <-]; apply fromEntries_nil_r; exact H2);
        (destruct (decide (err = SkipDir));
           [intros Hrest; eapply fromEntries_app; [exact H2 | eapply IHrest; eauto]
           | intros [= <- <-]; apply fromEntries_nil_r; exact H2]).
    + intros Hrest. eapply fromEntries_app; [eapply Hc; eauto | eapply IHrest; eauto].
Qed.

Lemma walk_origin n : forall path s s' ret,
  walk (pathsWalkFn currentDir ignored isGitRepo) path n s = CbRet s' ret ->
  fromEntries currentDir ignored isGitRepo (walked currentDir ignored path n) s s'.
Proof.
  induction n as [name | name entries IHes | name e0 | name e0]
    using Node_forall_ind; intros path s s' ret.
  - cbn [walk]. rewrite pathsWalkFn_file. intros Hw.
    assert (Hcase : isGitRepo = true \/ isGitRepo = false)
      by (destruct isGitRepo; auto).
    destruct Hcase as [Hgit | Hgit]; rewrite Hgit in Hw; revert Hw;
      [intros [= <- <-]; apply fromEntries_same; reflexivity |].
    destruct (filepath.Rel currentDir path) as [rel|] eqn:Hrel;
      [| intros [= <- <-]; apply fromEntries_same; reflexivity].
    destruct (isIgnored ignored rel) eqn:Hig; intros [= <- <-];
      [apply fromEntries_same; reflexivity |].
    split; cbn [dirs paths]; intros k Hk; [left; exact Hk |].
    apply lookup_insert_is_Some in Hk. destruct Hk as [<- | [_ Hk]];
      [| left; exact Hk].
    right. split; [exact Hgit |]. exists path.
    split; [apply list_elem_of_singleton; reflexivity | auto].
  - rewrite walk_Dir. unfold pathsWalkFn at 1. cbn [IsDir].
    destruct (filepath.Rel currentDir path) as [rel|] eqn:Hrel;
      [| intros [= <- <-]; apply fromEntries_same; reflexivity].
    destruct (isIgnored ignored rel) eqn:Hig;
      [intros [= <- <-]; apply fromEntries_same; reflexivity |].
    intros Hw. rewrite (walked_Dir _ _ _ _ Hrel Hig).
    change ((path, true) :: walkedBelow currentDir ignored path entries)
      with ([(path, true)] ++ walkedBelow currentDir ignored path entries).
    eapply fromEntries_app; [| eapply walkEntries_origin; eauto].
    split; cbn [dirs paths]; intros k Hk; [| left; exact Hk].
    apply lookup_insert_is_Some in Hk. destruct Hk as [<- | [_ Hk]];
      [| left; exact Hk].
    right. exists path.
    split; [apply list_elem_of_singleton; reflexivity | auto].
  - cbn [walk pathsWalkFn]. intros [= <- <-]. apply fromEntries_same; reflexivity.
  - cbn [walk pathsWalkFn]. intros [= <- <-]. apply fromEntries_same; reflexivity.
Qed.

Lemma walkProducer_walk baseDir tree s s' :
  walkProducer baseDir currentDir ignored isGitRepo tree s = Ok s' ->
  exists ret,
    walk (pathsWalkFn currentDir ignored isGitRepo) baseDir tree s = CbRet s' ret /\
    (ret = None \/ ret = Some SkipDir).
Proof.
  unfold walkProducer, Walk.
  destruct (walk _ baseDir tree s) as [s1 [err|] | m]; [| | discriminate].
  - destruct (decide (err = SkipDir)) as [-> | Hne]; [| discriminate].
    intros [= <-]. eauto.
  - intros [= <-]. eauto.
Qed.

(** The walk producer, when it ends without error, has put into [dirs]
    every directory it reaches that is not ignored, and without version
    control into [paths] every such file; and it has added nothing else. *)
Lemma walkProducer_exact baseDir tree s s' :
  walkProducer baseDir currentDir ignored isGitRepo tree s = Ok s' ->
  (forall e, e ∈ walked currentDir ignored baseDir tree ->
     recorded currentDir ignored isGitRepo s' e)
  /\ fromEntries currentDir ignored isGitRepo
       (walked currentDir ignored baseDir tree) s s'.
Proof.
  intros Hrun. destruct (walkProducer_walk _ _ _ _ Hrun) as (ret & Hw & Hret).
  split.
  - intros e He. eapply walk_records; eauto.
  - eapply walk_origin; eauto.
Qed.

End WalkRecords.

Section PathClaims.

Import Fs.

(** C5.  When [GetPaths] returns, its paths are the map [paths] with the
    keys of [dirs] added, both taken after every producer has ended without
    error.  The keys of [dirs] are what the walk contributes in both cases:
    exactly the relative paths of the directories that the walk reaches
    (those not below an ignored directory) and that are not ignored
    themselves.  Under version control every key of [paths] is the relative
    path of a line of one of the two git listings, the walk leaves [paths]
    as it finds it, and the files of the walked tree make no difference to
    what the walk does.  Without version control the listings are not used:
    the walk is the only producer, and the keys of [paths] are exactly the
    relative paths of the files that the walk reaches and that are not
    ignored. *)
Theorem walk_adds_directories_only_under_git (w : World)
    (baseDir currentDir : string)
    (ps : gmap string bool) (ig : option GitIgnore) :
  GetPaths w baseDir currentDir = Ok (ps, ig) ->
  exists s : PathSets,
    producers baseDir currentDir ig (IsGitRepo w baseDir)
      (GitLsFiles w baseDir) (GitLsOthers w baseDir) (Tree w baseDir) = Ok s
    /\ (forall k, ps !! k =
          match dirs s !! k with Some _ => Some true | None => paths s !! k end)
    /\ (forall k, is_Some (dirs s !! k) <->
          exists p, (p, true) ∈ walked currentDir ig baseDir (Tree w baseDir) /\
                    filepath.Rel currentDir p = Some k /\
                    isIgnored ig k = false)
    /\ (IsGitRepo w baseDir = true ->
        (forall k, is_Some (paths s !! k) ->
           exists file,
             (file ∈ listed (GitLsFiles w baseDir) \/
              file ∈ listed (GitLsOthers w baseDir)) /\
             filepath.Rel currentDir (filepath.Join [baseDir; file]) = Some k)
        /\ (forall tree s0 s1,
              walkProducer baseDir currentDir ig true tree s0 = Ok s1 ->
              paths s1 = paths s0)
        /\ (forall tree s0,
              walkProducer baseDir currentDir ig true (dropFiles tree) s0 =
              walkProducer baseDir currentDir ig true tree s0))
    /\ (IsGitRepo w baseDir = false ->
        walkProducer baseDir currentDir ig false (Tree w baseDir) noPaths = Ok s
        /\ (forall k, is_Some (paths s !! k) <->
              exists p, (p, false) ∈ walked currentDir ig baseDir (Tree w baseDir) /\
                        filepath.Rel currentDir p = Some k /\
                        isIgnored ig k = false)
        /\ (forall path name s0 relPath,
              filepath.Rel currentDir path = Some relPath ->
              isIgnored ig relPath = false ->
              pathsWalkFn currentDir ig false path
                (Some {| Name := name; IsDir := false |}) None s0 =
              CbRet {| paths := <[relPath := true]> (paths s0);
                       ignoredPaths := ignoredPaths s0;
                       dirs := dirs s0 |} None)).
Proof.
  unfold GetPaths.
  destruct (GetPlandexIgnore w currentDir) as [err | ignored]; [discriminate |].
  destruct (producers baseDir currentDir ignored _ _ _ _) as [s | err | msg] eqn:Hprod;
    try discriminate.
  intros [= <- <-]. exists s. split; [exact Hprod |].
  split; [intros k; apply mergeDirs_lookup |].
  unfold producers in Hprod.
  assert (Hwalk : exists s0,
            walkProducer baseDir currentDir ignored (IsGitRepo w baseDir)
              (Tree w baseDir) s0 = Ok s /\ dirs s0 = ∅ /\
            (IsGitRepo w baseDir = false -> s0 = noPaths)).
  { destruct (IsGitRepo w baseDir).
    - destruct (listProducer _ baseDir currentDir ignored (GitLsFiles w baseDir) noPaths)
        as [err | s1] eqn:H1; [discriminate |].
      destruct (listProducer _ baseDir currentDir ignored (GitLsOthers w baseDir) s1)
        as [err | s2] eqn:H2; [discriminate |].
      exists s2. split; [exact Hprod |]. split; [| discriminate].
      apply listProducer_spec in H1 as (D1 & _).
      apply listProducer_spec in H2 as (D2 & _).
      rewrite D2, D1. reflexivity.
    - exists noPaths. auto. }
  destruct Hwalk as (s0 & Hrun & Hd0 & Hs0).
  destruct (walkProducer_exact _ _ _ _ _ _ _ Hrun) as [Hrec Hfrom].
  split.
  { intros k. split.
    - intros Hk. destruct (proj1 Hfrom k Hk) as [H0 | H1]; [| exact H1].
      rewrite Hd0, lookup_empty in H0. destruct H0 as [x Hx]. discriminate Hx.
    - intros (p & Hin & Hrel & Hig).
      pose proof (Hrec _ Hin k Hrel Hig) as Hk. cbn [snd] in Hk.
      rewrite Hk. eauto. }
  split; intros Hgit; rewrite Hgit in Hprod.
  - split; [| split].
    + destruct (listProducer _ baseDir currentDir ignored (GitLsFiles w baseDir) noPaths)
        as [err | s1] eqn:H1; [discriminate |].
      destruct (listProducer _ baseDir currentDir ignored (GitLsOthers w baseDir) s1)
        as [err | s2] eqn:H2; [discriminate |].
      apply listProducer_spec in H1 as (_ & _ & K1).
      apply listProducer_spec in H2 as (_ & _ & K2).
      apply walkProducer_git_paths in Hprod. rewrite Hprod.
      intros k Hk. destruct (K2 k Hk) as [Hk1 | (file & Hf & Hr)].
      * destruct (K1 k Hk1) as [Hk0 | (file & Hf & Hr)].
        -- cbn in Hk0. rewrite lookup_empty in Hk0. destruct Hk0; discriminate.
        -- exists file. auto.
      * exists file. auto.
    + intros tree s0' s1. apply walkProducer_git_paths.
    + intros tree s0'. apply walkProducer_dropFiles.
  - split; [exact Hprod |]. split.
    + intros k. split.
      * intros Hk. destruct (proj2 Hfrom k Hk) as [H0 | (_ & H1)]; [| exact H1].
        rewrite (Hs0 Hgit) in H0. cbn [noPaths paths] in H0.
        rewrite lookup_empty in H0. destruct H0 as [x Hx]. discriminate Hx.
      * intros (p & Hin & Hrel & Hig).
        pose proof (Hrec _ Hin k Hrel Hig) as Hk. cbn [snd] in Hk.
        rewrite (Hk Hgit). eauto.
    + intros path name s0' relPath Hrel Hig.
      rewrite pathsWalkFn_file, Hrel, Hig. reflexivity.
Qed.

Lemma walk_adds_directories_only_under_git_witness :
  GetPaths gitWorld "/p" "/p" = Ok (gitPaths, Some gitIgnore) /\
  exists s : PathSets,
    producers "/p" "/p" (Some gitIgnore) true
      (GitLsFiles gitWorld "/p") (GitLsOthers gitWorld "/p")
      (Tree gitWorld "/p") = Ok s
    /\ is_Some (dirs s !! ".") /\ ~ is_Some (dirs s !! "build")
    /\ gitPaths !! "." = Some true.
Proof.
  assert (H : GetPaths gitWorld "/p" "/p" = Ok (gitPaths, Some gitIgnore))
    by (vm_compute; reflexivity).
  split; [exact H |].
  destruct (walk_adds_directories_only_under_git gitWorld "/p" "/p"
              gitPaths (Some gitIgnore) H) as (s & Hs & Hmerge & Hdirs & _).
  exists s. split; [exact Hs |].
  assert (Hdot : is_Some (dirs s !! ".")).
  { apply Hdirs. exists "/p". split; [| split; vm_compute; reflexivity].
    assert (Hw : walked "/p" (Some gitIgnore) "/p" (Tree gitWorld "/p")
                 = [("/p", true); ("/p/build", true); ("/p/main.go", false)])
      by (vm_compute; reflexivity).
    rewrite Hw. apply elem_of_cons. left. reflexivity. }
  split; [exact Hdot |]. split.
  - intros Hb. apply Hdirs in Hb. destruct Hb as (p & _ & Hrel & Hig).
    assert (Hm : isIgnored (Some gitIgnore) "build" = true) by (vm_compute; reflexivity).
    rewrite Hm in Hig. discriminate Hig.
  - rewrite Hmerge. destruct Hdot as [v ->]. reflexivity.
Defined.

(** C6, as the code has it.  With a compiled matcher, no path that
    [GetPaths] returns matches it, from whichever producer the path comes.
    The walk does not look below an ignored directory, whatever the entries
    below it match: [GetPaths] returns the same for the tree and for the
    tree without everything below its ignored directories. *)
Theorem returned_paths_unignored (w : World) (baseDir currentDir : string)
    (gi : GitIgnore) (ps : gmap string bool) (ig : option GitIgnore) :
  GetPlandexIgnore w currentDir = inr (Some gi) ->
  GetPaths w baseDir currentDir = Ok (ps, ig) ->
  (forall p, is_Some (ps !! p) -> MatchesPath gi p = false)
  /\ GetPaths (withTree w (fun root => prune currentDir (Some gi) root (Tree w root)))
       baseDir currentDir
     = GetPaths w baseDir currentDir
  /\ (forall isGitRepo tree s,
        walkProducer baseDir currentDir (Some gi) isGitRepo
          (prune currentDir (Some gi) baseDir tree) s =
        walkProducer baseDir currentDir (Some gi) isGitRepo tree s).
Proof.
  intros Hig Hget. split; [| split].
  - unfold GetPaths in Hget. rewrite Hig in Hget.
    destruct (producers baseDir currentDir (Some gi) _ _ _ _)
      as [s | err | msg] eqn:Hprod; try discriminate.
    injection Hget as <- <-.
    assert (Hs : unignored (Some gi) (paths s) /\ unignored (Some gi) (dirs s)).
    { unfold producers in Hprod.
      destruct (IsGitRepo w baseDir).
      - destruct (listProducer _ baseDir currentDir (Some gi) (GitLsFiles w baseDir) noPaths)
          as [err | s1] eqn:H1; [discriminate |].
        destruct (listProducer _ baseDir currentDir (Some gi) (GitLsOthers w baseDir) s1)
          as [err | s2] eqn:H2; [discriminate |].
        apply listProducer_spec in H1 as (D1 & U1 & _).
        apply listProducer_spec in H2 as (D2 & U2 & _).
        eapply walkProducer_unignored; [| | exact Hprod].
        + apply U2, U1, unignored_empty.
        + rewrite D2, D1. apply unignored_empty.
      - eapply walkProducer_unignored; [| | exact Hprod]; apply unignored_empty. }
    destruct Hs as [Hp Hd].
    intros p Hin. rewrite mergeDirs_lookup in Hin.
    destruct (dirs s !! p) as [v|] eqn:Hdp.
    + apply (Hd p). rewrite Hdp. eauto.
    + apply (Hp p Hin).
  - unfold GetPaths, GetPlandexIgnore. cbn [withTree Stat CompileIgnoreFile
      IsGitRepo GitLsFiles GitLsOthers Tree].
    fold (GetPlandexIgnore w currentDir). rewrite Hig.
    unfold producers.
    destruct (if IsGitRepo w baseDir then _ else _) as [err | s]; [reflexivity |].
    rewrite walkProducer_prune. reflexivity.
  - intros isGitRepo tree s. apply walkProducer_prune.
Qed.

Lemma returned_paths_unignored_witness :
  GetPlandexIgnore gitWorld "/p" = inr (Some gitIgnore) /\
  GetPaths gitWorld "/p" "/p" = Ok (gitPaths, Some gitIgnore) /\
  forall p, is_Some (gitPaths !! p) -> MatchesPath gitIgnore p = false.
Proof.
  assert (H1 : GetPlandexIgnore gitWorld "/p" = inr (Some gitIgnore))
    by (vm_compute; reflexivity).
  assert (H2 : GetPaths gitWorld "/p" "/p" = Ok (gitPaths, Some gitIgnore))
    by (vm_compute; reflexivity).
  split; [exact H1 |]. split; [exact H2 |].
  exact (proj1 (returned_paths_unignored gitWorld "/p" "/p"
                  gitIgnore gitPaths (Some gitIgnore) H1 H2)).
Defined.

(** C6, as the claim words it, fails under version control: the directory
    [build] is ignored, its file [build/keep.txt] matches no pattern in the
    end (the second line of the ignore file negates the first), git lists
    it as tracked, and [GetPaths] returns it. *)
Lemma tracked_file_below_ignored_directory :
  MatchesPath gitIgnore "build" = true /\
  MatchesPath gitIgnore "build/keep.txt" = false /\
  ~ ignoredDescendantsAbsent gitWorld "/p" "/p".
Proof.
  split; [reflexivity |]. split; [reflexivity |].
  intros H.
  specialize (H gitIgnore gitPaths (Some gitIgnore) "build/keep.txt").
  assert (Hnone : gitPaths !! "build/keep.txt" = None).
  { apply H.
    - vm_compute; reflexivity.
    - vm_compute; reflexivity.
    - vm_compute. left. }
  vm_compute in Hnone. discriminate Hnone.
Qed.

(** Without version control the same tree gives no path below [build]. *)
Lemma plain_walk_skips_ignored_directory :
  ignoredDescendantsAbsent plainWorld "/p" "/p".
Proof.
  intros gi ps ig c Hig Hget Hc.
  vm_compute in Hig. injection Hig as <-.
  vm_compute in Hget. injection Hget as <- _.
  vm_compute in Hc. apply list_elem_of_singleton in Hc as ->.
  vm_compute. reflexivity.
Qed.

End PathClaims.

(** ** Base directory and project search *)

Section ResolverFacts.

Import Fs.

Lemma climb_spec pathSplit : forall n currentDir,
  climb pathSplit n currentDir =
  ((n + countUps pathSplit)%nat, Nat.iter (countUps pathSplit) filepath.Dir currentDir).
Proof.
  induction pathSplit as [|p rest IH]; intros n currentDir; cbn [climb countUps].
  - f_equal. lia.
  - destruct (String.eqb p "..").
    + rewrite IH, <- Nat.iter_succ_r. f_equal. lia.
    + f_equal. lia.
Qed.

Lemma baseDirLoop_spec ProjectRoot paths : forall dirsUp baseDir,
  baseDir = Nat.iter dirsUp filepath.Dir ProjectRoot ->
  baseDirLoop ProjectRoot paths dirsUp baseDir =
  Nat.iter (dirsUp `max` max_list (leadingUps <$> paths)) filepath.Dir ProjectRoot.
Proof.
  induction paths as [|path rest IH]; intros dirsUp baseDir Hinv.
  - cbn. rewrite Nat.max_0_r. exact Hinv.
  - cbn [baseDirLoop fmap list_fmap max_list].
    rewrite climb_spec. fold (leadingUps path). cbn [Nat.add].
    destruct (Nat.ltb_spec dirsUp (leadingUps path)) as [Hlt | Hge].
    + rewrite (IH _ _ eq_refl). f_equal. unfold id. lia.
    + rewrite (IH _ _ Hinv). f_equal. unfold id. lia.
Qed.

(** C7.  [GetBaseDirForFilePaths] returns the project root after as many
    steps to the parent directory as the largest number of leading [..]
    segments among the paths.  For [../a/b], [../../c] and [d/e] these are
    two steps.  It returns the project root itself when no path has a
    leading [..] segment, and for no paths at all. *)
Theorem base_dir_climbs_max_leading_ups :
  (forall (ProjectRoot : string) (paths : list string),
     GetBaseDirForFilePaths ProjectRoot paths =
     Nat.iter (max_list (leadingUps <$> paths)) filepath.Dir ProjectRoot)
  /\ (forall ProjectRoot : string,
        GetBaseDirForFilePaths ProjectRoot ["../a/b"; "../../c"; "d/e"] =
        filepath.Dir (filepath.Dir ProjectRoot))
  /\ leadingUps <$> ["../a/b"; "../../c"; "d/e"] = [1; 2; 0]%nat
  /\ (forall (ProjectRoot : string) (paths : list string),
        Forall (fun path => leadingUps path = 0%nat) paths ->
        GetBaseDirForFilePaths ProjectRoot paths = ProjectRoot)
  /\ (forall ProjectRoot : string, GetBaseDirForFilePaths ProjectRoot [] = ProjectRoot).
Proof.
  assert (H : forall ProjectRoot paths,
             GetBaseDirForFilePaths ProjectRoot paths =
             Nat.iter (max_list (leadingUps <$> paths)) filepath.Dir ProjectRoot).
  { intros ProjectRoot paths. unfold GetBaseDirForFilePaths.
    rewrite (baseDirLoop_spec ProjectRoot paths 0 ProjectRoot eq_refl).
    reflexivity. }
  split; [exact H |]. split; [intros; rewrite H; reflexivity |].
  split; [reflexivity |]. split; [| reflexivity].
  intros ProjectRoot paths Hall. rewrite H.
  replace (max_list (leadingUps <$> paths)) with 0%nat; [reflexivity |].
  induction Hall as [|path rest Hp _ IH]; [reflexivity |].
  cbn [fmap list_fmap max_list]. rewrite Hp. exact IH.
Qed.

(** The deadline: when the context is done at a visible entry, the function
    of [GetChildProjectIdsWithPaths] returns the time-out error and keeps
    the pairs found so far. *)
Lemma childWalkFn_deadline w Cwd ctxDone path info st :
  strings.HasPrefix (Name info) "." = false ->
  ctxDone (polls st) = true ->
  childWalkFn w Cwd ctxDone path (Some info) None st =
  CbRet {| childProjectIds := childProjectIds st; polls := S (polls st) |}
    (Some contextTimeout).
Proof. intros Hvis Hdone. unfold childWalkFn. rewrite Hvis, Hdone. reflexivity. Qed.

(** A walk that ends with the time-out error is not an error of the call:
    the pairs found so far are returned. *)
Lemma child_search_soft_timeout w Cwd ctxDone st :
  Walk (childWalkFn w Cwd ctxDone) Cwd (Tree w Cwd)
    {| childProjectIds := []; polls := 0 |} = CbRet st (Some contextTimeout) ->
  GetChildProjectIdsWithPaths w Cwd ctxDone = Ok (childProjectIds st).
Proof. unfold GetChildProjectIdsWithPaths. intros ->. reflexivity. Qed.

(** Any other error of the walk is the error of the call. *)
Lemma child_search_other_error w Cwd ctxDone st err :
  Walk (childWalkFn w Cwd ctxDone) Cwd (Tree w Cwd)
    {| childProjectIds := []; polls := 0 |} = CbRet st (Some err) ->
  Error err <> "context timeout" ->
  exists e, GetChildProjectIdsWithPaths w Cwd ctxDone = Err e.
Proof.
  unfold GetChildProjectIdsWithPaths. intros -> Hmsg.
  destruct (String.eqb_spec (Error err) "context timeout") as [Heq | _];
    [contradiction | eauto].
Qed.

(** The function hands on an error that is not a permission error, and
    skips a directory whose entries it is not permitted to read. *)
Lemma childWalkFn_error w Cwd ctxDone path info err st :
  childWalkFn w Cwd ctxDone path info (Some err) st =
  if IsPermission err then
    match info with
    | None => CbPanic nilDereference
    | Some info => if IsDir info then CbRet st (Some SkipDir) else CbRet st None
    end
  else CbRet st (Some err).
Proof. reflexivity. Qed.

(** A directory whose entries the process is not permitted to read is
    skipped, and the walk goes on with the entry after it. *)
Lemma child_search_skips_unreadable_directory w Cwd ctxDone path name err rest st :
  IsPermission err = true ->
  walkEntries (childWalkFn w Cwd ctxDone) path (DirUnreadable name err :: rest) st =
  walkEntries (childWalkFn w Cwd ctxDone) path rest st.
Proof.
  intros Hperm. cbn [walkEntries walk nodeName].
  rewrite childWalkFn_error, Hperm. cbn [IsDir].
  destruct (decide (SkipDir = SkipDir)); [reflexivity | contradiction].
Qed.

(** C8.  A permission error of [os.Lstat] on an entry reaches the function
    of [GetChildProjectIdsWithPaths] with a nil [info], on which it calls
    [IsDir]: the call panics.  In [lockedWorld] the directory [locked] can
    be listed but not searched, and the search from [/proj] panics instead
    of skipping [locked/x] and going on to [open].  Where the entries of
    [locked] cannot even be read, the directory is skipped and the project
    in [open] is found, also before a deadline that fires later. *)
Theorem child_search_panics_on_lstat_permission_error :
  (forall w Cwd ctxDone path err st,
     IsPermission err = true ->
     childWalkFn w Cwd ctxDone path None (Some err) st = CbPanic nilDereference)
  /\ GetChildProjectIdsWithPaths lockedWorld "/proj" (fun _ => false)
     = Panic nilDereference
  /\ GetChildProjectIdsWithPaths unreadableWorld "/proj" (fun _ => false)
     = Ok [("/proj/open", "id-open")]
  /\ GetChildProjectIdsWithPaths unreadableWorld "/proj" (fun k => (1 <=? k)%nat)
     = Ok [].
Proof.
  split; [| repeat split; vm_compute; reflexivity].
  intros w Cwd ctxDone path err st Hperm.
  rewrite childWalkFn_error, Hperm. reflexivity.
Qed.

(** C9.  Where no marker directory is found, [findPlandex] returns the
    empty string, the settings path becomes the relative path
    [project.json], and the loop of [GetParentProjectIdsWithPaths] looks
    for that file in the working directory.  In [strayWorld] the directory
    [/a] holds no marker directory, and the search from [/a/b] still pairs
    [/a] with the identifier read from [/a/b/project.json]. *)
Theorem parent_search_reads_stray_settings :
  (forall w currentDir fuel parentProjectIds bytes projectId,
     currentDir <> "/" ->
     findPlandex w currentDir = "" ->
     Stat w "project.json" = StatOk ->
     ReadFile w "project.json" = inr bytes ->
     UnmarshalId w bytes = Some projectId ->
     parentLoop w (S fuel) currentDir parentProjectIds =
     parentLoop w fuel (filepath.Dir currentDir)
       (parentProjectIds ++ [(currentDir, projectId)]))
  /\ findPlandex strayWorld "/a" = ""
  /\ filepath.Join [findPlandex strayWorld "/a"; "project.json"] = "project.json"
  /\ resolve "/a/b" "project.json" = "/a/b/project.json"
  /\ GetParentProjectIdsWithPaths strayWorld "/a/b" = Some (Ok [("/a", "")]).
Proof.
  split; [| repeat split; vm_compute; reflexivity].
  intros w currentDir fuel parentProjectIds bytes projectId Hne Hnone Hstat Hread Hid.
  cbn [parentLoop].
  destruct (String.eqb_spec currentDir "/") as [Heq | _]; [contradiction |].
  rewrite Hnone.
  change (filepath.Join [""; "project.json"]) with "project.json".
  rewrite Hstat, Hread, Hid. reflexivity.
Qed.

End ResolverFacts.

(** ** The ancestor search ends *)

Section AncestorLoop.

Import filepath.

Local Open Scope nat_scope.

Lemma string_length_append (s1 s2 : string) :
  String.length (s1 +:+ s2) = String.length s1 + String.length s2.
Proof. induction s1 as [|c s1 IH]; simpl; [reflexivity | rewrite IH; reflexivity]. Qed.

Lemma weight_app l1 l2 : weight (l1 ++ l2) = weight l1 + weight l2.
Proof. induction l1 as [|e l1 IH]; simpl; [reflexivity | rewrite IH; lia]. Qed.

Lemma weight_rev l : weight (rev l) = weight l.
Proof.
  induction l as [|e l IH]; simpl; [reflexivity |].
  rewrite weight_app, IH. simpl. lia.
Qed.

Lemma weightKept_le_headWeight l : weightKept l <= headWeight l.
Proof. destruct l as [|e l]; simpl; [lia |]. destruct (String.eqb e ""); lia. Qed.

(** [Clean] keeps no more than the non-empty elements it is given. *)
Lemma cleanLoop_weight isRooted elems : forall out,
  weight (cleanLoop isRooted elems out) <= weight out + weightKept elems.
Proof.
  induction elems as [|e rest IH]; intros out; cbn [cleanLoop weightKept].
  - rewrite weight_rev. lia.
  - destruct (String.eqb e "") eqn:Hempty; [apply IH |].
    destruct (String.eqb e ".") eqn:Hdot; [etransitivity; [apply IH | lia] |].
    destruct (String.eqb e "..") eqn:Hup.
    + destruct out as [|top below].
      * destruct isRooted; (etransitivity; [apply IH | simpl; lia]).
      * destruct (String.eqb top "..");
          (etransitivity; [apply IH | simpl; lia]).
    + etransitivity; [apply IH | simpl; lia].
Qed.

Lemma join_length elems :
  elems <> [] -> S (String.length (strings.Join elems "/")) = weight elems.
Proof.
  induction elems as [|e rest IH]; intros Hne; [contradiction |].
  destruct rest as [|e' rest']; [simpl; lia |].
  change (strings.Join (e :: e' :: rest') "/")
    with (e +:+ "/" +:+ strings.Join (e' :: rest') "/").
  rewrite !string_length_append.
  cbn [weight] in *. rewrite <- IH by discriminate. simpl. lia.
Qed.

Lemma assemble_rooted_length elems :
  String.length (assemble true elems) <= Nat.max 1 (weight elems).
Proof.
  unfold assemble.
  destruct elems as [|e rest]; [simpl; lia |].
  rewrite string_length_append. cbn [String.length].
  pose proof (join_length (e :: rest)) as Hj.
  rewrite <- Hj by discriminate. lia.
Qed.

Lemma segments_String_sep rest :
  segments (String Separator rest) = EmptyString :: segments rest.
Proof. reflexivity. Qed.

Lemma segments_String_other c rest :
  Ascii.eqb c Separator = false ->
  exists piece pieces,
    segments rest = piece :: pieces /\
    segments (String c rest) = String c piece :: pieces.
Proof.
  intros Hc. unfold segments. cbn [strings.SplitChar]. rewrite Hc.
  destruct (strings.SplitChar Separator rest) as [|piece pieces] eqn:Hs.
  - destruct rest; cbn [strings.SplitChar] in Hs; [discriminate |].
    destruct (Ascii.eqb a Separator); [discriminate |].
    destruct (strings.SplitChar Separator rest); discriminate.
  - eauto.
Qed.

Lemma headWeight_upToLastSeparator path :
  hasSeparator path = true ->
  headWeight (segments (upToLastSeparator path)) <= String.length path.
Proof.
  induction path as [|c rest IH]; [discriminate |].
  cbn [hasSeparator upToLastSeparator String.length]. intros Hsep.
  destruct (hasSeparator rest) eqn:Hrest.
  - specialize (IH eq_refl).
    destruct (Ascii.eqb c Separator) eqn:Hc.
    + apply Ascii.eqb_eq in Hc as ->. rewrite segments_String_sep.
      cbn [headWeight String.length].
      pose proof (weightKept_le_headWeight (segments (upToLastSeparator rest))). lia.
    + destruct (segments_String_other c (upToLastSeparator rest) Hc)
        as (piece & pieces & Hs & ->).
      rewrite Hs in IH. cbn [headWeight String.length] in *. lia.
  - rewrite orb_false_r in Hsep. rewrite Hsep.
    apply Ascii.eqb_eq in Hsep as ->. cbn. lia.
Qed.

Lemma rooted_inv path :
  rooted path = true -> exists rest, path = String Separator rest.
Proof.
  destruct path as [|c rest]; [discriminate |].
  unfold rooted, strings.HasPrefix. cbn [String.prefix].
  destruct (ascii_dec "/" c) as [<- | _]; [eauto | discriminate].
Qed.

Lemma rooted_String_sep rest : rooted (String Separator rest) = true.
Proof.
  unfold rooted, strings.HasPrefix, Separator. cbn [String.prefix].
  destruct (ascii_dec "/" "/") as [_ | Hne]; [| contradiction].
  destruct rest; reflexivity.
Qed.

Lemma Clean_rooted_length rest :
  rooted (Clean (String Separator rest)) = true /\
  String.length (Clean (String Separator rest))
    <= Nat.max 1 (weightKept (segments rest)).
Proof.
  unfold Clean. rewrite rooted_String_sep, segments_String_sep.
  cbn [cleanLoop String.eqb].
  split; [apply rooted_String_sep |].
  etransitivity; [apply assemble_rooted_length |].
  pose proof (cleanLoop_weight true (segments rest) []). simpl in *. lia.
Qed.

(** The parent of an absolute path is absolute, and shorter unless the path
    is the root. *)
Lemma Dir_rooted path :
  rooted path = true ->
  rooted (Dir path) = true /\
  (path = "/"%string \/ String.length (Dir path) < String.length path).
Proof.
  intros Hr. apply rooted_inv in Hr as [rest ->].
  unfold Dir. cbn [upToLastSeparator].
  change (Ascii.eqb Separator Separator) with true. cbn match.
  destruct (hasSeparator rest) eqn:Hsep.
  - destruct (Clean_rooted_length (upToLastSeparator rest)) as [Hroot Hlen].
    split; [exact Hroot |]. right.
    pose proof (headWeight_upToLastSeparator rest Hsep).
    pose proof (weightKept_le_headWeight (segments (upToLastSeparator rest))).
    destruct rest as [|c rest]; [discriminate |].
    set (front := upToLastSeparator (String c rest)) in *.
    cbn [String.length] in *. lia.
  - assert (Hroot : Clean (String Separator EmptyString) = "/"%string)
      by (vm_compute; reflexivity).
    rewrite Hroot. split; [reflexivity |].
    destruct rest; [left; reflexivity | right; cbn [String.length]; lia].
Qed.

Lemma parentLoop_fuel (w : Fs.World) fuel : forall currentDir parentProjectIds,
  rooted currentDir = true ->
  String.length currentDir < fuel ->
  Fs.parentLoop w fuel currentDir parentProjectIds <> None.
Proof.
  induction fuel as [|fuel IH]; intros currentDir parentProjectIds Hr Hlen; [lia |].
  cbn [Fs.parentLoop].
  destruct (String.eqb_spec currentDir "/") as [Heq | Hne]; [discriminate |].
  destruct (Dir_rooted currentDir Hr) as [Hr' [Heq | Hlt]]; [contradiction |].
  assert (Hnext : forall ids, Fs.parentLoop w fuel (Dir currentDir) ids <> None)
    by (intros ids; apply IH; [exact Hr' | lia]).
  destruct (Fs.Stat w _); try apply Hnext.
  destruct (Fs.ReadFile w _); [discriminate |].
  destruct (Fs.UnmarshalId w _); [apply Hnext | discriminate].
Qed.

(** X15.  [GetParentProjectIdsWithPaths] ends for every absolute working
    directory: its loop reaches the root, and the fuel given to the loop
    is enough. *)
Lemma parent_search_ends (w : Fs.World) (Cwd : string) :
  rooted Cwd = true -> Fs.GetParentProjectIdsWithPaths w Cwd <> None.
Proof.
  intros Hr. unfold Fs.GetParentProjectIdsWithPaths.
  destruct (Dir_rooted Cwd Hr) as [Hr' Hcase].
  apply parentLoop_fuel; [exact Hr' |].
  destruct Hcase as [-> | Hlt]; [| lia].
  apply Nat.ltb_lt. vm_compute. reflexivity.
Qed.

End AncestorLoop.

(** * Further properties *)

(** ** Strings *)

Section StringFacts.

Local Open Scope nat_scope.

Lemma string_app_assoc (a b c : string) : (a +:+ b) +:+ c = a +:+ (b +:+ c).
Proof.
  induction a as [|x a IH]; [reflexivity |].
  change (String x ((a +:+ b) +:+ c) = String x (a +:+ (b +:+ c))).
  f_equal. exact IH.
Qed.






End StringFacts.

(** ** More on [MustLoadContext] *)

Section IngestionExtras.

Import GoInt ContextLoad.

Lemma run_exit_over maxTokens us : forall t t',
  run maxTokens t us = ExitBudget t' -> maxTokens < totalTokens t'.
Proof.
  induction us as [|u us IH]; intros t t'; cbn [run]; [discriminate |].
  rewrite criticalSection_bump.
  destruct (checkBudget_cases maxTokens (bump u t)) as [[-> Hgt] | [-> _]].
  - intros [= <-]. exact Hgt.
  - apply IH.
Qed.

Lemma run_released_within maxTokens us : forall t t',
  us <> [] -> run maxTokens t us = Released t' -> totalTokens t' <= maxTokens.
Proof.
  induction us as [|u us IH]; intros t t' Hne; [contradiction |].
  cbn [run]. rewrite criticalSection_bump.
  destruct (checkBudget_cases maxTokens (bump u t)) as [[-> _] | [-> Hle]];
    [discriminate |].
  destruct us as [|v us]; [intros [= <-]; exact Hle |].
  apply IH. discriminate.
Qed.

(** X1.  A call that returns has a total within the budget: the
    [totalTokens] it returns, which is also the [ContextTokens] it has
    stored in the plan state, is at most [maxTokens]; and a call that exits
    over budget does so with a total above [maxTokens].  This holds for all
    counts, with the wrap-around of [int]. *)
Theorem returned_total_within_budget (maxTokens : Z) (planState : PlanState)
    (schedule : list WorkUnit) :
  (forall added total planState',
     MustLoadContext maxTokens planState schedule = Returned added total planState' ->
     total <= maxTokens /\ ContextTokens planState' = total)
  /\ (forall t,
        MustLoadContext maxTokens planState schedule = ExitedOverBudget t ->
        maxTokens < totalTokens t).
Proof.
  unfold MustLoadContext. split.
  - intros added total planState'.
    destruct (run maxTokens (initTally planState) schedule) as [t | t] eqn:Hrun;
      [| discriminate].
    destruct schedule as [|u us] eqn:Hs; [discriminate |].
    intros [= _ <- <-]. split; [| reflexivity].
    eapply run_released_within; [| exact Hrun]. discriminate.
  - intros t.
    destruct (run maxTokens (initTally planState) schedule) as [t0 | t0] eqn:Hrun.
    + destruct schedule; discriminate.
    + intros [= <-]. eapply run_exit_over, Hrun.
Qed.

(** The counters after a schedule whose critical sections have all been
    left: the sums of the counts. *)
Lemma run_released_sums (maxTokens : Z) (planState : PlanState)
    (schedule : list WorkUnit) (t : Tally) :
  countersOrdered (ContextTokens planState) (ContextUpdatableTokens planState) ->
  fits (initTally planState) schedule ->
  run maxTokens (initTally planState) schedule = Released t ->
  tokensAdded t = sumTokens schedule /\
  totalTokens t = ContextTokens planState + sumTokens schedule /\
  totalUpdatableTokens t = ContextUpdatableTokens planState + sumUpdatable schedule /\
  (schedule <> [] -> ContextTokens planState + sumTokens schedule <= maxTokens).
Proof.
  intros Hord Hfits Hrun.
  pose proof (run_total maxTokens _ _ Hfits) as Htot.
  pose proof (run_updatable maxTokens _ _ Hfits Hord) as (Hupd & _).
  pose proof (run_added maxTokens (ContextTokens planState)
                (initTally planState) schedule) as Hadd.
  rewrite Hrun in Htot, Hupd, Hadd. cbn [tallyOf] in Htot, Hupd, Hadd.
  rewrite (counted_released _ _ _ _ Hrun) in Htot, Hupd.
  cbn [initTally totalTokens totalUpdatableTokens tokensAdded] in Htot, Hupd, Hadd.
  split; [| split; [exact Htot | split; [exact Hupd |]]].
  - rewrite <- Hadd.
    + rewrite Htot.
      replace (ContextTokens planState + sumTokens schedule - ContextTokens planState)
        with (sumTokens schedule) by lia.
      apply wrap_small.
      destruct Hfits as (Hnn & _ & Hhi).
      pose proof (sumTokens_nonneg _ Hnn).
      cbn [initTally totalTokens] in Hhi.
      unfold countersOrdered in Hord. unfold is_int, min_int. lia.
    + replace (ContextTokens planState - ContextTokens planState) with 0 by lia.
      reflexivity.
  - intros Hne.
    destruct (run_released_iff maxTokens _ _ Hfits)
      as [[_ [Hnil | Hle]] | [[t' Hexit] _]];
      [contradiction | exact Hle | congruence].
Qed.

(** X2.  What the end of a call tells about its units, for non-negative
    counts that fit in [int] and a plan state with
    [0 <= ContextUpdatableTokens <= ContextTokens].  A call that returns
    had at least one unit, returns the sum of all counts and the initial
    total plus that sum, which is within [maxTokens], and has stored that
    total and the initial updatable total plus the updatable counts.  A
    call that exits over budget had units whose counts, added to the
    initial total, exceed [maxTokens].  A call that ends with "no context"
    had no unit.  Nothing is said here about a call that ends for another
    reason, such as a failed request or a failed write. *)
Theorem load_context_outcome (maxTokens : Z) (planState : PlanState)
    (schedule : list WorkUnit) :
  countersOrdered (ContextTokens planState) (ContextUpdatableTokens planState) ->
  fits (initTally planState) schedule ->
  (forall added total planState',
     MustLoadContext maxTokens planState schedule = Returned added total planState' ->
     schedule <> [] /\
     added = sumTokens schedule /\
     total = ContextTokens planState + sumTokens schedule /\
     total <= maxTokens /\
     planState' =
       {| ContextTokens := ContextTokens planState + sumTokens schedule;
          ContextUpdatableTokens :=
            ContextUpdatableTokens planState + sumUpdatable schedule |})
  /\ (forall t,
        MustLoadContext maxTokens planState schedule = ExitedOverBudget t ->
        schedule <> [] /\
        maxTokens < ContextTokens planState + sumTokens schedule)
  /\ (MustLoadContext maxTokens planState schedule = ExitedNoContext ->
      schedule = []).
Proof.
  intros Hord Hfits. unfold MustLoadContext.
  destruct (run maxTokens (initTally planState) schedule) as [t | t] eqn:Hrun.
  - destruct (run_released_sums _ _ _ _ Hord Hfits Hrun)
      as (Hadd & Htot & Hupd & Hle).
    split; [| split].
    + intros added total planState'.
      destruct (decide (schedule = [])) as [Hnil | Hne];
        [rewrite Hnil; discriminate |].
      specialize (Hle Hne).
      destruct schedule as [|u us]; [contradiction |].
      intros [= <- <- <-]. rewrite Hadd, Htot, Hupd.
      split; [exact Hne |]. auto.
    + intros t'. destruct schedule; discriminate.
    + destruct schedule as [|u us]; [reflexivity | discriminate].
  - split; [| split]; try discriminate.
    intros t' _.
    destruct (run_released_iff maxTokens _ _ Hfits)
      as [[Hrel _] | [_ [Hne Hgt]]]; [congruence |].
    split; [exact Hne | exact Hgt].
Qed.

Lemma load_context_outcome_witness :
  countersOrdered 7 3 /\
  MustLoadContext 100 {| ContextTokens := 7; ContextUpdatableTokens := 3 |}
    [{| kind := ContextNoteType; numTokens := 4 |};
     {| kind := ContextURLType; numTokens := 5 |}]
  = Returned 9 16 {| ContextTokens := 16; ContextUpdatableTokens := 8 |} /\
  9 = sumTokens [{| kind := ContextNoteType; numTokens := 4 |};
                 {| kind := ContextURLType; numTokens := 5 |}] /\
  16 <= 100.
Proof.
  assert (H1 : countersOrdered 7 3) by (unfold countersOrdered; lia).
  assert (H2 : fits (initTally {| ContextTokens := 7; ContextUpdatableTokens := 3 |})
    [{| kind := ContextNoteType; numTokens := 4 |};
     {| kind := ContextURLType; numTokens := 5 |}]).
  { unfold fits, min_int, max_int. cbn.
    split; [repeat constructor; cbn; lia | lia]. }
  assert (H3 : MustLoadContext 100 {| ContextTokens := 7; ContextUpdatableTokens := 3 |}
    [{| kind := ContextNoteType; numTokens := 4 |};
     {| kind := ContextURLType; numTokens := 5 |}]
    = Returned 9 16 {| ContextTokens := 16; ContextUpdatableTokens := 8 |})
    by reflexivity.
  split; [exact H1 |]. split; [exact H3 |].
  destruct (proj1 (load_context_outcome 100
                     {| ContextTokens := 7; ContextUpdatableTokens := 3 |} _ H1 H2)
              _ _ _ H3) as (_ & Hadd & _ & Hle & _).
  split; [exact Hadd | exact Hle].
Defined.

Lemma classifyLoop_filter IsValidURL resources : forall inputUrls inputFilePaths,
  classifyLoop IsValidURL resources inputUrls inputFilePaths =
  (inputUrls ++ List.filter IsValidURL resources,
   inputFilePaths ++ List.filter (fun r => negb (IsValidURL r)) resources).
Proof.
  induction resources as [|r rest IH]; intros urls files; cbn [classifyLoop List.filter].
  - rewrite !app_nil_r. reflexivity.
  - destruct (IsValidURL r); cbn [negb]; rewrite IH, <- app_assoc; reflexivity.
Qed.

(** X3.  The resources are split by [url.IsValidURL] without loss: the URLs
    are the resources that pass the test and the file paths those that do
    not, each in the order given, and together they are a permutation of
    the resources. *)
Theorem classify_splits_resources (IsValidURL : string -> bool)
    (resources : list string) :
  classifyResources IsValidURL resources =
    (List.filter IsValidURL resources,
     List.filter (fun r => negb (IsValidURL r)) resources)
  /\ resources ≡ₚ fst (classifyResources IsValidURL resources) ++
                  snd (classifyResources IsValidURL resources).
Proof.
  assert (H : classifyResources IsValidURL resources =
            (List.filter IsValidURL resources,
             List.filter (fun r => negb (IsValidURL r)) resources)).
  { unfold classifyResources. rewrite classifyLoop_filter. reflexivity. }
  split; [exact H |]. rewrite H. cbn [fst snd].
  induction resources as [|r rest IH]; [reflexivity |].
  cbn [List.filter]. destruct (IsValidURL r); cbn [negb].
  - cbn. constructor. apply IH.
    unfold classifyResources. rewrite classifyLoop_filter. reflexivity.
  - rewrite <- Permutation_middle. constructor. apply IH.
    unfold classifyResources. rewrite classifyLoop_filter. reflexivity.
Qed.

Lemma listLoop_spec front last : forall i n msg,
  n = (i + length front + 1)%nat ->
  listLoop (front ++ [last]) i n msg =
  msg +:+ commaList front +:+ ", and " +:+ last.
Proof.
  induction front as [|e rest IH]; intros i n msg Hn; cbn [app listLoop commaList].
  - destruct (Nat.eqb_spec i (n - 1)) as [_ | Hne]; [reflexivity |].
    cbn [length] in Hn. lia.
  - destruct (Nat.eqb_spec i (n - 1)) as [Heq | _].
    + cbn [length] in Hn. lia.
    + rewrite IH by (cbn [length] in Hn; lia).
      rewrite !string_app_assoc. reflexivity.
Qed.

(** X4.  The text of the "Loaded ..." message: one or two items are joined
    with [and]; with three or more items every item but the last is written
    with a comma and a blank in front of it, the first one too, so that the
    message starts with [Loaded , ].  With a note, piped data, file paths
    and URLs the items are these four, with the numbers of path and URL
    arguments. *)
Theorem loaded_message_text :
  (forall a, loadedMessage [a] = "Loaded " +:+ a)
  /\ (forall a b, loadedMessage [a; b] = "Loaded " +:+ a +:+ " and " +:+ b)
  /\ (forall a b rest last,
        loadedMessage (a :: b :: rest ++ [last]) =
        "Loaded , " +:+ a +:+ commaList (b :: rest) +:+ ", and " +:+ last)
  /\ (forall Note NamesOnly path paths u urls,
        Note <> ""%string ->
        loadedMessage (addedList Note true NamesOnly (path :: paths) (u :: urls)) =
        "Loaded , a note, piped data, " +:+
        Itoa (S (length paths)) +:+ " " +:+
        (if NamesOnly
         then (if (1 <=? length paths)%nat then "directory trees" else "directory tree")
         else (if (1 <=? length paths)%nat then "files" else "file")) +:+
        ", and " +:+ Itoa (S (length urls)) +:+ " " +:+
        (if (1 <=? length urls)%nat then "urls" else "url")).
Proof.
  split; [reflexivity |]. split; [reflexivity |]. split.
  - intros a b rest last. unfold loadedMessage.
    replace (length (a :: b :: rest ++ [last]) <=? 2)%nat with false
      by (symmetry; apply Nat.leb_gt; cbn [length]; rewrite length_app; cbn; lia).
    rewrite (listLoop_spec (a :: b :: rest) last 0 _ "Loaded ")
      by (cbn [length]; rewrite length_app; cbn; lia).
    cbn [commaList]. rewrite !string_app_assoc. reflexivity.
  - intros Note NamesOnly path paths u urls HNote. unfold addedList.
    destruct (String.eqb_spec Note "") as [-> | _]; [contradiction |].
    cbn [negb length Nat.ltb Nat.leb app].
    unfold loadedMessage. cbn [length Nat.leb].
    cbn [listLoop Nat.eqb Nat.sub].
    rewrite !string_app_assoc. reflexivity.
Qed.


End IngestionExtras.

(** ** The marker directory and the package variables *)

Section MarkerFacts.

Import filepath.

Lemma cleanLoop_elems_nonempty isRooted elems : forall out,
  Forall (fun e => e <> EmptyString) out ->
  Forall (fun e => e <> EmptyString) (cleanLoop isRooted elems out).
Proof.
  induction elems as [|e rest IH]; intros out Hout; cbn [cleanLoop].
  - apply Forall_rev, Hout.
  - destruct (String.eqb_spec e "") as [_ | Hne]; [apply IH, Hout |].
    destruct (String.eqb e "."); [apply IH, Hout |].
    destruct (String.eqb e "..").
    + destruct out as [|top below].
      * destruct isRooted; apply IH; [exact Hout | constructor; auto].
      * destruct (String.eqb top ".."); apply IH.
        -- constructor; auto.
        -- apply Forall_cons in Hout as [_ Hbelow]. exact Hbelow.
    + apply IH. constructor; auto.
Qed.

Lemma strings_Join_nonempty e rest sep :
  e <> EmptyString -> strings.Join (e :: rest) sep <> EmptyString.
Proof.
  intros He. destruct rest as [|e' rest]; [exact He |].
  change (strings.Join (e :: e' :: rest) sep)
    with (e +:+ sep +:+ strings.Join (e' :: rest) sep).
  destruct e; [contradiction | discriminate].
Qed.

(** [Clean] never returns the empty string. *)
Lemma Clean_nonempty path : Clean path <> EmptyString.
Proof.
  unfold Clean, assemble.
  pose proof (cleanLoop_elems_nonempty (rooted path) (segments path) []
                (List.Forall_nil _)) as Hall.
  destruct (rooted path); [discriminate |].
  destruct (cleanLoop false (segments path) []) as [|e rest]; [discriminate |].
  apply Forall_cons in Hall as [He _]. apply strings_Join_nonempty, He.
Qed.

Lemma Join_last_nonempty dir name :
  name <> EmptyString -> Join [dir; name] <> EmptyString.
Proof.
  intros Hname. unfold Join. cbn [dropEmpty].
  destruct (String.eqb dir "").
  - destruct (String.eqb_spec name "") as [-> | _]; [contradiction |].
    apply Clean_nonempty.
  - apply Clean_nonempty.
Qed.

End MarkerFacts.

Section PackageFacts.

Import Fs.

Lemma markerPath_nonempty w baseDir : markerPath w baseDir <> "".
Proof.
  unfold markerPath. destruct (development w);
    apply Join_last_nonempty; discriminate.
Qed.

Lemma findPlandex_cases w baseDir :
  (Stat w (markerPath w baseDir) = StatNotExist /\ findPlandex w baseDir = "") \/
  (Stat w (markerPath w baseDir) <> StatNotExist /\
   findPlandex w baseDir = markerPath w baseDir).
Proof.
  unfold findPlandex. fold (markerPath w baseDir).
  destruct (Stat w (markerPath w baseDir)); [right | left | right];
    split; try reflexivity; discriminate.
Qed.

(** X6.  [findPlandex] returns the empty string exactly when [os.Stat]
    says that the marker directory of [baseDir] does not exist; in every
    other case, also when [os.Stat] fails for another reason, it returns
    the path of the marker directory, which is never empty.  So the test
    [PlandexDir != ""] of its callers tells the two cases apart. *)
Theorem findPlandex_empty_iff (w : World) (baseDir : string) :
  (findPlandex w baseDir = "" <-> Stat w (markerPath w baseDir) = StatNotExist)
  /\ (findPlandex w baseDir <> "" -> findPlandex w baseDir = markerPath w baseDir)
  /\ (forall err, Stat w (markerPath w baseDir) = StatFailed err ->
        findPlandex w baseDir = markerPath w baseDir).
Proof.
  pose proof (markerPath_nonempty w baseDir) as Hne.
  destruct (findPlandex_cases w baseDir) as [[Hstat Hfind] | [Hstat Hfind]];
    rewrite Hfind.
  - split; [tauto |]. split; [contradiction |].
    intros err Herr. rewrite Herr in Hstat. discriminate.
  - split; [split; [contradiction | intros; contradiction] |].
    split; reflexivity.
Qed.

(** A call of [FindOrCreatePlandex] without error returns the marker
    directory of the working directory, which it leaves in [PlandexDir]. *)
Lemma find_or_create_path (Mkdir : World -> string -> error + World)
    (w w' : World) (pkg pkg' : Package) (dir : string) (created : bool) :
  FindOrCreatePlandex Mkdir w pkg = ((dir, created, None), w', pkg') ->
  dir = markerPath w (Cwd pkg) /\ dir <> "" /\
  PlandexDir pkg' = dir /\ ProjectRoot pkg' = Cwd pkg /\ Cwd pkg' = Cwd pkg.
Proof.
  pose proof (markerPath_nonempty w (Cwd pkg)) as Hne.
  unfold FindOrCreatePlandex. fold (markerPath w (Cwd pkg)).
  destruct (findPlandex_cases w (Cwd pkg)) as [[Hstat Hfind] | [Hstat Hfind]];
    rewrite Hfind.
  - cbn [String.eqb negb].
    destruct (Mkdir w (markerPath w (Cwd pkg))) as [err | w1];
      [intros H; discriminate H |].
    intros [= <- <- <- <-]. cbn. auto 10.
  - destruct (String.eqb_spec (markerPath w (Cwd pkg)) "") as [Heq | _];
      [contradiction |].
    cbn [negb]. intros [= <- <- <- <-]. cbn. auto 10.
Qed.

(** X7.  What [FindOrCreatePlandex] returns without error is the marker
    directory of the working directory, never the empty string, and it
    leaves [PlandexDir] at that path and [ProjectRoot] at the working
    directory.  It reports [created = false] when the directory was there,
    and then has not called [os.Mkdir]; it reports [created = true] when it
    was not there and [os.Mkdir] made it.  With an error it returns the
    empty path and leaves [ProjectRoot] as it was. *)
Theorem find_or_create_result (Mkdir : World -> string -> error + World)
    (w : World) (pkg : Package) :
  (forall dir created w' pkg',
     FindOrCreatePlandex Mkdir w pkg = ((dir, created, None), w', pkg') ->
     dir = markerPath w (Cwd pkg) /\ dir <> "" /\
     PlandexDir pkg' = dir /\ ProjectRoot pkg' = Cwd pkg /\ Cwd pkg' = Cwd pkg /\
     (if created
      then Stat w dir = StatNotExist /\ Mkdir w dir = inr w'
      else Stat w dir <> StatNotExist /\ w' = w))
  /\ (forall dir created err w' pkg',
        FindOrCreatePlandex Mkdir w pkg = ((dir, created, Some err), w', pkg') ->
        dir = "" /\ created = false /\ w' = w /\
        Mkdir w (markerPath w (Cwd pkg)) = inl err /\
        PlandexDir pkg' = "" /\ ProjectRoot pkg' = ProjectRoot pkg).
Proof.
  pose proof (markerPath_nonempty w (Cwd pkg)) as Hne.
  unfold FindOrCreatePlandex. fold (markerPath w (Cwd pkg)).
  destruct (findPlandex_cases w (Cwd pkg)) as [[Hstat Hfind] | [Hstat Hfind]];
    rewrite Hfind.
  - cbn [String.eqb negb].
    destruct (Mkdir w (markerPath w (Cwd pkg))) as [err | w1] eqn:Hmk; split.
    + intros dir created w' pkg' H. discriminate H.
    + intros dir created err' w' pkg' [= <- <- <- <- <-]. cbn. auto 10.
    + intros dir created w' pkg' [= <- <- <- <-]. cbn. auto 10.
    + intros dir created err' w' pkg' H. discriminate H.
  - destruct (String.eqb_spec (markerPath w (Cwd pkg)) "") as [Heq | _];
      [contradiction |].
    cbn [negb]. split.
    + intros dir created w' pkg' [= <- <- <- <-]. cbn. auto 10.
    + intros dir created err w' pkg' H. discriminate H.
Qed.

(** X8.  When [FindOrCreatePlandex] has made the marker directory, and
    [os.Stat] finds it afterwards in the same environment, a second call
    returns the same path with [created = false] and changes neither the
    world nor the package variables. *)
Theorem find_or_create_again (Mkdir : World -> string -> error + World)
    (w w' : World) (pkg pkg' : Package) (dir : string) :
  FindOrCreatePlandex Mkdir w pkg = ((dir, true, None), w', pkg') ->
  development w' = development w ->
  Stat w' dir <> StatNotExist ->
  FindOrCreatePlandex Mkdir w' pkg' = ((dir, false, None), w', pkg').
Proof.
  intros Hfirst Hdev Hstat.
  destruct (find_or_create_path _ _ _ _ _ _ _ Hfirst)
    as (Hdir & Hne & Hpd & Hroot & Hcwd).
  assert (Hmarker : markerPath w' (Cwd pkg') = dir).
  { unfold markerPath in *. rewrite Hdev, Hcwd. auto. }
  unfold FindOrCreatePlandex.
  destruct (findPlandex_cases w' (Cwd pkg')) as [[Hs _] | [_ Hfind]].
  - rewrite Hmarker in Hs. contradiction.
  - rewrite Hfind, Hmarker.
    destruct (String.eqb_spec dir "") as [Heq | _]; [contradiction |].
    cbn [negb]. destruct pkg' as [c p r]. cbn in *. subst. reflexivity.
Qed.

Lemma find_or_create_again_witness :
  FindOrCreatePlandex (mkdirIn "/a/b") strayWorld (initPackage strayWorld "/a/b")
  = (("/a/b/.plandex", true, None),
     match mkdirIn "/a/b" strayWorld "/a/b/.plandex" with
     | inr w' => w' | inl _ => strayWorld end,
     {| Cwd := "/a/b"; PlandexDir := "/a/b/.plandex"; ProjectRoot := "/a/b" |})
  /\ FindOrCreatePlandex (mkdirIn "/a/b")
       match mkdirIn "/a/b" strayWorld "/a/b/.plandex" with
       | inr w' => w' | inl _ => strayWorld end
       {| Cwd := "/a/b"; PlandexDir := "/a/b/.plandex"; ProjectRoot := "/a/b" |}
     = (("/a/b/.plandex", false, None),
        match mkdirIn "/a/b" strayWorld "/a/b/.plandex" with
        | inr w' => w' | inl _ => strayWorld end,
        {| Cwd := "/a/b"; PlandexDir := "/a/b/.plandex"; ProjectRoot := "/a/b" |}).
Proof.
  assert (H : FindOrCreatePlandex (mkdirIn "/a/b") strayWorld
                (initPackage strayWorld "/a/b")
    = (("/a/b/.plandex", true, None),
       match mkdirIn "/a/b" strayWorld "/a/b/.plandex" with
       | inr w' => w' | inl _ => strayWorld end,
       {| Cwd := "/a/b"; PlandexDir := "/a/b/.plandex"; ProjectRoot := "/a/b" |}))
    by (vm_compute; reflexivity).
  split; [exact H |].
  apply (find_or_create_again (mkdirIn "/a/b") strayWorld _
           (initPackage strayWorld "/a/b") _ "/a/b/.plandex" H).
  - reflexivity.
  - vm_compute. discriminate.
Defined.

(** X9.  After [init] in a working directory with a non-empty path,
    [GetProjectPaths] fails with "no project root found" exactly when the
    marker directory does not exist there, and is [GetPaths] for the
    working directory otherwise; [ProjectRootIsGitRepo] is [false] in the
    first case and asks git about the working directory in the second. *)
Theorem project_paths_need_marker (w : World) (cwd baseDir : string) :
  cwd <> "" ->
  (Stat w (markerPath w cwd) = StatNotExist ->
   GetProjectPaths w (initPackage w cwd) baseDir = Err (Errorf "no project root found") /\
   ProjectRootIsGitRepo w (initPackage w cwd) = false)
  /\ (Stat w (markerPath w cwd) <> StatNotExist ->
      GetProjectPaths w (initPackage w cwd) baseDir = GetPaths w baseDir cwd /\
      ProjectRootIsGitRepo w (initPackage w cwd) = IsGitRepo w cwd).
Proof.
  intros Hcwd.
  pose proof (markerPath_nonempty w cwd) as Hne.
  unfold GetProjectPaths, ProjectRootIsGitRepo, initPackage. cbn [ProjectRoot].
  destruct (findPlandex_cases w cwd) as [[Hstat Hfind] | [Hstat Hfind]];
    rewrite Hfind; split; intros Hs; try contradiction.
  - split; reflexivity.
  - destruct (String.eqb_spec (markerPath w cwd) "") as [Heq | _]; [contradiction |].
    cbn [negb].
    destruct (String.eqb_spec cwd "") as [Heq | _]; [contradiction |].
    split; reflexivity.
Qed.

Lemma project_paths_need_marker_witness :
  GetProjectPaths strayWorld (initPackage strayWorld "/a/b") "/a/b"
  = Err (Errorf "no project root found").
Proof.
  assert (Hcwd : "/a/b" <> "") by discriminate.
  refine (proj1 (proj1 (project_paths_need_marker strayWorld "/a/b" "/a/b" Hcwd) _)).
  vm_compute. reflexivity.
Defined.

End PackageFacts.

(** ** More on the base directory *)

Section BaseDirExtras.

Import Fs.

Local Open Scope nat_scope.

Lemma baseDir_closed ProjectRoot paths :
  GetBaseDirForFilePaths ProjectRoot paths =
  Nat.iter (max_list (leadingUps <$> paths)) filepath.Dir ProjectRoot.
Proof.
  unfold GetBaseDirForFilePaths.
  rewrite (baseDirLoop_spec ProjectRoot paths 0 ProjectRoot eq_refl).
  reflexivity.
Qed.

Lemma max_ups_app l1 l2 :
  max_list (leadingUps <$> (l1 ++ l2)) =
  max_list (leadingUps <$> l1) `max` max_list (leadingUps <$> l2).
Proof.
  induction l1 as [|p l1 IH]; [reflexivity |].
  cbn [app fmap list_fmap max_list]. cbn [fmap] in IH. rewrite IH.
  unfold id. lia.
Qed.

Lemma contextPaths_spec contexts : forall paths,
  contextPaths contexts paths =
  paths ++ List.filter (fun p => negb (String.eqb p "")) (FilePath <$> contexts).
Proof.
  induction contexts as [|c rest IH]; intros paths;
    cbn [contextPaths fmap list_fmap List.filter].
  - rewrite app_nil_r. reflexivity.
  - cbn [fmap] in IH.
    destruct (negb (String.eqb (FilePath c) "")); rewrite IH;
      [rewrite <- app_assoc |]; reflexivity.
Qed.

Lemma max_ups_filter_nonempty paths :
  max_list (leadingUps <$> List.filter (fun p => negb (String.eqb p "")) paths) =
  max_list (leadingUps <$> paths).
Proof.
  induction paths as [|p rest IH]; [reflexivity |].
  cbn [List.filter]. destruct (String.eqb_spec p "") as [-> | _]; cbn [negb].
  - cbn [fmap list_fmap max_list]. cbn [fmap] in IH. rewrite IH. reflexivity.
  - cbn [fmap list_fmap max_list]. cbn [fmap] in IH. rewrite IH. reflexivity.
Qed.

(** X10.  [GetBaseDirForContexts] is [GetBaseDirForFilePaths] of the file
    paths of the contexts: leaving out the contexts without a file path
    makes no difference.  The base directory does not depend on the order
    of the paths, and with more paths it is the same directory or one
    further up. *)
Theorem base_dir_for_contexts :
  (forall ProjectRoot contexts,
     GetBaseDirForContexts ProjectRoot contexts =
     GetBaseDirForFilePaths ProjectRoot (FilePath <$> contexts))
  /\ (forall ProjectRoot paths paths',
        paths ≡ₚ paths' ->
        GetBaseDirForFilePaths ProjectRoot paths =
        GetBaseDirForFilePaths ProjectRoot paths')
  /\ (forall ProjectRoot paths more,
        exists k,
          GetBaseDirForFilePaths ProjectRoot (paths ++ more) =
          Nat.iter k filepath.Dir (GetBaseDirForFilePaths ProjectRoot paths)).
Proof.
  split; [| split].
  - intros ProjectRoot contexts. unfold GetBaseDirForContexts.
    rewrite !baseDir_closed, contextPaths_spec. cbn [app].
    rewrite max_ups_filter_nonempty. reflexivity.
  - intros ProjectRoot paths paths' Hp. rewrite !baseDir_closed.
    f_equal. apply max_list_with_Permutation_proper.
    apply fmap_Permutation, Hp.
  - intros ProjectRoot paths more.
    exists (max_list (leadingUps <$> (paths ++ more)) -
            max_list (leadingUps <$> paths)).
    rewrite !baseDir_closed, <- Nat.iter_add. f_equal.
    rewrite max_ups_app. lia.
Qed.

End BaseDirExtras.

(** ** More on path enumeration *)

Section PathExtras.

Import Fs.

Variables (baseDir currentDir : string) (ignored : option GitIgnore).

Lemma allTrue_empty : allTrue ∅.
Proof. intros k v Hk. rewrite lookup_empty in Hk. discriminate. Qed.

Lemma allTrue_insert k m : allTrue m -> allTrue (<[k := true]> m).
Proof.
  intros Hm j v Hj. destruct (decide (k = j)) as [<- | Hne].
  - rewrite lookup_insert_eq in Hj. congruence.
  - rewrite lookup_insert_ne in Hj by exact Hne. eauto.
Qed.

Lemma addListed_allTrue files : forall s s',
  addListed baseDir currentDir ignored files s = inr s' ->
  allTrue (paths s) -> allTrue (paths s').
Proof.
  induction files as [|file rest IH]; intros s s'; cbn [addListed].
  - intros [= <-]. auto.
  - destruct (filepath.Rel currentDir (filepath.Join [baseDir; file]))
      as [relFile|]; [| discriminate].
    destruct (isIgnored ignored relFile); intros Hrun Hs;
      apply (IH _ _ Hrun); cbn [paths]; auto using allTrue_insert.
Qed.

Lemma addListed_relative files : forall s s',
  addListed baseDir currentDir ignored files s = inr s' ->
  forall file, file ∈ files ->
    is_Some (filepath.Rel currentDir (filepath.Join [baseDir; file])).
Proof.
  induction files as [|file rest IH]; intros s s' Hrun f Hf.
  - apply elem_of_nil in Hf. contradiction.
  - cbn [addListed] in Hrun.
    destruct (filepath.Rel currentDir (filepath.Join [baseDir; file]))
      as [relFile|] eqn:Hrel; [| discriminate].
    apply elem_of_cons in Hf as [-> | Hf]; [rewrite Hrel; eauto |].
    destruct (isIgnored ignored relFile); eapply IH; eauto.
Qed.

Lemma accepts_elem files file k :
  file ∈ files ->
  filepath.Rel currentDir (filepath.Join [baseDir; file]) = Some k ->
  isIgnored ignored k = false ->
  accepts baseDir currentDir ignored files k = true.
Proof.
  intros Hf Hrel Hig. unfold accepts. apply existsb_exists.
  exists file. split; [apply list_elem_of_In, Hf |].
  rewrite Hrel, Hig, String.eqb_refl. reflexivity.
Qed.

Lemma accepts_subset files1 files2 k :
  (forall file, file ∈ files2 -> file ∈ files1) ->
  accepts baseDir currentDir ignored files2 k = true ->
  accepts baseDir currentDir ignored files1 k = true.
Proof.
  intros Hsub. unfold accepts. rewrite !existsb_exists.
  intros (file & Hin & Hok). exists file. split; [| exact Hok].
  apply list_elem_of_In, Hsub, list_elem_of_In, Hin.
Qed.

Lemma pathsWalkFn_allTrue isGitRepo path info err s s' ret :
  allTrue (paths s) /\ allTrue (dirs s) ->
  pathsWalkFn currentDir ignored isGitRepo path info err s = CbRet s' ret ->
  allTrue (paths s') /\ allTrue (dirs s').
Proof.
  intros [Hp Hd]. unfold pathsWalkFn.
  destruct err as [err|]; [intros [= <- <-]; auto |].
  destruct info as [info|]; [| discriminate].
  destruct (IsDir info).
  - destruct (filepath.Rel currentDir path) as [rel|]; [| intros [= <- <-]; auto].
    destruct (isIgnored ignored rel); intros [= <- <-]; cbn [paths dirs];
      auto using allTrue_insert.
  - destruct (negb isGitRepo); [| intros [= <- <-]; auto].
    destruct (filepath.Rel currentDir path) as [rel|]; [| intros [= <- <-]; auto].
    destruct (isIgnored ignored rel); intros [= <- <-]; cbn [paths dirs];
      auto using allTrue_insert.
Qed.

Lemma walkProducer_allTrue isGitRepo tree s s' :
  allTrue (paths s) -> allTrue (dirs s) ->
  walkProducer baseDir currentDir ignored isGitRepo tree s = Ok s' ->
  allTrue (paths s') /\ allTrue (dirs s').
Proof.
  intros Hp Hd. unfold walkProducer.
  destruct (Walk _ baseDir tree s) as [s1 [err|] | msg] eqn:Hw; try discriminate.
  intros [= <-].
  apply (Walk_preserves (pathsWalkFn currentDir ignored isGitRepo)
           (fun s => allTrue (paths s) /\ allTrue (dirs s))
           (fun path info err s s' ret H E =>
              pathsWalkFn_allTrue isGitRepo path info err s s' ret H E)
           tree baseDir s s1 None (conj Hp Hd) Hw).
Qed.

(** X13.  A listing whose lines all occur in a listing that has been added
    before adds nothing: a file that git lists as tracked and as untracked
    is in the map [paths] once. *)
Theorem repeated_listing_adds_nothing (what1 what2 : string)
    (out1 out2 : error + string) (s0 s1 s2 : PathSets) :
  (forall file, file ∈ listed out2 -> file ∈ listed out1) ->
  listProducer what1 baseDir currentDir ignored out1 s0 = inr s1 ->
  listProducer what2 baseDir currentDir ignored out2 s1 = inr s2 ->
  paths s2 = paths s1 /\ dirs s2 = dirs s1.
Proof.
  intros Hsub H1 H2.
  pose proof (listProducer_spec _ _ _ _ _ _ _ H2) as (D2 & _).
  split; [| exact D2].
  unfold listProducer, listed in *.
  destruct out1 as [e1 | out1]; [discriminate |].
  destruct out2 as [e2 | out2]; [discriminate |].
  apply map_eq. intros k.
  rewrite (addListed_lookup _ _ _ _ _ _ H2 k).
  destruct (accepts baseDir currentDir ignored
              (strings.SplitChar (ascii_of_nat 10) out2) k) eqn:Hacc;
    [| reflexivity].
  rewrite (addListed_lookup _ _ _ _ _ _ H1 k).
  rewrite (accepts_subset _ _ k Hsub Hacc). reflexivity.
Qed.

End PathExtras.

Section PathExtraTheorems.

Import Fs.

Lemma listing_order_irrelevant_witness :
  exists s2 t2 : PathSets,
    listProducer "a: " "/p" "/p" None (inr "x.go")
      match listProducer "b: " "/p" "/p" None (inr "y.go") noPaths with
      | inr s => s | inl _ => noPaths end = inr s2 /\
    listProducer "b: " "/p" "/p" None (inr "y.go")
      match listProducer "a: " "/p" "/p" None (inr "x.go") noPaths with
      | inr s => s | inl _ => noPaths end = inr t2 /\
    paths s2 = paths t2.
Proof.
  eexists. eexists.
  split; [vm_compute; reflexivity |]. split; [vm_compute; reflexivity |].
  refine (proj1 (listing_order_irrelevant "/p" "/p" None "a: " "b: "
                   (inr "x.go") (inr "y.go") noPaths _ _ _ _ _ _ _ _)).
  - vm_compute. reflexivity.
  - vm_compute. reflexivity.
  - vm_compute. reflexivity.
  - vm_compute. reflexivity.
Defined.

Lemma repeated_listing_adds_nothing_witness :
  exists s1 s2 : PathSets,
    listProducer "a: " "/p" "/p" None (inr "x.go") noPaths = inr s1 /\
    listProducer "b: " "/p" "/p" None (inr "x.go") s1 = inr s2 /\
    paths s2 = paths s1.
Proof.
  eexists. eexists.
  split; [vm_compute; reflexivity |]. split; [vm_compute; reflexivity |].
  refine (proj1 (repeated_listing_adds_nothing "/p" "/p" None "a: " "b: "
                   (inr "x.go") (inr "x.go") noPaths _ _ (fun file H => H) _ _)).
  - vm_compute. reflexivity.
  - vm_compute. reflexivity.
Defined.

(** X11.  Every value in the map that [GetPaths] returns is [true]: a path
    is in the map, with [true], or not in it at all. *)
Theorem returned_paths_all_true (w : World) (baseDir currentDir : string)
    (ps : gmap string bool) (ig : option GitIgnore) :
  GetPaths w baseDir currentDir = Ok (ps, ig) ->
  forall k v, ps !! k = Some v -> v = true.
Proof.
  unfold GetPaths.
  destruct (GetPlandexIgnore w currentDir) as [err | ignored]; [discriminate |].
  destruct (producers baseDir currentDir ignored _ _ _ _) as [s | err | msg] eqn:Hprod;
    try discriminate.
  intros [= <- <-] k v.
  assert (Hs : allTrue (paths s) /\ allTrue (dirs s)).
  { unfold producers in Hprod.
    destruct (IsGitRepo w baseDir).
    - destruct (listProducer _ baseDir currentDir ignored (GitLsFiles w baseDir) noPaths)
        as [err | s1] eqn:H1; [discriminate |].
      destruct (listProducer _ baseDir currentDir ignored (GitLsOthers w baseDir) s1)
        as [err | s2] eqn:H2; [discriminate |].
      pose proof (listProducer_spec _ _ _ _ _ _ _ H1) as (D1 & _).
      pose proof (listProducer_spec _ _ _ _ _ _ _ H2) as (D2 & _).
      unfold listProducer in H1, H2.
      destruct (GitLsFiles w baseDir) as [e1 | out1]; [discriminate |].
      destruct (GitLsOthers w baseDir) as [e2 | out2]; [discriminate |].
      eapply walkProducer_allTrue; [| | exact Hprod].
      + eapply addListed_allTrue; [exact H2 |].
        eapply addListed_allTrue; [exact H1 |]. apply allTrue_empty.
      + rewrite D2, D1. apply allTrue_empty.
    - eapply walkProducer_allTrue; [| | exact Hprod]; apply allTrue_empty. }
  destruct Hs as [Hp Hd]. rewrite mergeDirs_lookup.
  destruct (dirs s !! k); [congruence | apply Hp].
Qed.

Lemma returned_paths_all_true_witness :
  GetPaths gitWorld "/p" "/p" = Ok (gitPaths, Some gitIgnore) /\
  forall k v, gitPaths !! k = Some v -> v = true.
Proof.
  assert (H : GetPaths gitWorld "/p" "/p" = Ok (gitPaths, Some gitIgnore))
    by (vm_compute; reflexivity).
  split; [exact H |].
  exact (returned_paths_all_true gitWorld "/p" "/p" gitPaths (Some gitIgnore) H).
Defined.

(** X14.  Under version control [GetPaths] returns only when both git
    commands have succeeded and every line they printed could be made
    relative to [currentDir]; and then every listed line whose relative
    path is not ignored is among the returned paths. *)
Theorem listed_files_are_returned (w : World) (baseDir currentDir : string)
    (ps : gmap string bool) (ig : option GitIgnore) :
  IsGitRepo w baseDir = true ->
  GetPaths w baseDir currentDir = Ok (ps, ig) ->
  exists out1 out2,
    GitLsFiles w baseDir = inr out1 /\ GitLsOthers w baseDir = inr out2 /\
    forall file,
      file ∈ listed (inr out1) \/ file ∈ listed (inr out2) ->
      exists relFile,
        filepath.Rel currentDir (filepath.Join [baseDir; file]) = Some relFile /\
        (isIgnored ig relFile = false -> ps !! relFile = Some true).
Proof.
  intros Hgit. unfold GetPaths.
  destruct (GetPlandexIgnore w currentDir) as [err | ignored]; [discriminate |].
  destruct (producers baseDir currentDir ignored _ _ _ _) as [s | err | msg] eqn:Hprod;
    try discriminate.
  intros [= <- <-].
  unfold producers in Hprod. rewrite Hgit in Hprod.
  destruct (listProducer _ baseDir currentDir ignored (GitLsFiles w baseDir) noPaths)
    as [err | s1] eqn:H1; [discriminate |].
  destruct (listProducer _ baseDir currentDir ignored (GitLsOthers w baseDir) s1)
    as [err | s2] eqn:H2; [discriminate |].
  unfold listProducer in H1, H2.
  destruct (GitLsFiles w baseDir) as [e1 | out1]; [discriminate |].
  destruct (GitLsOthers w baseDir) as [e2 | out2]; [discriminate |].
  exists out1, out2. split; [reflexivity |]. split; [reflexivity |].
  apply walkProducer_git_paths in Hprod.
  intros file Hfile. cbn [listed] in Hfile.
  assert (Hrel : is_Some (filepath.Rel currentDir (filepath.Join [baseDir; file]))).
  { destruct Hfile as [Hf | Hf];
      [eapply addListed_relative; [exact H1 | exact Hf]
      | eapply addListed_relative; [exact H2 | exact Hf]]. }
  destruct Hrel as [relFile Hrel]. exists relFile. split; [exact Hrel |].
  intros Hig. rewrite mergeDirs_lookup.
  destruct (dirs s !! relFile); [reflexivity |].
  rewrite Hprod, (addListed_lookup _ _ _ _ _ _ H2 relFile).
  destruct (accepts baseDir currentDir ignored
              (strings.SplitChar (ascii_of_nat 10) out2) relFile) eqn:Hacc2;
    [reflexivity |].
  rewrite (addListed_lookup _ _ _ _ _ _ H1 relFile).
  destruct Hfile as [Hf | Hf].
  - rewrite (accepts_elem _ _ _ _ _ _ Hf Hrel Hig). reflexivity.
  - rewrite (accepts_elem _ _ _ _ _ _ Hf Hrel Hig) in Hacc2. discriminate.
Qed.

Lemma listed_files_are_returned_witness :
  IsGitRepo gitWorld "/p" = true /\
  GetPaths gitWorld "/p" "/p" = Ok (gitPaths, Some gitIgnore) /\
  exists out1 out2,
    GitLsFiles gitWorld "/p" = inr out1 /\ GitLsOthers gitWorld "/p" = inr out2.
Proof.
  assert (H : GetPaths gitWorld "/p" "/p" = Ok (gitPaths, Some gitIgnore))
    by (vm_compute; reflexivity).
  split; [reflexivity |]. split; [exact H |].
  destruct (listed_files_are_returned gitWorld "/p" "/p" gitPaths
              (Some gitIgnore) eq_refl H) as (out1 & out2 & H1 & H2 & _).
  exists out1, out2. split; assumption.
Defined.

End PathExtraTheorems.

(** ** More on the project searches *)

Section SearchExtras.

Import Fs.

Lemma parent_search_ends_witness :
  filepath.rooted "/home/u/work/app" = true /\
  GetParentProjectIdsWithPaths lineageWorld "/home/u/work/app" <> None.
Proof.
  assert (H : filepath.rooted "/home/u/work/app" = true) by reflexivity.
  split; [exact H |].
  exact (parent_search_ends lineageWorld "/home/u/work/app" H).
Defined.

(** The settings path that the searches build for a directory is the
    settings file in its marker directory whenever that directory is
    there; when it is missing the path is the relative [project.json]. *)
Lemma stray_settings_path w dir :
  Stat w "project.json" <> StatOk ->
  Stat w (filepath.Join [findPlandex w dir; "project.json"]) = StatOk ->
  Stat w (markerPath w dir) <> StatNotExist /\
  filepath.Join [findPlandex w dir; "project.json"] = projectFile w dir.
Proof.
  intros Hstray. unfold projectFile.
  destruct (findPlandex_cases w dir) as [[Hs ->] | [Hs ->]].
  - assert (Hrel : filepath.Join [""; "project.json"] = "project.json")
      by (vm_compute; reflexivity).
    rewrite Hrel. intros H. contradiction.
  - auto.
Qed.

Lemma marked_settings_path w dir :
  Stat w (markerPath w dir) <> StatNotExist ->
  filepath.Join [findPlandex w dir; "project.json"] = projectFile w dir.
Proof.
  intros Hs. unfold projectFile.
  destruct (findPlandex_cases w dir) as [[Hs' _] | [_ ->]];
    [contradiction | reflexivity].
Qed.

Lemma Dir_iter_root k : Nat.iter k filepath.Dir "/" = "/".
Proof.
  induction k as [|k IH]; [reflexivity |].
  rewrite Nat.iter_succ, IH. vm_compute. reflexivity.
Qed.

Lemma fmap_iter_shift d (ks : list nat) :
  (fun k => Nat.iter k filepath.Dir d) <$> (S <$> ks) =
  (fun k => Nat.iter k filepath.Dir (filepath.Dir d)) <$> ks.
Proof.
  induction ks as [|k ks IH]; [reflexivity |].
  rewrite !fmap_cons, IH, Nat.iter_succ_r. reflexivity.
Qed.

Lemma sorted_succ (ks : list nat) :
  StronglySorted lt ks -> StronglySorted lt (0%nat :: (S <$> ks)).
Proof.
  intros Hs. constructor.
  - apply (StronglySorted_fmap S lt lt); [intros x y; lia | exact Hs].
  - apply Forall_fmap, Forall_forall. intros k _. cbn. lia.
Qed.

(** The loop of the parent search, when no [project.json] is found at the
    relative path: what it appends are the projects among the directories
    it passes, in the order in which it passes them. *)
Lemma parentLoop_exact w fuel :
  Stat w "project.json" <> StatOk ->
  forall d acc l,
    parentLoop w fuel d acc = Some (Ok l) ->
    exists found ks,
      l = List.app acc found /\
      StronglySorted lt ks /\
      fst <$> found = (fun k => Nat.iter k filepath.Dir d) <$> ks /\
      (forall p id, (p, id) ∈ found <->
         (exists k, p = Nat.iter k filepath.Dir d /\ p <> "/") /\
         holdsProject w p id).
Proof.
  intros Hstray. induction fuel as [|fuel IH]; intros d acc l; [discriminate |].
  cbn [parentLoop].
  destruct (String.eqb_spec d "/") as [-> | Hd].
  - intros [= <-]. exists [], []. split; [symmetry; apply app_nil_r |].
    split; [constructor |]. split; [reflexivity |].
    intros p id. split.
    + intros H. apply elem_of_nil in H. contradiction.
    + intros [(k & -> & Hne) _]. rewrite Dir_iter_root in Hne. contradiction.
  - set (sp := filepath.Join [findPlandex w d; "project.json"]).
    assert (Hskip : Stat w sp <> StatOk ->
              parentLoop w fuel (filepath.Dir d) acc = Some (Ok l) ->
              exists found ks,
                l = List.app acc found /\
                StronglySorted lt ks /\
                fst <$> found = (fun k => Nat.iter k filepath.Dir d) <$> ks /\
                (forall p id, (p, id) ∈ found <->
                   (exists k, p = Nat.iter k filepath.Dir d /\ p <> "/") /\
                   holdsProject w p id)).
    { intros Hno Hrun.
      destruct (IH _ _ _ Hrun) as (found & ks & -> & Hs & Hf & Hiff).
      exists found, (S <$> ks). split; [reflexivity |].
      split; [apply (StronglySorted_fmap S lt lt); [intros x y; lia | exact Hs] |].
      split; [rewrite fmap_iter_shift; exact Hf |].
      intros p id. rewrite Hiff. split.
      - intros [(k & Hp & Hne) Hh]. split; [| exact Hh].
        exists (S k). split; [rewrite Nat.iter_succ_r; exact Hp | exact Hne].
      - intros [(k & Hp & Hne) Hh]. destruct k as [|k].
        + exfalso. change (p = d) in Hp. subst p.
          destruct Hh as (Hm & Hst & _).
          rewrite <- (marked_settings_path w d Hm) in Hst. contradiction.
        + split; [| exact Hh].
          exists k. split; [rewrite <- Nat.iter_succ_r; exact Hp | exact Hne]. }
    destruct (Stat w sp) eqn:Hstat; try (apply Hskip; discriminate).
    clear Hskip.
    destruct (ReadFile w sp) as [err | bytes] eqn:Hread; [discriminate |].
    destruct (UnmarshalId w bytes) as [id0|] eqn:Hid; [| discriminate].
    intros Hrun. destruct (IH _ _ _ Hrun) as (found & ks & -> & Hs & Hf & Hiff).
    destruct (stray_settings_path w d Hstray Hstat) as [Hmark Hsp].
    fold sp in Hsp.
    exists ((d, id0) :: found), (0%nat :: (S <$> ks)).
    split; [rewrite <- app_assoc; reflexivity |].
    split; [apply sorted_succ, Hs |].
    split; [rewrite !fmap_cons, fmap_iter_shift, Hf; reflexivity |].
    intros p id. rewrite elem_of_cons, Hiff. split.
    + intros [Heq | [(k & Hp & Hne) Hh]].
      * injection Heq as -> ->.
        split; [exists 0%nat; split; [reflexivity | exact Hd] |].
        split; [exact Hmark |]. rewrite <- Hsp. split; [exact Hstat |].
        exists bytes. split; [exact Hread | exact Hid].
      * split; [| exact Hh].
        exists (S k). split; [rewrite Nat.iter_succ_r; exact Hp | exact Hne].
    + intros [(k & Hp & Hne) Hh]. destruct k as [|k].
      * left. change (p = d) in Hp. subst p.
        destruct Hh as (Hm & _ & bytes' & Hr & Hu).
        rewrite <- Hsp, Hread in Hr. injection Hr as <-.
        rewrite Hid in Hu. injection Hu as <-. reflexivity.
      * right. split; [| exact Hh].
        exists k. split; [rewrite <- Nat.iter_succ_r; exact Hp | exact Hne].
Qed.

(** X16.  Provided that no [project.json] is found at the relative path
    (the case in which the search reads a stray file): when
    [GetParentProjectIdsWithPaths] returns a list, its pairs are exactly
    the directories above the working directory, the root apart, that are
    projects, each with the identifier in its settings file; and they
    come in the order of their distance from the working directory, the
    nearest first. *)
Theorem parent_search_lists_ancestors (w : World) (Cwd : string)
    (l : list (string * string)) :
  Stat w "project.json" <> StatOk ->
  GetParentProjectIdsWithPaths w Cwd = Some (Ok l) ->
  (forall p id, (p, id) ∈ l <-> properAncestor Cwd p /\ holdsProject w p id)
  /\ exists ks : list nat,
       StronglySorted lt ks /\
       fst <$> l = (fun k => Nat.iter (S k) filepath.Dir Cwd) <$> ks.
Proof.
  intros Hstray Hrun. unfold GetParentProjectIdsWithPaths in Hrun.
  destruct (parentLoop_exact w _ Hstray _ _ _ Hrun)
    as (found & ks & -> & Hs & Hf & Hiff).
  cbn [List.app]. split.
  - intros p id. rewrite Hiff. unfold properAncestor.
    split; intros [(k & Hp & Hne) Hh]; (split; [| exact Hh]); exists k;
      (split; [| exact Hne]).
    + rewrite Nat.iter_succ_r. exact Hp.
    + rewrite <- Nat.iter_succ_r. exact Hp.
  - exists ks. split; [exact Hs |]. rewrite Hf. clear.
    induction ks as [|k ks IH]; [reflexivity |].
    rewrite !fmap_cons, IH, <- Nat.iter_succ_r. reflexivity.
Qed.

Lemma parent_search_lists_ancestors_witness :
  Stat lineageWorld "project.json" <> StatOk /\
  GetParentProjectIdsWithPaths lineageWorld "/home/u/work/app"
    = Some (Ok [("/home/u/work", "id-work")]) /\
  properAncestor "/home/u/work/app" "/home/u/work" /\
  holdsProject lineageWorld "/home/u/work" "id-work".
Proof.
  assert (H0 : Stat lineageWorld "project.json" <> StatOk)
    by (vm_compute; discriminate).
  assert (H : GetParentProjectIdsWithPaths lineageWorld "/home/u/work/app"
              = Some (Ok [("/home/u/work", "id-work")]))
    by (vm_compute; reflexivity).
  split; [exact H0 |]. split; [exact H |].
  apply (proj1 (parent_search_lists_ancestors lineageWorld "/home/u/work/app"
                  _ H0 H) "/home/u/work" "id-work").
  apply list_elem_of_singleton. reflexivity.
Defined.

Variables (w : World) (Cwd : string) (ctxDone : nat -> bool).



Lemma childWalkFn_hidden path info st :
  strings.HasPrefix (Name info) "." = true ->
  childWalkFn w Cwd ctxDone path (Some info) None st =
  if IsDir info then CbRet st (Some SkipDir) else CbRet st None.
Proof. intros Hh. unfold childWalkFn. rewrite Hh. reflexivity. Qed.



Lemma childWalkFn_sound path info err st st' ret :
  Stat w "project.json" <> StatOk ->
  projectsFound w Cwd st ->
  childWalkFn w Cwd ctxDone path info err st = CbRet st' ret ->
  projectsFound w Cwd st'.
Proof.
  intros Hstray Hst. unfold childWalkFn.
  destruct err as [err|].
  - destruct (IsPermission err); [| intros [= <- <-]; exact Hst].
    destruct info as [info|]; [| discriminate].
    destruct (IsDir info); intros [= <- <-]; exact Hst.
  - destruct info as [info|]; [| discriminate].
    destruct (strings.HasPrefix (Name info) ".").
    + destruct (IsDir info); intros [= <- <-]; exact Hst.
    + destruct (ctxDone (polls st)); [intros [= <- <-]; exact Hst |].
      destruct (IsDir info); cbn [andb]; [| intros [= <- <-]; exact Hst].
      destruct (String.eqb_spec path Cwd) as [Heq | Hne]; cbn [negb];
        [intros [= <- <-]; exact Hst |].
      set (sp := filepath.Join [findPlandex w path; "project.json"]).
      destruct (Stat w sp) eqn:Hstat; try (intros [= <- <-]; exact Hst).
      destruct (ReadFile w sp) as [e | bytes] eqn:Hread;
        [intros [= <- <-]; exact Hst |].
      destruct (UnmarshalId w bytes) as [projectId|] eqn:Hid; [| discriminate].
      intros [= <- <-]. unfold projectsFound. cbn [childProjectIds].
      apply Forall_app. split; [exact Hst |].
      constructor; [| constructor]. cbn [fst snd]. split; [exact Hne |].
      destruct (stray_settings_path w path Hstray Hstat) as [Hmark Hsp].
      fold sp in Hsp. split; [exact Hmark |]. rewrite <- Hsp.
      split; [exact Hstat |]. exists bytes. split; [exact Hread | exact Hid].
Qed.

(** A pair is appended only at a directory that the walk passes. *)
Lemma childWalkFn_origin path info err st st' ret pr :
  childWalkFn w Cwd ctxDone path info err st = CbRet st' ret ->
  pr ∈ childProjectIds st' ->
  pr ∈ childProjectIds st \/
  (fst pr = path /\ err = None /\
   exists name, info = Some {| Name := name; IsDir := true |}).
Proof.
  unfold childWalkFn.
  destruct err as [e|].
  - destruct (IsPermission e); [| intros [= <- <-]; auto].
    destruct info as [i|]; [| discriminate].
    destruct (IsDir i); intros [= <- <-]; auto.
  - destruct info as [[name isdir]|]; [| discriminate]. cbn [Name IsDir].
    destruct (strings.HasPrefix name ".");
      [destruct isdir; intros [= <- <-]; auto |].
    destruct (ctxDone (polls st)); [intros [= <- <-]; cbn; auto |].
    destruct isdir; cbn [andb]; [| intros [= <- <-]; cbn; auto].
    destruct (negb (String.eqb path Cwd)); [| intros [= <- <-]; cbn; auto].
    destruct (Stat w _); try (intros [= <- <-]; cbn; auto).
    destruct (ReadFile w _) as [e | bytes]; [intros [= <- <-]; cbn; auto |].
    destruct (UnmarshalId w bytes) as [projectId|]; [| discriminate].
    intros [= <- <-]. cbn [childProjectIds]. intros Hin.
    apply elem_of_app in Hin. destruct Hin as [Hin | Hin]; [left; exact Hin |].
    apply list_elem_of_singleton in Hin. subst pr. right. cbn [fst]. eauto.
Qed.

Lemma child_walk_origin pr n : forall path st st' ret,
  walk (childWalkFn w Cwd ctxDone) path n st = CbRet st' ret ->
  pr ∈ childProjectIds st' ->
  pr ∈ childProjectIds st \/ (fst pr, true) ∈ entriesOf path n.
Proof.
  induction n as [name | name entries IHes | name e | name e]
    using Node_forall_ind; intros path st st' ret.
  - cbn [walk]. intros Hcall Hin.
    destruct (childWalkFn_origin _ _ _ _ _ _ _ Hcall Hin)
      as [H | (_ & _ & name' & Hinfo)]; [left; exact H | discriminate Hinfo].
  - rewrite walk_Dir. cbn [entriesOf].
    destruct (childWalkFn w Cwd ctxDone path _ None st)
      as [st1 [err1|] | msg] eqn:Hcall; [| | discriminate].
    + intros [= <- <-] Hin.
      destruct (childWalkFn_origin _ _ _ _ _ _ _ Hcall Hin)
        as [H | (Hp & _)]; [left; exact H |].
      right. apply elem_of_cons. left. rewrite <- Hp. reflexivity.
    + intros Hw Hin.
      assert (Hbelow : pr ∈ childProjectIds st1 \/
                (fst pr, true) ∈
                flat_map (fun c => entriesOf (filepath.Join [path; nodeName c]) c)
                  entries).
      { clear Hcall. revert st1 Hw.
        induction IHes as [|c rest Hc _ IHrest]; intros st1; cbn [walkEntries].
        - intros [= <- <-]. left. exact Hin.
        - cbn [flat_map].
          assert (Hmore : forall st2 ret2,
                    pr ∈ childProjectIds st2 \/
                    (fst pr, true) ∈
                    flat_map (fun c => entriesOf (filepath.Join [path; nodeName c]) c)
                      rest ->
                    walk (childWalkFn w Cwd ctxDone)
                      (filepath.Join [path; nodeName c]) c st1 = CbRet st2 ret2 ->
                    pr ∈ childProjectIds st1 \/
                    (fst pr, true) ∈
                    entriesOf (filepath.Join [path; nodeName c]) c ++
                    flat_map (fun c => entriesOf (filepath.Join [path; nodeName c]) c)
                      rest).
          { intros st2 ret2 [H2 | Hr] Hwc.
            - destruct (Hc _ _ _ _ Hwc H2) as [H1 | He]; [left; exact H1 |].
              right. apply elem_of_app. left. exact He.
            - right. apply elem_of_app. right. exact Hr. }
          destruct (walk _ (filepath.Join [path; nodeName c]) c st1)
            as [st2 [err|] | m] eqn:Hwc; [| | discriminate].
          + destruct c as [fname | dname des | uname ue | sname se];
              try (intros [= <- <-]; eapply (Hmore st2); [left; exact Hin | reflexivity]);
              (destruct (decide (err = SkipDir));
                 [intros Hrest; eapply (Hmore st2); [apply IHrest, Hrest | reflexivity]
                 | intros [= <- <-]; eapply (Hmore st2); [left; exact Hin | reflexivity]]).
          + intros Hrest. eapply (Hmore st2); [apply IHrest, Hrest | reflexivity]. }
      destruct Hbelow as [H1 | Hb].
      * destruct (childWalkFn_origin _ _ _ _ _ _ _ Hcall H1)
          as [H | (Hp & _)]; [left; exact H |].
        right. apply elem_of_cons. left. rewrite <- Hp. reflexivity.
      * right. apply elem_of_cons. right. exact Hb.
  - cbn [walk]. intros Hcall Hin.
    destruct (childWalkFn_origin _ _ _ _ _ _ _ Hcall Hin)
      as [H | (_ & Herr & _)]; [left; exact H | discriminate Herr].
  - cbn [walk]. intros Hcall Hin.
    destruct (childWalkFn_origin _ _ _ _ _ _ _ Hcall Hin)
      as [H | (_ & Herr & _)]; [left; exact H | discriminate Herr].
Qed.

End SearchExtras.

Section SearchExtraTheorems.

Import Fs.

(** X18.  Provided that no [project.json] is found at the relative path:
    every pair that [GetChildProjectIdsWithPaths] returns, also when the
    deadline has cut the search short, names a readable directory of the
    tree below the working directory, other than the working directory
    itself, that is a project, with the identifier in its settings
    file. *)
Theorem child_search_pairs_sound (w : World) (Cwd : string)
    (ctxDone : nat -> bool) (l : list (string * string)) :
  Stat w "project.json" <> StatOk ->
  GetChildProjectIdsWithPaths w Cwd ctxDone = Ok l ->
  Forall (fun pr => fst pr <> Cwd /\
                    (fst pr, true) ∈ entriesOf Cwd (Tree w Cwd) /\
                    holdsProject w (fst pr) (snd pr)) l.
Proof.
  intros Hstray. unfold GetChildProjectIdsWithPaths.
  destruct (Walk (childWalkFn w Cwd ctxDone) Cwd (Tree w Cwd)
              {| childProjectIds := []; polls := 0 |})
    as [st ret | msg] eqn:Hw; [| discriminate].
  intros Hl.
  assert (Hst : l = childProjectIds st).
  { destruct ret as [err|]; [| injection Hl as <-; reflexivity].
    destruct (String.eqb (Error err) "context timeout"); [| discriminate].
    injection Hl as <-. reflexivity. }
  subst l. clear Hl.
  assert (Hsound : projectsFound w Cwd st).
  { eapply Walk_preserves;
      [intros path info err s0 s1 r H0 H1;
       exact (childWalkFn_sound w Cwd ctxDone path info err s0 s1 r Hstray H0 H1)
      | | exact Hw].
    constructor. }
  assert (Hwalk : exists ret',
            walk (childWalkFn w Cwd ctxDone) Cwd (Tree w Cwd)
              {| childProjectIds := []; polls := 0 |} = CbRet st ret').
  { unfold Walk in Hw.
    destruct (walk _ Cwd (Tree w Cwd) _) as [st1 [err|] | m]; [| | discriminate].
    - destruct (decide (err = SkipDir)); injection Hw as <- _; eauto.
    - injection Hw as <- _. eauto. }
  destruct Hwalk as [ret' Hwalk].
  apply Forall_forall. intros pr Hin.
  unfold projectsFound in Hsound. rewrite Forall_forall in Hsound.
  destruct (Hsound pr Hin) as [Hne Hh].
  split; [exact Hne |]. split; [| exact Hh].
  destruct (child_walk_origin w Cwd ctxDone pr _ _ _ _ _ Hwalk Hin) as [H0 | He];
    [| exact He].
  cbn [childProjectIds] in H0. apply elem_of_nil in H0. contradiction.
Qed.

Lemma child_search_pairs_sound_witness :
  Stat lineageWorld "project.json" <> StatOk /\
  GetChildProjectIdsWithPaths lineageWorld "/home/u/work/app" (fun _ => false)
    = Ok [("/home/u/work/app/api", "id-api")] /\
  Forall (fun pr => fst pr <> "/home/u/work/app" /\
                    (fst pr, true) ∈
                      entriesOf "/home/u/work/app" (Tree lineageWorld "/home/u/work/app") /\
                    holdsProject lineageWorld (fst pr) (snd pr))
    [("/home/u/work/app/api", "id-api")].
Proof.
  assert (H0 : Stat lineageWorld "project.json" <> StatOk)
    by (vm_compute; discriminate).
  assert (H : GetChildProjectIdsWithPaths lineageWorld "/home/u/work/app"
                (fun _ => false) = Ok [("/home/u/work/app/api", "id-api")])
    by (vm_compute; reflexivity).
  split; [exact H0 |]. split; [exact H |].
  exact (child_search_pairs_sound lineageWorld "/home/u/work/app" _ _ H0 H).
Defined.

(** X19.  Two cases in which the search below the working directory finds
    nothing and reports no error: the name of the working directory itself
    starts with a dot, so that the walk skips it with everything in it; or
    the context is already done when the walk reaches the working
    directory. *)
Theorem child_search_finds_nothing (w : World) (Cwd : string)
    (ctxDone : nat -> bool) (name : string) (entries : list Node) :
  Tree w Cwd = Dir name entries ->
  (strings.HasPrefix name "." = true ->
   GetChildProjectIdsWithPaths w Cwd ctxDone = Ok [])
  /\ (strings.HasPrefix name "." = false -> ctxDone 0%nat = true ->
      GetChildProjectIdsWithPaths w Cwd ctxDone = Ok []).
Proof.
  intros Htree. unfold GetChildProjectIdsWithPaths, Walk.
  rewrite Htree, walk_Dir. split.
  - intros Hh. rewrite childWalkFn_hidden by exact Hh. cbn [IsDir].
    destruct (decide (SkipDir = SkipDir)); [reflexivity | contradiction].
  - intros Hv Hdone. rewrite childWalkFn_deadline by assumption.
    destruct (decide (contextTimeout = SkipDir)) as [Heq | _]; [discriminate Heq |].
    reflexivity.
Qed.

Lemma child_search_finds_nothing_witness :
  Tree lineageWorld "/home/u/work/app" =
    Dir "app" [Dir ".git" [File "config"];
               Dir "api" [Dir ".plandex" [File "project.json"]]; File "main.go"] /\
  GetChildProjectIdsWithPaths lineageWorld "/home/u/work/app" (fun _ => true) = Ok [].
Proof.
  assert (H : Tree lineageWorld "/home/u/work/app" =
    Dir "app" [Dir ".git" [File "config"];
               Dir "api" [Dir ".plandex" [File "project.json"]]; File "main.go"])
    by reflexivity.
  split; [exact H |].
  exact (proj2 (child_search_finds_nothing lineageWorld "/home/u/work/app"
                  (fun _ => true) _ _ H) eq_refl eq_refl).
Defined.

End SearchExtraTheorems.

(** ** Entries that cannot be examined *)

Section FaultFacts.

Import Fs.

Variables (currentDir : string) (ignored : option GitIgnore) (isGitRepo : bool).

Lemma pathsWalkFn_no_panic n : forall path s msg,
  walk (pathsWalkFn currentDir ignored isGitRepo) path n s <> CbPanic msg.
Proof.
  induction n as [name | name entries IHes | name e | name e]
    using Node_forall_ind; intros path s msg.
  - cbn [walk]. unfold pathsWalkFn. cbn [IsDir].
    destruct (negb isGitRepo); [| discriminate].
    destruct (filepath.Rel currentDir path) as [rel|]; [| discriminate].
    destruct (isIgnored ignored rel); discriminate.
  - rewrite walk_Dir.
    destruct (pathsWalkFn currentDir ignored isGitRepo path _ None s)
      as [s1 [err1|] | m] eqn:Hcall; [discriminate | |].
    + clear Hcall s. revert s1.
      induction IHes as [|c rest Hc _ IHrest]; intros s1; cbn [walkEntries];
        [discriminate |].
      destruct (walk _ _ c s1) as [s2 [err|] | m] eqn:Hw.
      * destruct c; try discriminate;
          (destruct (decide (err = SkipDir)); [apply IHrest | discriminate]).
      * apply IHrest.
      * exfalso. exact (Hc _ _ _ Hw).
    + exfalso. revert Hcall. unfold pathsWalkFn. cbn [IsDir].
      destruct (filepath.Rel currentDir path) as [rel|]; [| discriminate].
      destruct (isIgnored ignored rel); discriminate.
  - cbn [walk]. discriminate.
  - cbn [walk]. discriminate.
Qed.

Lemma walk_faulty n : forall path s,
  faulty (prune currentDir ignored path n) = true ->
  aborted (walk (pathsWalkFn currentDir ignored isGitRepo) path n s).
Proof.
  induction n as [name | name entries IHes | name e | name e]
    using Node_forall_ind; intros path s.
  - discriminate.
  - cbn [prune]. rewrite walk_Dir. unfold pathsWalkFn at 1. cbn [IsDir].
    destruct (filepath.Rel currentDir path) as [rel|] eqn:Hrel.
    + destruct (isIgnored ignored rel) eqn:Hig; [discriminate |].
      cbn [faulty]. set (s1 := Build_PathSets _ _ _). clearbody s1. revert s1.
      induction IHes as [|c rest Hc _ IHrest]; intros s1;
        cbn [List.map existsb walkEntries]; [discriminate |].
      intros Hf. apply orb_true_iff in Hf.
      pose proof (Hc (filepath.Join [path; nodeName c]) s1) as Hc1.
      destruct (walk _ _ c s1) as [s2 [err|] | m] eqn:Hw.
      * assert (Hrest : err = SkipDir -> existsb faulty
                  (List.map (fun c0 => prune currentDir ignored
                               (filepath.Join [path; nodeName c0]) c0) rest) = true).
        { intros ->. destruct Hf as [Hf | Hf]; [| exact Hf].
          exfalso. exact (Hc1 Hf eq_refl). }
        destruct c as [fname | dname des | uname ue | sname se].
        -- exact (pathsWalkFn_file_no_skip _ _ _ _ _ _ _ _ Hw).
        -- destruct (decide (err = SkipDir)) as [Heq | Hne];
             [apply IHrest, Hrest, Heq | exact Hne].
        -- destruct (decide (err = SkipDir)) as [Heq | Hne];
             [apply IHrest, Hrest, Heq | exact Hne].
        -- destruct (decide (err = SkipDir)) as [Heq | Hne];
             [apply IHrest, Hrest, Heq | exact Hne].
      * apply IHrest. destruct Hf as [Hf | Hf]; [| exact Hf].
        exfalso. exact (Hc1 Hf).
      * exfalso. exact (pathsWalkFn_no_panic _ _ _ _ Hw).
    + intros _. cbn. discriminate.
  - cbn [prune faulty walk pathsWalkFn aborted]. intros Hf Heq.
    rewrite Heq in Hf. rewrite bool_decide_eq_true_2 in Hf by reflexivity.
    discriminate Hf.
  - cbn [prune faulty walk pathsWalkFn aborted]. intros Hf Heq.
    rewrite Heq in Hf. rewrite bool_decide_eq_true_2 in Hf by reflexivity.
    discriminate Hf.
Qed.

Lemma walkProducer_faulty baseDir tree s :
  faulty (prune currentDir ignored baseDir tree) = true ->
  exists err, walkProducer baseDir currentDir ignored isGitRepo tree s = Err err.
Proof.
  intros Hf. pose proof (walk_faulty tree baseDir s Hf) as Hab.
  unfold walkProducer, Walk.
  destruct (walk _ baseDir tree s) as [s' [err|] | m]; cbn [aborted] in Hab;
    try contradiction.
  destruct (decide (err = SkipDir)); [contradiction |]. eauto.
Qed.

End FaultFacts.

Section FaultTheorems.

Import Fs.

(** X20.  [GetPaths] gives up on the first entry that it cannot examine:
    when [os.Lstat] fails on an entry, or a directory cannot be read, and
    the entry is not below an ignored directory, the call returns an error
    and no paths.  The ignore file does not excuse the entry itself: the
    error is returned before the patterns are looked at. *)
Theorem paths_fail_on_unreadable_entry (w : World) (baseDir currentDir : string)
    (ignored : option GitIgnore) :
  GetPlandexIgnore w currentDir = inr ignored ->
  faulty (prune currentDir ignored baseDir (Tree w baseDir)) = true ->
  exists err, GetPaths w baseDir currentDir = Err err.
Proof.
  intros Hig Hf. unfold GetPaths, producers. rewrite Hig.
  destruct (IsGitRepo w baseDir).
  - destruct (listProducer _ baseDir currentDir ignored (GitLsFiles w baseDir) noPaths)
      as [err | s1]; [eauto |].
    destruct (listProducer _ baseDir currentDir ignored (GitLsOthers w baseDir) s1)
      as [err | s2]; [eauto |].
    destruct (walkProducer_faulty currentDir ignored true baseDir _ s2 Hf)
      as [err ->]. eauto.
  - destruct (walkProducer_faulty currentDir ignored false baseDir _ noPaths Hf)
      as [err ->]. eauto.
Qed.

Lemma paths_fail_on_unreadable_entry_witness :
  GetPlandexIgnore lockedWorld "/proj" = inr None /\
  faulty (prune "/proj" None "/proj" (Tree lockedWorld "/proj")) = true /\
  GetPaths lockedWorld "/proj" "/proj" =
    Err (Errorf ("error walking directory: " +:+
                 Error (permissionDenied "lstat" "/proj/locked/x"))) /\
  exists err, GetPaths lockedWorld "/proj" "/proj" = Err err.
Proof.
  assert (H1 : GetPlandexIgnore lockedWorld "/proj" = inr None) by reflexivity.
  assert (H2 : faulty (prune "/proj" None "/proj" (Tree lockedWorld "/proj")) = true)
    by (vm_compute; reflexivity).
  split; [exact H1 |]. split; [exact H2 |].
  split; [vm_compute; reflexivity |].
  exact (paths_fail_on_unreadable_entry lockedWorld "/proj" "/proj" None H1 H2).
Defined.

End FaultTheorems.
